(** * local-search: the inverted-index engine of [projects/local-search/src/engine.js]

    A shallow embedding of the [SearchEngine] class, followed by the
    properties of its tokenizer, its index and its ranking.

    Conventions of the embedding.
    - A JavaScript string is a [string] of 8-bit code units (U+0000..U+00FF).
      Lower-casing maps these unit by unit; above U+00FF it need not (U+0130
      becomes two units), so where positions in the lower-cased text are
      used for the text, the statements ask for ASCII.
    - An object used as a dictionary ([documents], [invertedIndex],
      [docFreq], a posting map, [wordCounts]) is the finite map of its own
      enumerable properties, and a loop over its entries visits them in the
      order of [map_to_list]; the order shows only where [search] breaks a
      tie between equal scores.  The code reads a key that names a property
      every object inherits ([constructor], [__proto__]) through the prototype
      chain, which a finite map does not express.  Document paths are file
      system paths and are not such names; terms come from file contents and
      can be.  [Inherited.addDocument] is [addDocument] with the prototype
      chain spelled out; it is [addDocument] on the contents that hold
      neither token ([own_terms]), and the statements on what is indexed ask
      for that.
    - The numbers the code counts with are integers; a [docFreq] entry can
      also be [NaN], which is what [undefined++] stores.  Scores are real
      numbers: [Math.log] is [ln] and [/] is exact division.
    - The file system, [path], [JSON] and the clock are an explicit
      environment [Env]; a call that throws is an answer [None]. *)

From Stdlib Require Import Reals Lra.
From stdpp Require Import gmap strings list fin_maps.
From Stdlib Require Import Ascii String.

Open Scope string_scope.

(** ** Strings *)

Module JsString.

Definition code (c : ascii) : N := N_of_ascii c.

Definition in_range (lo hi : N) (c : ascii) : bool :=
  ((lo <=? code c) && (code c <=? hi))%N.

(** [String.prototype.toLowerCase] on one code unit: A-Z, and the Latin-1
    capitals U+00C0..U+00DE except the multiplication sign U+00D7. *)
Definition lower_char (c : ascii) : ascii :=
  if in_range 65 90 c || (in_range 192 222 c && negb (code c =? 215)%N)
  then ascii_of_N (code c + 32)
  else c.

Fixpoint map_chars (f : ascii → ascii) (s : string) : string :=
  match s with
  | EmptyString => EmptyString
  | String c s' => String (f c) (map_chars f s')
  end.

(** [s.toLowerCase()], for a string of these units.  It keeps the length
    and every position, which lower-casing does not do for every unit above
    U+00FF. *)
Definition toLowerCase (s : string) : string := map_chars lower_char s.

(** The class [[a-z0-9_]]. *)
Definition is_word_char (c : ascii) : bool :=
  in_range 97 122 c || in_range 48 57 c || (code c =? 95)%N.

(** The class [\s] below U+0100: TAB, LF, VT, FF, CR, SPACE, NBSP. *)
Definition is_space (c : ascii) : bool :=
  in_range 9 13 c || (code c =? 32)%N || (code c =? 160)%N.

(** [s + c] for a single character [c]. *)
Fixpoint snoc (s : string) (c : ascii) : string :=
  match s with
  | EmptyString => String c EmptyString
  | String d s' => String d (snoc s' c)
  end.

(** [s.split(/\s+/)]: the pieces between the maximal runs of white space;
    a separator at either end leaves an empty piece there, and the empty
    string splits into one empty piece. *)
Fixpoint split_from (cur : string) (in_sep : bool) (s : string) : list string :=
  match s with
  | EmptyString => [cur]
  | String c s' =>
      if is_space c then
        if in_sep then split_from EmptyString true s'
        else cur :: split_from EmptyString true s'
      else split_from (snoc cur c) false s'
  end.

Definition split_ws (s : string) : list string := split_from EmptyString false s.

Definition startsWith (s pre : string) : bool := String.prefix pre s.

Fixpoint endsWith (s suf : string) : bool :=
  (s =? suf)%string ||
  match s with
  | EmptyString => false
  | String _ s' => endsWith s' suf
  end.

(** [s.slice(n)] for [0 <= n]. *)
Fixpoint drop (n : nat) (s : string) : string :=
  match n, s with
  | O, _ => s
  | S n', String _ s' => drop n' s'
  | S _, EmptyString => EmptyString
  end.

(** [s.substring(a, b)] for [0 <= a <= b]. *)
Definition substring (a b : Z) (s : string) : string :=
  String.substring (Z.to_nat a) (Z.to_nat (b - a)) s.

End JsString.
Import JsString.

(** ** Tokenizer *)

(** [w.length >= 2 && w.length <= 50] *)
Definition length_ok (w : string) : bool :=
  (2 <=? String.length w)%nat && (String.length w <=? 50)%nat.

(** [.replace(/[^a-z0-9_\s]/g, ' ')] *)
Definition blank_other (c : ascii) : ascii :=
  if is_word_char c || is_space c then c else " "%char.

(** [tokenize(text)] *)
Definition tokenize (text : string) : list string :=
  filter (λ w, length_ok w = true)
    (split_ws (map_chars blank_other (toLowerCase text))).

(** The tokenizer as the design document words it: the maximal runs of
    characters of [[a-z0-9_]], in order of occurrence. *)
Definition flush (cur : string) : list string :=
  match cur with
  | EmptyString => []
  | _ => [cur]
  end.

Fixpoint word_runs_from (cur : string) (s : string) : list string :=
  match s with
  | EmptyString => flush cur
  | String c s' =>
      if is_word_char c then word_runs_from (snoc cur c) s'
      else flush cur ++ word_runs_from EmptyString s'
  end.

Definition word_runs (s : string) : list string := word_runs_from EmptyString s.

Definition all_chars (P : ascii → bool) (s : string) : Prop :=
  Forall (λ c, P c = true) (list_ascii_of_string s).



Definition tokenize_spec (text : string) : list string :=
  filter (λ w, length_ok w = true) (word_runs (toLowerCase text)).

(** ** The index *)

(** A number the index counts with: an integer, or [NaN]. *)
Inductive number : Type :=
  | Int (z : Z)
  | NaN.

(** [v++] and [v--] on a property that may be missing: [undefined] and [NaN]
    both give [NaN]. *)
Definition incr (v : option number) : number :=
  match v with
  | Some (Int z) => Int (z + 1)
  | _ => NaN
  end.

Definition decr (v : option number) : number :=
  match v with
  | Some (Int z) => Int (z - 1)
  | _ => NaN
  end.

(** [v <= 0] *)
Definition leq0 (v : number) : bool :=
  match v with
  | Int z => (z <=? 0)%Z
  | NaN => false
  end.

(** Truthiness of a count read from a dictionary: [undefined] and [0] are
    falsy. *)
Definition truthy (v : option Z) : bool :=
  match v with
  | Some z => negb (z =? 0)%Z
  | None => false
  end.

Module Doc.
Record t : Type := make {
  filename : string;
  content : string;
  modified : Z;
  size : Z;
  extension : string;
  wordCount : Z;
  uniqueWords : Z
}.
End Doc.
Abbreviation Document := Doc.t.

Record Index : Type := mkIndex {
  version : Z;
  documents : gmap string Document;
  invertedIndex : gmap string (gmap string Z);
  docFreq : gmap string number;
  totalDocs : Z;
  lastUpdated : option string
}.

Definition set_documents (f : gmap string Document → gmap string Document) (i : Index) : Index :=
  mkIndex (version i) (f (documents i)) (invertedIndex i) (docFreq i) (totalDocs i) (lastUpdated i).

Definition set_invertedIndex (f : gmap string (gmap string Z) → gmap string (gmap string Z))
    (i : Index) : Index :=
  mkIndex (version i) (documents i) (f (invertedIndex i)) (docFreq i) (totalDocs i) (lastUpdated i).

Definition set_docFreq (f : gmap string number → gmap string number) (i : Index) : Index :=
  mkIndex (version i) (documents i) (invertedIndex i) (f (docFreq i)) (totalDocs i) (lastUpdated i).

Definition set_totalDocs (f : Z → Z) (i : Index) : Index :=
  mkIndex (version i) (documents i) (invertedIndex i) (docFreq i) (f (totalDocs i)) (lastUpdated i).

Definition set_lastUpdated (v : option string) (i : Index) : Index :=
  mkIndex (version i) (documents i) (invertedIndex i) (docFreq i) (totalDocs i) v.

(** [createEmptyIndex()] *)
Definition createEmptyIndex : Index :=
  {| version := 1;
     documents := ∅;
     invertedIndex := ∅;
     docFreq := ∅;
     totalDocs := 0;
     lastUpdated := None |}.

(** ** Indexer *)

(** [wordCounts[token] = (wordCounts[token] || 0) + 1] over the tokens, for
    tokens that are own keys; [Inherited.count_token] has the two others. *)
Definition count_token (wordCounts : gmap string Z) (token : string) : gmap string Z :=
  <[token := (default 0 (wordCounts !! token) + 1)%Z]> wordCounts.

Definition count_words (tokens : list string) : gmap string Z :=
  foldl count_token ∅ tokens.

(** One round of the loop over [Object.entries(wordCounts)] in
    [addDocument], for a word that is an own key; [Inherited.add_constructor]
    is the round for [constructor]. *)
Definition add_posting (filePath : string) (idx : Index) (entry : string * Z) : Index :=
  let '(word, count) := entry in
  let idx1 :=
    match invertedIndex idx !! word with
    | None => set_docFreq <[word := Int 0]> (set_invertedIndex <[word := ∅]> idx)
    | Some _ => idx
    end in
  let docs := default ∅ (invertedIndex idx1 !! word) in
  let idx2 :=
    if truthy (docs !! filePath) then idx1
    else set_docFreq <[word := incr (docFreq idx1 !! word)]> idx1 in
  set_invertedIndex <[word := <[filePath := count]> docs]> idx2.

(** [addDocument(filePath, filename, content, modified, extension)].  The
    rounds of the posting loop touch distinct words, so the order in which
    the entries of [wordCounts] are visited does not show in the result. *)
Definition addDocument (filePath filename content : string) (modified : Z)
    (extension : string) (idx : Index) : Index :=
  let tokens := tokenize content in
  let wordCounts := count_words tokens in
  let doc :=
    {| Doc.filename := filename;
       Doc.content := substring 0 10000 content;
       Doc.modified := modified;
       Doc.size := Z.of_nat (String.length content);
       Doc.extension := extension;
       Doc.wordCount := Z.of_nat (List.length tokens);
       Doc.uniqueWords := Z.of_nat (size wordCounts) |} in
  let idx1 := set_documents <[filePath := doc]> idx in
  let idx2 := foldl (add_posting filePath) idx1 (map_to_list wordCounts) in
  set_totalDocs (λ n, n + 1)%Z idx2.

(** One round of the loop over [Object.entries(this.index.invertedIndex)] in
    [removeDocument]; [docs] is the posting map the entry holds, which is the
    object stored under [word]. *)
Definition remove_posting (filePath : string) (idx : Index)
    (entry : string * gmap string Z) : Index :=
  let '(word, docs) := entry in
  if truthy (docs !! filePath) then
    let idx1 := set_invertedIndex <[word := delete filePath docs]> idx in
    let idx2 := set_docFreq <[word := decr (docFreq idx1 !! word)]> idx1 in
    if leq0 (default NaN (docFreq idx2 !! word)) then
      set_docFreq (delete word) (set_invertedIndex (delete word) idx2)
    else idx2
  else idx.

(** [removeDocument(filePath)] *)
Definition removeDocument (filePath : string) (idx : Index) : Index :=
  match documents idx !! filePath with
  | None => idx
  | Some _ =>
      let idx1 := foldl (remove_posting filePath) idx (map_to_list (invertedIndex idx)) in
      set_totalDocs (λ n, n - 1)%Z (set_documents (delete filePath) idx1)
  end.

(** ** Environment: the file system, [path], [JSON] and the clock *)

Record Stats : Type := mkStats {
  st_size : Z;    (* stats.size *)
  st_mtime : Z    (* stats.mtime.getTime() *)
}.

(** An entry of [fs.readdirSync(dir, { withFileTypes: true })].  A directory
    entry carries what [readdirSync] answers for it: its own entries, or
    [None] when the call throws. *)
Unset Elimination Schemes.
Inductive Dirent : Type :=
  | FileEntry (name : string)
  | DirEntry (name : string) (listing : option (list Dirent))
  | OtherEntry (name : string).
Set Elimination Schemes.

(** A call that throws answers [None] (for [writeFileSync], [false]). *)
Record Env : Type := mkEnv {
  homedir : string;
  path_join : string → string → string;
  path_relative : string → string → string;
  path_extname : string → string;
  path_basename : string → string;
  existsSync : string → bool;
  statSync : string → option Stats;
  readFileSync : string → option string;
  readdirSync : string → option (list Dirent);
  writeFileSync : string → string → bool;
  JSON_parse : string → option Index;
  JSON_stringify : Index → string;
  startTime : Z;       (* Date.now() on entry *)
  isoTime : string;    (* new Date().toISOString() *)
  endTime : Z          (* Date.now() before returning *)
}.

Definition INDEX_DIR (env : Env) : string := path_join env (homedir env) ".local-search".
Definition INDEX_PATH (env : Env) : string := path_join env (INDEX_DIR env) "index.json".
Definition MAX_FILE_SIZE : Z := 5 * 1024 * 1024.
Definition PREVIEW_LENGTH : Z := 120.

Definition BINARY_EXTENSIONS : list string :=
  [ "exe"; "dll"; "so"; "dylib"; "bin";
    "jpg"; "jpeg"; "png"; "gif"; "bmp"; "webp"; "svg"; "ico";
    "mp3"; "mp4"; "avi"; "mov"; "mkv"; "wav"; "flac";
    "zip"; "tar"; "gz"; "bz2"; "7z"; "rar";
    "pdf"; "doc"; "docx"; "xls"; "xlsx"; "ppt"; "pptx";
    "o"; "obj"; "a"; "lib"; "class"; "pyc"; "pyo";
    "woff"; "woff2"; "ttf"; "otf"; "eot";
    "db"; "sqlite"; "sqlite3" ].

(** A command either returns a value or throws; both leave an index in
    memory. *)
Inductive outcome (A : Type) : Type :=
  | Returned (idx : Index) (value : A)
  | Thrown (idx : Index).
Arguments Returned {A} idx value.
Arguments Thrown {A} idx.

Definition index_of {A : Type} (o : outcome A) : Index :=
  match o with
  | Returned idx _ => idx
  | Thrown idx => idx
  end.

(** ** Persistence *)

(** [loadIndex()]: the parsed value is read as an [Index]. *)
Definition loadIndex (env : Env) : Index :=
  if existsSync env (INDEX_PATH env) then
    match readFileSync env (INDEX_PATH env) ≫= JSON_parse env with
    | Some parsed => parsed
    | None => createEmptyIndex
    end
  else createEmptyIndex.

(** [saveIndex()]: [true] when the write went through. *)
Definition saveIndex (env : Env) (idx : Index) : bool :=
  writeFileSync env (INDEX_PATH env) (JSON_stringify env idx).

(** ** Ignore matcher and binary filter *)

(** [s.replace('.', '')]: the first dot goes. *)
Fixpoint remove_first_dot (s : string) : string :=
  match s with
  | EmptyString => EmptyString
  | String c s' => if (c =? ".")%char then s' else String c (remove_first_dot s')
  end.

Definition extension_of (env : Env) (filePath : string) : string :=
  remove_first_dot (toLowerCase (path_extname env filePath)).

Definition isBinaryFile (env : Env) (filePath : string) : bool :=
  bool_decide (extension_of env filePath ∈ BINARY_EXTENSIONS).

Definition DEFAULT_PATTERNS : list string :=
  [ "node_modules/"; ".git/"; ".svn/"; ".hg/"; "target/"; "dist/"; "build/";
    ".next/"; ".nuxt/"; "coverage/"; "*.log"; ".env"; ".env.*"; "*.min.js";
    "*.min.css"; ".local-search-index/"; ".local-search/" ].

(** [s.split('\n')] *)
Fixpoint split_lines_from (cur : string) (s : string) : list string :=
  match s with
  | EmptyString => [cur]
  | String c s' =>
      if (c =? "010")%char then cur :: split_lines_from EmptyString s'
      else split_lines_from (snoc cur c) s'
  end.

Fixpoint all_space (s : string) : bool :=
  match s with
  | EmptyString => true
  | String c s' => is_space c && all_space s'
  end.

(** [l.trim() && !l.startsWith('#')] *)
Definition pattern_line (l : string) : bool :=
  negb (all_space l) && negb (startsWith l "#").

(** [loadIgnorePatterns(dirPath)]: the patterns the matcher closes over;
    [None] when reading the ignore file throws. *)
Definition loadIgnorePatterns (env : Env) (dirPath : string) : option (list string) :=
  let searchIgnorePath := path_join env dirPath ".searchignore" in
  let gitIgnorePath := path_join env dirPath ".gitignore" in
  ignoreContent ←
    (if existsSync env searchIgnorePath then readFileSync env searchIgnorePath
     else if existsSync env gitIgnorePath then readFileSync env gitIgnorePath
     else Some EmptyString);
  let lines :=
    filter (λ l, pattern_line l = true) (split_lines_from EmptyString ignoreContent) in
  Some (DEFAULT_PATTERNS ++ lines)%list.

(** [pattern.replace(/\/$/, '')] *)
Fixpoint strip_slash (s : string) : string :=
  match s with
  | EmptyString => EmptyString
  | String c s' =>
      if (c =? "/")%char && (s' =? EmptyString)%string then EmptyString
      else String c (strip_slash s')
  end.

(** The one-character string of a backslash. *)
Definition backslash : string := String "092"%char EmptyString.

(** The body of the loop of [ignores] for one pattern. *)
Definition pattern_matches (relativePath pattern : string) : bool :=
  let cleanPattern := strip_slash pattern in
  (relativePath =? cleanPattern)%string
  || startsWith relativePath (cleanPattern ++ "/")
  || startsWith relativePath (cleanPattern ++ backslash)
  || (startsWith pattern "*." && endsWith relativePath ("." ++ drop 2 pattern)).

(** [ig.ignores(relativePath)] *)
Definition ignores (patterns : list string) (relativePath : string) : bool :=
  existsb (pattern_matches relativePath) patterns.

(** ** Crawler and [indexDirectory] *)

(** The index together with the three counters of [indexDirectory]. *)
Record Crawl : Type := mkCrawl {
  crawl_index : Index;
  filesIndexed : Z;
  binaryFiles : Z;
  ignoredFiles : Z
}.

(** What [indexDirectory] returns. *)
Record IndexReport : Type := mkIndexReport {
  report_filesIndexed : Z;
  report_binaryFiles : Z;
  report_ignoredFiles : Z;
  report_duration : Z
}.

(** The [try] block for one file, with its [catch]: an exception of
    [statSync] or [readFileSync] counts the file as ignored. *)
Definition index_file (env : Env) (fullPath name : string) (st : Crawl) : Crawl :=
  match statSync env fullPath with
  | None => mkCrawl (crawl_index st) (filesIndexed st) (binaryFiles st) (ignoredFiles st + 1)
  | Some stats =>
      if (MAX_FILE_SIZE <? st_size stats)%Z then st
      else
        let existing := documents (crawl_index st) !! fullPath in
        let unchanged :=
          match existing with
          | Some doc => (Doc.modified doc =? st_mtime stats)%Z
          | None => false
          end in
        if unchanged then st
        else
          match readFileSync env fullPath with
          | None =>
              mkCrawl (crawl_index st) (filesIndexed st) (binaryFiles st) (ignoredFiles st + 1)
          | Some content =>
              let ext := extension_of env fullPath in
              let idx1 :=
                match existing with
                | Some _ => removeDocument fullPath (crawl_index st)
                | None => crawl_index st
                end in
              let idx2 := addDocument fullPath name content (st_mtime stats) ext idx1 in
              mkCrawl idx2 (filesIndexed st + 1) (binaryFiles st) (ignoredFiles st)
          end
  end.

(** The body of the loop of [walkDir] for an entry that [isFile()]. *)
Definition visit_file (env : Env) (patterns : list string) (dirPath currentPath name : string)
    (st : Crawl) : Crawl :=
  let fullPath := path_join env currentPath name in
  let relativePath := path_relative env dirPath fullPath in
  if ignores patterns relativePath then
    mkCrawl (crawl_index st) (filesIndexed st) (binaryFiles st) (ignoredFiles st + 1)
  else if isBinaryFile env fullPath then
    mkCrawl (crawl_index st) (filesIndexed st) (binaryFiles st + 1) (ignoredFiles st)
  else index_file env fullPath name st.

(** The walk either runs to its end or is cut short by an exception of
    [readdirSync]. *)
Inductive walked : Type :=
  | Finished (st : Crawl)
  | Aborted (st : Crawl).

Definition crawl_of (w : walked) : Crawl :=
  match w with
  | Finished st => st
  | Aborted st => st
  end.

(** One round of the loop of [walkDir], for an entry of [currentPath]. *)
Fixpoint walkEntry (env : Env) (patterns : list string) (dirPath currentPath : string)
    (entry : Dirent) (st : Crawl) {struct entry} : walked :=
  match entry with
  | DirEntry name listing =>
      let fullPath := path_join env currentPath name in
      let relativePath := path_relative env dirPath fullPath in
      if ignores patterns (relativePath ++ "/") then Finished st
      else
        match listing with
        | None => Aborted st
        | Some entries =>
            (fix walkEntries (es : list Dirent) (st : Crawl) {struct es} : walked :=
               match es with
               | [] => Finished st
               | e :: es' =>
                   match walkEntry env patterns dirPath fullPath e st with
                   | Finished st' => walkEntries es' st'
                   | Aborted st' => Aborted st'
                   end
               end) entries st
        end
  | FileEntry name => Finished (visit_file env patterns dirPath currentPath name st)
  | OtherEntry _ => Finished st
  end.

Fixpoint walkEntries (env : Env) (patterns : list string) (dirPath currentPath : string)
    (es : list Dirent) (st : Crawl) : walked :=
  match es with
  | [] => Finished st
  | e :: es' =>
      match walkEntry env patterns dirPath currentPath e st with
      | Finished st' => walkEntries env patterns dirPath currentPath es' st'
      | Aborted st' => Aborted st'
      end
  end.

(** [walkDir(currentPath)], given what [readdirSync(currentPath)] answers. *)
Definition walkDir (env : Env) (patterns : list string) (dirPath currentPath : string)
    (listing : option (list Dirent)) (st : Crawl) : walked :=
  match listing with
  | None => Aborted st
  | Some entries => walkEntries env patterns dirPath currentPath entries st
  end.

(** The removal phase of a forced run:
    [Object.keys(documents).filter(p => p.startsWith(dirPath))], then
    [removeDocument] for each. *)
Definition toRemove (dirPath : string) (idx : Index) : list string :=
  filter (λ p, startsWith p dirPath = true) (map_to_list (documents idx)).*1.

Definition clear_directory (dirPath : string) (idx : Index) : Index :=
  foldl (λ i p, removeDocument p i) idx (toRemove dirPath idx).

(** [indexDirectory(dirPath, force)].  The progress line written to the
    terminal is left out. *)
Definition indexDirectory (env : Env) (dirPath : string) (force : bool) (idx : Index)
    : outcome IndexReport :=
  match loadIgnorePatterns env dirPath with
  | None => Thrown idx
  | Some patterns =>
      let idx1 := if force then clear_directory dirPath idx else idx in
      match walkDir env patterns dirPath dirPath (readdirSync env dirPath)
              (mkCrawl idx1 0 0 0) with
      | Aborted st => Thrown (crawl_index st)
      | Finished st =>
          let idx2 := set_lastUpdated (Some (isoTime env)) (crawl_index st) in
          if saveIndex env idx2 then
            Returned idx2
              (mkIndexReport (filesIndexed st) (binaryFiles st) (ignoredFiles st)
                 (endTime env - startTime env))
          else Thrown idx2
      end
  end.

(** ** [update] *)

Record UpdateReport : Type := mkUpdateReport {
  added : Z;
  removed : Z;
  modified : Z
}.

(** The state of the loop of [update]: the index and the counters [removed]
    and [modified]. *)
Record Sweep : Type := mkSweep {
  sweep_index : Index;
  sweep_removed : Z;
  sweep_modified : Z
}.

(** One round of the loop over [Object.entries(this.index.documents)]. *)
Definition update_entry (env : Env) (st : Sweep) (entry : string * Document) : Sweep :=
  let '(docPath, doc) := entry in
  if negb (existsSync env docPath) then
    mkSweep (removeDocument docPath (sweep_index st)) (sweep_removed st + 1) (sweep_modified st)
  else
    match statSync env docPath with
    | None => st
    | Some stats =>
        if negb (st_mtime stats =? Doc.modified doc)%Z then
          match readFileSync env docPath with
          | None => st
          | Some content =>
              let filename := path_basename env docPath in
              let ext := extension_of env docPath in
              let idx1 := removeDocument docPath (sweep_index st) in
              let idx2 := addDocument docPath filename content (st_mtime stats) ext idx1 in
              mkSweep idx2 (sweep_removed st) (sweep_modified st + 1)
          end
        else st
    end.

(** [update()] *)
Definition update (env : Env) (idx : Index) : outcome UpdateReport :=
  let added := 0%Z in
  let st := foldl (update_entry env) (mkSweep idx 0 0) (map_to_list (documents idx)) in
  if saveIndex env (sweep_index st) then
    Returned (sweep_index st) (mkUpdateReport added (sweep_removed st) (sweep_modified st))
  else Thrown (sweep_index st).

(** ** Query engine *)

(** [s.indexOf(t)] for a non-empty [t]; [-1] when [t] does not occur. *)
Definition indexOf (s t : string) : Z :=
  match String.index 0 t s with
  | Some i => Z.of_nat i
  | None => (-1)%Z
  end.

(** [s.replace(/\s+/g, ' ')] *)
Fixpoint collapse_from (in_space : bool) (s : string) : string :=
  match s with
  | EmptyString => EmptyString
  | String c s' =>
      if is_space c then
        if in_space then collapse_from true s'
        else String " "%char (collapse_from true s')
      else String c (collapse_from false s')
  end.

Fixpoint trimStart (s : string) : string :=
  match s with
  | EmptyString => EmptyString
  | String c s' => if is_space c then trimStart s' else s
  end.

Fixpoint trimEnd (s : string) : string :=
  match s with
  | EmptyString => EmptyString
  | String c s' =>
      match trimEnd s' with
      | EmptyString => if is_space c then EmptyString else String c EmptyString
      | rest => String c rest
      end
  end.

Definition trim (s : string) : string := trimEnd (trimStart s).

(** One round of the loop of [extractPreview] that looks for the first
    occurrence of a query token. *)
Definition earlier (contentLower : string) (bestIndex : Z) (token : string) : Z :=
  let idx := indexOf contentLower token in
  if negb (idx =? -1)%Z && ((bestIndex =? -1)%Z || (idx <? bestIndex)%Z) then idx
  else bestIndex.

(** [extractPreview(content, queryTokens)] *)
Definition extractPreview (content : string) (queryTokens : list string) : string :=
  let contentLower := toLowerCase content in
  let bestIndex := foldl (earlier contentLower) (-1)%Z queryTokens in
  let len := Z.of_nat (String.length content) in
  if (bestIndex =? -1)%Z then
    let preview := substring 0 PREVIEW_LENGTH content in
    if (PREVIEW_LENGTH <? len)%Z then preview ++ "..." else preview
  else
    let start := Z.max 0 (bestIndex - PREVIEW_LENGTH / 2) in
    let end_ := Z.min len (bestIndex + PREVIEW_LENGTH / 2) in
    let preview := substring start end_ content in
    let preview := if (0 <? start)%Z then "..." ++ preview else preview in
    let preview := if (end_ <? len)%Z then preview ++ "..." else preview in
    trim (collapse_from false
            (map_chars (λ c, if (c =? "010")%char then " "%char else c) preview)).

(** [Math.log((totalDocs + 1) / (docFreq + 1)) + 1] as a real number. *)
Definition idf_value (totalDocs docFreq : Z) : R :=
  (ln (IZR (totalDocs + 1) / IZR (docFreq + 1)) + 1)%R.

(** The weight of a term; [None] where the code computes no finite number
    ([docFreq[token]] missing or [NaN], a zero divisor, the logarithm of a
    quotient that is not positive). *)
Definition idf (totalDocs : Z) (df : option number) : option R :=
  match df with
  | Some (Int d) =>
      if decide (0 < (totalDocs + 1) * (d + 1))%Z then Some (idf_value totalDocs d)
      else None
  | _ => None
  end.

(** [count / doc.wordCount]; [None] for a zero divisor. *)
Definition tf (count wordCount : Z) : option R :=
  if decide (wordCount = 0%Z) then None
  else Some (IZR count / IZR wordCount)%R.

(** [candidateScores], an object filled key by key: its entries in the
    order the keys were first set.  [add_score] is
    [if (!scores[k]) scores[k] = 0; scores[k] += v] (resetting a score that is
    already [0] changes nothing). *)
Fixpoint add_score (docPath : string) (v : R) (scores : list (string * R))
    : list (string * R) :=
  match scores with
  | [] => [(docPath, (0 + v)%R)]
  | (p, s) :: rest =>
      if (p =? docPath)%string then (p, (s + v)%R) :: rest
      else (p, s) :: add_score docPath v rest
  end.

Fixpoint fold_option {A B : Type} (f : A → B → option A) (a : A) (l : list B) : option A :=
  match l with
  | [] => Some a
  | b :: l' => a' ← f a b; fold_option f a' l'
  end.

(** One round of the loop over the postings of a query token. *)
Definition score_posting (idx : Index) (extensions : list string) (weight : option R)
    (scores : list (string * R)) (entry : string * Z) : option (list (string * R)) :=
  let '(docPath, count) := entry in
  match documents idx !! docPath with
  | None => Some scores
  | Some doc =>
      if (0 <? List.length extensions)%nat
         && negb (bool_decide (Doc.extension doc ∈ extensions))
      then Some scores
      else
        w ← weight;
        t ← tf count (Doc.wordCount doc);
        Some (add_score docPath (t * w)%R scores)
  end.

(** One round of the loop over the query tokens. *)
Definition score_token (idx : Index) (extensions : list string)
    (scores : list (string * R)) (token : string) : option (list (string * R)) :=
  match invertedIndex idx !! token with
  | None => Some scores
  | Some docs =>
      let weight := idf (totalDocs idx) (docFreq idx !! token) in
      fold_option (score_posting idx extensions weight) scores (map_to_list docs)
  end.

Record Result : Type := mkResult {
  path : string;
  filename : string;
  score : R;
  preview : string
}.

(** [.sort((a, b) => b.score - a.score)]: a stable sort, higher scores
    first. *)
Fixpoint insert_by_score (x : Result) (l : list Result) : list Result :=
  match l with
  | [] => [x]
  | y :: l' =>
      if Rlt_dec (score x) (score y) then y :: insert_by_score x l'
      else x :: y :: l'
  end.

Definition sort_by_score (l : list Result) : list Result :=
  foldr insert_by_score [] l.

(** [.slice(0, limit)] *)
Definition slice_to (limit : Z) (l : list Result) : list Result :=
  if (0 <=? limit)%Z then take (Z.to_nat limit) l
  else take (List.length l - Z.to_nat (- limit)) l.

Definition make_result (idx : Index) (queryTokens : list string) (entry : string * R)
    : option Result :=
  let '(p, s) := entry in
  doc ← documents idx !! p;
  Some (mkResult p (Doc.filename doc) s (extractPreview (Doc.content doc) queryTokens)).

(** [search(query, extensions, limit)].  [None] stands for a run in which
    some score is not a finite number (the second [None] of [make_result], a
    candidate without a record, does not arise: a candidate is added only
    after its record was found). *)
Definition search (idx : Index) (query : string) (extensions : list string) (limit : Z)
    : option (list Result) :=
  let queryTokens := tokenize query in
  if (List.length queryTokens =? 0)%nat then Some []
  else
    candidateScores ← fold_option (score_token idx extensions) [] queryTokens;
    results ← mapM (make_result idx queryTokens) candidateScores;
    Some (slice_to limit (sort_by_score results)).

(** ** Invariants of the index *)

Definition posting_count (docs : gmap string Z) : number := Int (Z.of_nat (size docs)).

(** [docFreq] and [invertedIndex] have the same terms, and [docFreq[T]] is
    the number of paths with an entry in [invertedIndex[T]]. *)
Definition docFreq_consistent (idx : Index) : Prop :=
  dom (docFreq idx) = dom (invertedIndex idx)
  ∧ ∀ T docs, invertedIndex idx !! T = Some docs → docFreq idx !! T = Some (posting_count docs).

(** The same at one term. *)
Definition inv_at (idx : Index) (T : string) : Prop :=
  docFreq idx !! T = posting_count <$> invertedIndex idx !! T.

(** Every stored posting count is truthy. *)
Definition counts_nonzero (idx : Index) : Prop :=
  ∀ T docs D c, invertedIndex idx !! T = Some docs → docs !! D = Some c → c ≠ 0%Z.

(** No term is left with an empty posting map. *)
Definition no_empty_postings (idx : Index) : Prop :=
  ∀ T docs, invertedIndex idx !! T = Some docs → docs ≠ ∅.

Definition postings_ok (idx : Index) : Prop :=
  docFreq_consistent idx ∧ counts_nonzero idx.

Definition totalDocs_consistent (idx : Index) : Prop :=
  totalDocs idx = Z.of_nat (size (documents idx)).

(** The count stored for term [T] and document [D], if any. *)
Definition posting (idx : Index) (T D : string) : option Z :=
  invertedIndex idx !! T ≫= (λ docs, docs !! D).

(** Every candidate of the scoring loops has a record in [documents]. *)
Definition candidates_known (idx : Index) (scores : list (string * R)) : Prop :=
  ∀ p, p ∈ scores.*1 → is_Some (documents idx !! p).

(** A key that is not the name of a property every object inherits. *)
Definition own_key (k : string) : Prop := k ≠ "constructor" ∧ k ≠ "__proto__".

Definition own_terms (content : string) : Prop := Forall own_key (tokenize content).

(** [rootPath] itself, or a path inside the directory [rootPath]. *)
Definition lies_under (rootPath p : string) : bool :=
  (p =? rootPath)%string || startsWith p (rootPath ++ "/").

(** The environment with another answer of [readFileSync]. *)
Definition with_readFileSync (read : string → option string) (env : Env) : Env :=
  mkEnv (homedir env) (path_join env) (path_relative env) (path_extname env)
    (path_basename env) (existsSync env) (statSync env) read (readdirSync env)
    (writeFileSync env) (JSON_parse env) (JSON_stringify env)
    (startTime env) (isoTime env) (endTime env).

(** Every file the environment can hand out has tokens that are own keys. *)
Definition own_contents (env : Env) : Prop :=
  ∀ p content, readFileSync env p = Some content → own_terms content.

(** Induction over directory trees. *)
Section DirentInduction.
Variable P : Dirent → Prop.
Hypothesis P_file : ∀ name, P (FileEntry name).
Hypothesis P_other : ∀ name, P (OtherEntry name).
Hypothesis P_unreadable : ∀ name, P (DirEntry name None).
Hypothesis P_dir : ∀ name entries, Forall P entries → P (DirEntry name (Some entries)).

Fixpoint Dirent_tree_ind (e : Dirent) : P e :=
  match e with
  | FileEntry name => P_file name
  | OtherEntry name => P_other name
  | DirEntry name None => P_unreadable name
  | DirEntry name (Some entries) =>
      P_dir name entries
        ((fix all (es : list Dirent) : Forall P es :=
            match es with
            | [] => List.Forall_nil P
            | e' :: es' => List.Forall_cons P e' es' (Dirent_tree_ind e') (all es')
            end) entries)
  end.
End DirentInduction.

(** ** Concrete indexes and environments *)

(** The two-file corpus of the design document. *)
Definition scenario_index : Index :=
  addDocument "b.txt" "b.txt" "banana cherry" 0 "txt"
    (addDocument "a.txt" "a.txt" "apple banana apple" 0 "txt" createEmptyIndex).

(** Two documents of two words each: [kiwi] occurs once, in the first only;
    [plum] occurs once in each. *)
Definition ranking_index : Index :=
  addDocument "b.txt" "b.txt" "plum fig" 0 "txt"
    (addDocument "a.txt" "a.txt" "kiwi plum" 0 "txt" createEmptyIndex).

(** Two sibling directories whose names share a prefix. *)
Definition siblings_index : Index :=
  addDocument "/data/proj2/b.txt" "b.txt" "banana cherry" 0 "txt"
    (addDocument "/data/proj/a.txt" "a.txt" "apple banana apple" 0 "txt" createEmptyIndex).

(** A small POSIX-like [path] module. *)
Definition posix_join (a b : string) : string := a ++ "/" ++ b.

Definition posix_relative (from to : string) : string :=
  drop (S (String.length from)) to.

Fixpoint after_last (sep : ascii) (keep_sep : bool) (s : string) : option string :=
  match s with
  | EmptyString => None
  | String c s' =>
      match after_last sep keep_sep s' with
      | Some r => Some r
      | None => if (c =? sep)%char then Some (if keep_sep then s else s') else None
      end
  end.

Definition posix_extname (p : string) : string := default EmptyString (after_last "." true p).
Definition posix_basename (p : string) : string := default p (after_last "/" false p).

(** A file system given by the listing of the directory [root] and by its
    files, each with its [stat] and its content; every write goes through
    and no file holds a text that parses. *)
Definition test_env (root : string) (listing : list Dirent)
    (files : list (string * (Stats * string))) : Env :=
  {| homedir := "/home/u";
     path_join := posix_join;
     path_relative := posix_relative;
     path_extname := posix_extname;
     path_basename := posix_basename;
     existsSync := λ p, bool_decide (p ∈ files.*1);
     statSync := λ p, fst <$> (list_to_map files : gmap string (Stats * string)) !! p;
     readFileSync := λ p, snd <$> (list_to_map files : gmap string (Stats * string)) !! p;
     readdirSync := λ p, if (p =? root)%string then Some listing else None;
     writeFileSync := λ _ _, true;
     JSON_parse := λ _, None;
     JSON_stringify := λ _, EmptyString;
     startTime := 1000;
     isoTime := "2026-02-16T00:00:00.000Z";
     endTime := 1005 |}.

(** [/r] holds a small file, a file of 5 MB and one byte, and a
    sub-directory with one more small file. *)
Definition sample_env : Env :=
  test_env "/r"
    [ FileEntry "a.txt"; FileEntry "big.txt"; DirEntry "sub" (Some [ FileEntry "b.txt" ]) ]
    [ ("/r/a.txt", (mkStats 18 1, "apple banana apple"));
      ("/r/big.txt", (mkStats 5242881 2, "oversized"));
      ("/r/sub/b.txt", (mkStats 13 3, "banana cherry")) ].

(** [/r] holds nothing but a file of 5 MB and one byte. *)
Definition oversized_env : Env :=
  test_env "/r" [ FileEntry "big.txt" ] [ ("/r/big.txt", (mkStats 5242881 2, "oversized")) ].

(** The files of [siblings_index] on disk, unchanged since they were
    indexed; the crawl root is [/data/proj]. *)
Definition siblings_env : Env :=
  test_env "/data/proj" [ FileEntry "a.txt" ]
    [ ("/data/proj/a.txt", (mkStats 18 0, "apple banana apple"));
      ("/data/proj2/b.txt", (mkStats 13 0, "banana cherry")) ].

(** The backing file of the index exists and holds a truncated text. *)
Definition corrupt_env : Env :=
  test_env "/r" [] [ ("/home/u/.local-search/index.json", (mkStats 12 0, "{ version: 1")) ].

(** ** The prototype chain *)

(** The dictionaries of the engine are plain objects, and a plain object
    inherits the properties of [Object.prototype].  Two of these have names
    that can be tokens, [constructor] and [__proto__]; the names of the others
    hold a capital letter.  [addDocument] reads and writes [wordCounts],
    [invertedIndex] and [docFreq] under the tokens of the content, so for these
    two tokens it goes through the prototype chain.  This is [addDocument]
    with that spelled out.  Its state is the index together with the names of
    the properties the engine has put on the function [Object], which is what
    [invertedIndex.constructor] is read as.  These names are document paths;
    a path is absolute and names no property that [Object] has from the
    start. *)
Module Inherited.

(** [wordCounts], built from [{}]: the numbers counted for the other
    tokens, and whether [constructor] has become an own property.  Its value
    is then a string: the first read finds the inherited function [Object],
    and [Object + 1], like the sums after it, is a string. *)
Record WordCounts : Type := mkWordCounts {
  numbers : gmap string Z;
  constructor_text : bool
}.

(** [wordCounts[token] = (wordCounts[token] || 0) + 1].  For [__proto__] the
    read gives [Object.prototype], the sum is a string, and the inherited
    setter drops a string: no own property is made. *)
Definition count_token (wordCounts : WordCounts) (token : string) : WordCounts :=
  if (token =? "__proto__")%string then wordCounts
  else if (token =? "constructor")%string then mkWordCounts (numbers wordCounts) true
  else
    mkWordCounts
      (<[token := (default 0 (numbers wordCounts !! token) + 1)%Z]> (numbers wordCounts))
      (constructor_text wordCounts).

Definition count_words (tokens : list string) : WordCounts :=
  foldl count_token (mkWordCounts ∅ false) tokens.

(** [Object.keys(wordCounts).length] *)
Definition keys (wordCounts : WordCounts) : nat :=
  size (numbers wordCounts) + (if constructor_text wordCounts then 1 else 0).

(** The round of the posting loop for the entry of [constructor], whose
    count is a string.  [invertedIndex[word]] is the function [Object] unless
    the index has an own posting map of that name, so the map is not made;
    [Object[filePath]] is set only where the engine has set it; [docFreq[word]++]
    stores [NaN] for a [docFreq] without the own property, the inherited
    function being no number; and the count goes to [Object[filePath]].  An
    own posting map for [constructor], which only a hand-written index file
    has, would take the string as a count: posting maps hold numbers here,
    and the answer is [None]. *)
Definition add_constructor (filePath : string) (st : Index * gset string)
    : option (Index * gset string) :=
  let '(idx, globals) := st in
  match invertedIndex idx !! "constructor" with
  | Some _ => None
  | None =>
      let idx1 :=
        if bool_decide (filePath ∈ globals) then idx
        else set_docFreq <["constructor" := incr (docFreq idx !! "constructor")]> idx in
      Some (idx1, ({[ filePath ]} ∪ globals))
  end.

(** [addDocument(filePath, filename, content, modified, extension)].  The
    rounds of the posting loop touch distinct words; the one for
    [constructor] is taken last. *)
Definition addDocument (filePath filename content : string) (modified : Z)
    (extension : string) (st : Index * gset string) : option (Index * gset string) :=
  let '(idx, globals) := st in
  let tokens := tokenize content in
  let wordCounts := count_words tokens in
  let doc :=
    {| Doc.filename := filename;
       Doc.content := substring 0 10000 content;
       Doc.modified := modified;
       Doc.size := Z.of_nat (String.length content);
       Doc.extension := extension;
       Doc.wordCount := Z.of_nat (List.length tokens);
       Doc.uniqueWords := Z.of_nat (keys wordCounts) |} in
  let idx1 := set_documents <[filePath := doc]> idx in
  let idx2 := foldl (add_posting filePath) idx1 (map_to_list (numbers wordCounts)) in
  '(idx3, globals3) ←
    (if constructor_text wordCounts then add_constructor filePath (idx2, globals)
     else Some (idx2, globals));
  Some (set_totalDocs (λ n, n + 1)%Z idx3, globals3).

End Inherited.

(** ** More of the engine, and the vocabulary of its properties *)

(** How often [T] occurs among the tokens. *)
Definition occurrences (T : string) (tokens : list string) : Z :=
  Z.of_nat (List.length (filter (λ t, t = T) tokens)).

(** Every posting belongs to a stored document. *)
Definition postings_known (idx : Index) : Prop :=
  ∀ T D c, posting idx T D = Some c → is_Some (documents idx !! D).

(** A posting counts at least one occurrence and at most all the words of
    its document. *)
Definition counts_bounded (idx : Index) : Prop :=
  ∀ T D c doc, posting idx T D = Some c → documents idx !! D = Some doc →
    (1 <= c <= Doc.wordCount doc)%Z.

(** The postings fit the documents. *)
Definition postings_sound (idx : Index) : Prop :=
  postings_ok idx ∧ postings_known idx ∧ counts_bounded idx.

(** Results in the order of their scores, the highest first. *)
Fixpoint descending (results : list Result) : Prop :=
  match results with
  | [] => True
  | r :: rest => Forall (λ b, (score b <= score r)%R) rest ∧ descending rest
  end.

(** The document at [p] is stored, passes the extension filter and has a
    posting for one of the tokens. *)
Definition matches (idx : Index) (extensions tokens : list string) (p : string) : Prop :=
  ∃ doc token c,
    documents idx !! p = Some doc
    ∧ (extensions = [] ∨ Doc.extension doc ∈ extensions)
    ∧ token ∈ tokens
    ∧ posting idx token p = Some c.

(** What the scoring loops keep true of [candidateScores], for the tokens
    seen so far. *)
Definition candidates_sound (idx : Index) (extensions tokens : list string)
    (scores : list (string * R)) : Prop :=
  NoDup scores.*1 ∧ ∀ p, p ∈ scores.*1 → matches idx extensions tokens p.

(** Every candidate has a positive score. *)
Definition scores_positive (scores : list (string * R)) : Prop :=
  ∀ p s, (p, s) ∈ scores → (0 < s)%R.

(** ** What a run leaves of a document *)

(** The record and the postings of [q] are in [b] what they are in [a]. *)
Definition kept (a b : Index) (q : string) : Prop :=
  documents b !! q = documents a !! q ∧ ∀ T, posting b T q = posting a T q.

(** Nothing of [q] is in the index. *)
Definition absent (idx : Index) (q : string) : Prop :=
  documents idx !! q = None ∧ ∀ T, posting idx T q = None.

(** [q] is indexed as the file system has it now: the record is the one
    [addDocument] builds from what [statSync] and [readFileSync] answer,
    and the postings count the tokens of that content. *)
Definition fresh (env : Env) (idx : Index) (q : string) : Prop :=
  ∃ stats content filename,
    statSync env q = Some stats ∧ readFileSync env q = Some content
    ∧ documents idx !! q =
        Some (Doc.make filename (substring 0 10000 content) (st_mtime stats)
                (Z.of_nat (String.length content)) (extension_of env q)
                (Z.of_nat (List.length (tokenize content)))
                (Z.of_nat (size (count_words (tokenize content)))))
    ∧ ∀ T, posting idx T q =
           if decide (T ∈ tokenize content)
           then Some (occurrences T (tokenize content)) else None.

(** The file of a stored document can be read and carries another
    modification time than the record. *)
Definition changed_on_disk (env : Env) (q : string) (doc : Document) : bool :=
  match statSync env q, readFileSync env q with
  | Some stats, Some _ => negb (st_mtime stats =? Doc.modified doc)%Z
  | _, _ => false
  end.

(** What [update] is to leave of the stored document [doc] at [q]. *)
Definition updated (env : Env) (a b : Index) (q : string) (doc : Document) : Prop :=
  if existsSync env q then
    if changed_on_disk env q doc then fresh env b q else kept a b q
  else absent b q.

(** [update] has nothing to do for the stored document [doc] at [q]. *)
Definition settled (env : Env) (q : string) (doc : Document) : Prop :=
  existsSync env q = true ∧ changed_on_disk env q doc = false.

(** [indexDirectory] has indexed [q] from what the file system holds: it
    is [fresh], no pattern ignores it, it has no binary extension and it is
    not oversized. *)
Definition crawled (env : Env) (patterns : list string) (dirPath : string)
    (idx : Index) (q : string) : Prop :=
  fresh env idx q
  ∧ ignores patterns (path_relative env dirPath q) = false
  ∧ isBinaryFile env q = false
  ∧ ∀ stats, statSync env q = Some stats → (st_size stats <= MAX_FILE_SIZE)%Z.

(** Every record of [b] is the one of [a] or carries the modification
    time of a file that can be read. *)
Definition current (env : Env) (a b : Index) : Prop :=
  ∀ q, documents b !! q = documents a !! q
       ∨ ∃ stats content doc,
           statSync env q = Some stats ∧ readFileSync env q = Some content
           ∧ documents b !! q = Some doc ∧ Doc.modified doc = st_mtime stats.

(** The state a second walk reaches from [st2], over the index [idx] that
    it leaves alone, when the first walk went from [st] to [st']: the same
    files are counted as binary or ignored, none is indexed. *)
Definition replay (st st' st2 : Crawl) (idx : Index) : Crawl :=
  mkCrawl idx (filesIndexed st2)
    (binaryFiles st2 + (binaryFiles st' - binaryFiles st))
    (ignoredFiles st2 + (ignoredFiles st' - ignoredFiles st)).

Definition replayed (w : walked) (st st2 : Crawl) (idx : Index) : walked :=
  match w with
  | Finished st' => Finished (replay st st' st2 idx)
  | Aborted st' => Aborted (replay st st' st2 idx)
  end.

(** The state of the crawl of [dirPath] that started from the index [idx0]. *)
Definition crawl_inv (env : Env) (patterns : list string) (dirPath : string)
    (idx0 : Index) (st : Crawl) : Prop :=
  postings_sound (crawl_index st)
  ∧ (∀ q, kept idx0 (crawl_index st) q ∨ crawled env patterns dirPath (crawl_index st) q)
  ∧ (0 <= filesIndexed st)%Z ∧ (0 <= binaryFiles st)%Z ∧ (0 <= ignoredFiles st)%Z
  ∧ (totalDocs idx0 <= totalDocs (crawl_index st) <= totalDocs idx0 + filesIndexed st)%Z.

(** The environment of a later call: the file system answers as in [env],
    the clock readings and the outcome of writing the index are others. *)
Definition later (env : Env) (write : string → string → bool)
    (start : Z) (iso : string) (end_ : Z) : Env :=
  mkEnv (homedir env) (path_join env) (path_relative env) (path_extname env)
    (path_basename env) (existsSync env) (statSync env) (readFileSync env)
    (readdirSync env) write (JSON_parse env) (JSON_stringify env) start iso end_.

(** ** Shapes of strings *)

(** No white space other than single spaces: with [in_space] set, the
    string also does not begin with one. *)
Fixpoint collapsed (in_space : bool) (s : string) : bool :=
  match s with
  | EmptyString => true
  | String c s' =>
      if is_space c then (c =? " ")%char && negb in_space && collapsed true s'
      else collapsed false s'
  end.

(** White space is single spaces, and none at either end. *)
Definition normalised (s : string) : Prop :=
  collapsed false s = true ∧ trim s = s.

(** [s.includes(t)] *)
Definition includes (s t : string) : Prop := indexOf s t ≠ (-1)%Z.

(** ** The score of a document *)

(** What the posting of [token] for [p] adds to the score of [p]: the
    share of the document's tokens that are [token], times the weight of
    the term. *)
Definition contribution (idx : Index) (token p : string) : R :=
  match invertedIndex idx !! token, docFreq idx !! token, documents idx !! p with
  | Some docs, Some (Int d), Some doc =>
      match docs !! p with
      | Some c => (IZR c / IZR (Doc.wordCount doc) * idf_value (totalDocs idx) d)%R
      | None => 0%R
      end
  | _, _, _ => 0%R
  end.

(** The sum over the query tokens, in their order; a token that the query
    repeats counts each time. *)
Definition tfidf (idx : Index) (tokens : list string) (p : string) : R :=
  foldl (λ acc token, (acc + contribution idx token p)%R) 0%R tokens.

(** The score entered for [p], [0] when there is none. *)
Fixpoint score_at (scores : list (string * R)) (p : string) : R :=
  match scores with
  | [] => 0%R
  | (q, s) :: rest => if decide (q = p) then s else score_at rest p
  end.

(** ** [getStats] *)

Record StatsReport : Type := mkStatsReport {
  docCount : Z;
  indexSizeMB : R;
  stats_lastUpdated : string
}.

(** [this.index.lastUpdated || 'Never']: [null] and the empty string are
    falsy. *)
Definition lastUpdated_or_never (idx : Index) : string :=
  match lastUpdated idx with
  | Some s => if (s =? EmptyString)%string then "Never" else s
  | None => "Never"
  end.

(** [getStats()]; [None] when [statSync] throws. *)
Definition getStats (env : Env) (idx : Index) : option StatsReport :=
  let docCount := Z.of_nat (size (documents idx)) in
  indexSize ←
    (if existsSync env (INDEX_PATH env) then st_size <$> statSync env (INDEX_PATH env)
     else Some 0%Z);
  Some (mkStatsReport docCount (IZR indexSize / IZR (1024 * 1024))%R
          (lastUpdated_or_never idx)).

(** Every stored extension is in lower case. *)
Definition extensions_lower (idx : Index) : Prop :=
  ∀ p doc, documents idx !! p = Some doc →
    toLowerCase (Doc.extension doc) = Doc.extension doc.

(** A code unit of ASCII. *)
Definition is_ascii (c : ascii) : bool := (code c <? 128)%N.

(** ** More concrete data *)

(** One document whose file [sample_env] does not hold. *)
Definition stale_index : Index :=
  addDocument "/r/old.txt" "old.txt" "pear plum" 0 "txt" createEmptyIndex.

(** [/r] holds one file and a [.gitignore] with a comment, a directory
    pattern, a blank line and a glob. *)
Definition ignoring_env : Env :=
  test_env "/r" [ FileEntry "a.txt" ]
    [ ("/r/a.txt", (mkStats 18 1, "apple banana apple"));
      ("/r/.gitignore", (mkStats 30 1,
         "# build output" ++ String "010" ("out/" ++ String "010" (String "010" "*.tmp")))) ].

(** * Properties *)

Local Arguments remove_posting : simpl never.
Local Arguments add_posting : simpl never.

(** ** The code on small inputs *)

Example split_pieces : split_ws " a  b " = [""; "a"; "b"; ""].
Proof. reflexivity. Qed.

Example tokenize_sentence :
  tokenize "Apple banana,  apple! a x_1 " = ["apple"; "banana"; "apple"; "x_1"].
Proof. vm_compute. reflexivity. Qed.

Example ignores_defaults :
  ignores DEFAULT_PATTERNS "node_modules/" = true
  ∧ ignores DEFAULT_PATTERNS "debug.log" = true
  ∧ ignores DEFAULT_PATTERNS ".env.local" = false
  ∧ ignores DEFAULT_PATTERNS "src/main.js" = false.
Proof. repeat split; vm_compute; reflexivity. Qed.

Example preview_collapses_white_space :
  extractPreview "Hello   World, hello" ["world"] = "Hello World, hello".
Proof. vm_compute. reflexivity. Qed.

Example crawl_counters :
  match indexDirectory sample_env "/r" false createEmptyIndex with
  | Returned idx report =>
      report = mkIndexReport 2 0 0 5
      ∧ totalDocs idx = 2%Z
      ∧ docFreq idx !! "banana" = Some (Int 2)
  | Thrown _ => False
  end.
Proof. vm_compute. repeat split; reflexivity. Qed.

Example update_after_deletion :
  match update oversized_env (index_of (indexDirectory sample_env "/r" false createEmptyIndex)) with
  | Returned idx report =>
      report = mkUpdateReport 0 2 0
      ∧ idx = set_lastUpdated (Some "2026-02-16T00:00:00.000Z") createEmptyIndex
  | Thrown _ => False
  end.
Proof. vm_compute. split; reflexivity. Qed.

(** ** Tokenizer *)

(** The empty pieces that [split] leaves next to a separator do not pass the
    length filter, so it makes no difference whether they are emitted. *)
Lemma flush_filter cur :
  filter (λ w, length_ok w = true) (flush cur) = filter (λ w, length_ok w = true) [cur].
Proof. destruct cur; reflexivity. Qed.

Lemma word_not_space c : is_word_char c = true → is_space c = false.
Proof.
  destruct c as [[] [] [] [] [] [] [] []]; vm_compute; congruence.
Qed.

Lemma filter_ok_empty : filter (λ w, length_ok w = true) [EmptyString] = [].
Proof. reflexivity. Qed.

Lemma filter_ok_cons cur l :
  filter (λ w, length_ok w = true) (cur :: l) =
  (filter (λ w, length_ok w = true) [cur] ++ filter (λ w, length_ok w = true) l)%list.
Proof. rewrite !filter_cons, filter_nil. by destruct (decide _). Qed.

(** Splitting the blanked text at white space and collecting the runs of
    word characters agree on the pieces that pass the length filter. *)
Lemma split_runs s : ∀ cur b,
  (b = true → cur = EmptyString) →
  filter (λ w, length_ok w = true) (split_from cur b (map_chars blank_other s)) =
  filter (λ w, length_ok w = true) (word_runs_from cur s).
Proof.
  induction s as [|c s IH]; intros cur b Hb; simpl.
  - by rewrite flush_filter.
  - assert (Hsep : filter (λ w, length_ok w = true)
                    (if b then split_from EmptyString true (map_chars blank_other s)
                     else cur :: split_from EmptyString true (map_chars blank_other s)) =
                  filter (λ w, length_ok w = true) (flush cur ++ word_runs_from EmptyString s)%list).
    { rewrite filter_app, flush_filter. destruct b.
      - rewrite (Hb eq_refl), filter_ok_empty. simpl. by apply IH.
      - rewrite filter_ok_cons. f_equal. by apply IH. }
    unfold blank_other. destruct (is_word_char c) eqn:Hw; simpl.
    + rewrite (word_not_space _ Hw). by apply IH.
    + destruct (is_space c) eqn:Hs; simpl.
      * by rewrite Hs.
      * done.
Qed.

Lemma tokenize_runs text : tokenize text = tokenize_spec text.
Proof. unfold tokenize, tokenize_spec, split_ws, word_runs. by apply split_runs. Qed.

Lemma append_nil t : (EmptyString ++ t)%string = t.
Proof. reflexivity. Qed.

Lemma append_cons d s t : (String d s ++ t)%string = String d (s ++ t).
Proof. reflexivity. Qed.

Lemma app_snoc s c t : (snoc s c ++ t = s ++ String c t)%string.
Proof.
  induction s as [|d s IH]; simpl; [done|].
  by rewrite !append_cons, IH.
Qed.

Lemma app_empty_r s : (s ++ EmptyString)%string = s.
Proof. induction s as [|d s IH]; [done | by rewrite append_cons, IH]. Qed.

Lemma all_chars_nil P : all_chars P EmptyString.
Proof. constructor. Qed.

Lemma all_chars_cons P c s : all_chars P (String c s) ↔ P c = true ∧ all_chars P s.
Proof.
  unfold all_chars; simpl. split.
  - intros H. by inversion H.
  - intros [Hc Hs]. by constructor.
Qed.

Lemma all_chars_String P c s : P c = true → all_chars P s → all_chars P (String c s).
Proof. intros. by apply all_chars_cons. Qed.

Lemma all_chars_snoc P s c : all_chars P s → P c = true → all_chars P (snoc s c).
Proof.
  induction s as [|d s IH]; simpl; intros Hs Hc.
  - apply all_chars_String; [done | apply all_chars_nil].
  - apply all_chars_cons in Hs as [Hd Hs]. apply all_chars_String; auto.
Qed.



Lemma word_runs_from_run run : ∀ cur rest,
  all_chars is_word_char run →
  word_runs_from cur (run ++ rest) = word_runs_from (cur ++ run) rest.
Proof.
  induction run as [|c run IH]; intros cur rest Hrun; simpl.
  - by rewrite app_empty_r.
  - apply all_chars_cons in Hrun as [Hc Hrun]. rewrite Hc.
    rewrite IH by done. by rewrite app_snoc.
Qed.




(** ** Index invariants *)

(** The invariant, term by term. *)
Lemma docFreq_consistent_pointwise idx :
  docFreq_consistent idx ↔ ∀ T, inv_at idx T.
Proof.
  unfold docFreq_consistent, inv_at. split.
  - intros [Hdom Hcount] T. destruct (invertedIndex idx !! T) as [docs|] eqn:HT; simpl.
    + by apply Hcount.
    + apply not_elem_of_dom. rewrite Hdom. by apply not_elem_of_dom.
  - intros H. split.
    + apply set_eq. intros T. rewrite !elem_of_dom, H.
      destruct (invertedIndex idx !! T); simpl; split; intros [? ?]; eauto; done.
    + intros T docs HT. by rewrite H, HT.
Qed.

Lemma truthy_Some_nonzero (docs : gmap string Z) D :
  (∀ c, docs !! D = Some c → c ≠ 0%Z) →
  truthy (docs !! D) = bool_decide (is_Some (docs !! D)).
Proof.
  intros H. destruct (docs !! D) as [c|] eqn:HD; simpl.
  - specialize (H c eq_refl). apply Z.eqb_neq in H. by rewrite H.
  - done.
Qed.

Lemma add_posting_invertedIndex filePath idx w c :
  invertedIndex (add_posting filePath idx (w, c)) =
  <[w := <[filePath := c]> (default ∅ (invertedIndex idx !! w))]> (invertedIndex idx).
Proof.
  unfold add_posting. destruct (invertedIndex idx !! w) as [docs|] eqn:Hw; simpl.
  - rewrite Hw. simpl. by destruct (truthy _).
  - rewrite lookup_insert_eq. simpl. destruct (truthy _); simpl; by rewrite insert_insert_eq.
Qed.

Lemma add_posting_counts_nonzero filePath idx word count :
  count ≠ 0%Z → counts_nonzero idx → counts_nonzero (add_posting filePath idx (word, count)).
Proof.
  intros Hc Hnz T docs D c. rewrite add_posting_invertedIndex.
  destruct (decide (T = word)) as [->|Hne].
  - rewrite lookup_insert_eq. intros [= <-].
    destruct (decide (D = filePath)) as [->|HneD].
    + rewrite lookup_insert_eq. by intros [= <-].
    + rewrite lookup_insert_ne by done.
      destruct (invertedIndex idx !! word) as [docs|] eqn:Hw; simpl.
      * by apply (Hnz word docs).
      * by rewrite lookup_empty.
  - rewrite lookup_insert_ne by done. apply Hnz.
Qed.

(** One round of the posting loop of [addDocument] keeps [docFreq] in step
    with the posting maps, as long as no stored count is falsy. *)
Lemma add_posting_ok filePath idx word count :
  count ≠ 0%Z → postings_ok idx → postings_ok (add_posting filePath idx (word, count)).
Proof.
  intros Hc [Hdf Hnz]. split; [|by apply add_posting_counts_nonzero].
  rewrite docFreq_consistent_pointwise in Hdf |- *.
  intros T. unfold inv_at. rewrite add_posting_invertedIndex.
  pose proof (Hdf word) as Hw. unfold inv_at in Hw.
  destruct (decide (T = word)) as [->|Hne].
  - rewrite lookup_insert_eq. unfold add_posting, posting_count.
    destruct (invertedIndex idx !! word) as [docs|] eqn:Hdocs; simpl in *.
    + rewrite Hdocs. simpl. rewrite (truthy_Some_nonzero docs filePath) by eauto.
      destruct (docs !! filePath) as [c|] eqn:HD.
      * rewrite bool_decide_eq_true_2 by eauto. simpl.
        by rewrite Hw, map_size_insert_Some.
      * rewrite bool_decide_eq_false_2 by (by intros [? ?]). simpl.
        rewrite lookup_insert_eq, Hw, map_size_insert_None by done.
        simpl. do 2 f_equal. lia.
    + rewrite lookup_insert_eq. simpl. rewrite lookup_empty. simpl.
      rewrite !lookup_insert_eq. simpl.
      by rewrite map_size_insert_None, map_size_empty by apply lookup_empty.
  - rewrite lookup_insert_ne by done. rewrite <- (Hdf T). unfold add_posting.
    destruct (invertedIndex idx !! word); simpl; destruct (truthy _); simpl;
      by rewrite ?lookup_insert_ne.
Qed.

Lemma count_token_pos wc token :
  (∀ w c, wc !! w = Some c → (0 < c)%Z) →
  ∀ w c, count_token wc token !! w = Some c → (0 < c)%Z.
Proof.
  intros H w c. unfold count_token. destruct (decide (w = token)) as [->|Hne].
  - rewrite lookup_insert_eq. intros [= <-].
    destruct (wc !! token) as [c0|] eqn:Hc0; simpl; [|lia].
    specialize (H _ _ Hc0). lia.
  - rewrite lookup_insert_ne by done. apply H.
Qed.

Lemma count_words_pos tokens w c : count_words tokens !! w = Some c → (0 < c)%Z.
Proof.
  unfold count_words.
  assert (Hgen : ∀ wc, (∀ w c, wc !! w = Some c → (0 < c)%Z) →
                 ∀ w c, foldl count_token wc tokens !! w = Some c → (0 < c)%Z).
  { induction tokens as [|t tokens IH]; intros wc Hwc; simpl; [done|].
    apply IH. by apply count_token_pos. }
  apply Hgen. intros w' c'. by rewrite lookup_empty.
Qed.

Lemma add_postings_ok filePath (l : list (string * Z)) : ∀ idx,
  Forall (λ e, e.2 ≠ 0%Z) l →
  postings_ok idx → postings_ok (foldl (add_posting filePath) idx l).
Proof.
  induction l as [|[w c] l IH]; intros idx Hl Hidx; simpl; [done|].
  inversion Hl; subst. apply IH; [done|]. by apply add_posting_ok.
Qed.

Lemma postings_ok_ext idx idx' :
  invertedIndex idx' = invertedIndex idx → docFreq idx' = docFreq idx →
  postings_ok idx → postings_ok idx'.
Proof.
  unfold postings_ok, docFreq_consistent, counts_nonzero.
  by intros -> ->.
Qed.

Lemma addDocument_postings_ok filePath filename content modified extension idx :
  postings_ok idx → postings_ok (addDocument filePath filename content modified extension idx).
Proof.
  intros Hidx. unfold addDocument.
  eapply postings_ok_ext; [reflexivity | reflexivity |].
  apply add_postings_ok.
  - apply Forall_forall. intros [w c] Hin. simpl.
    apply elem_of_map_to_list in Hin. apply count_words_pos in Hin. lia.
  - eapply postings_ok_ext; [| | exact Hidx]; reflexivity.
Qed.

Lemma remove_posting_skip f idx w docs :
  truthy (docs !! f) = false → remove_posting f idx (w, docs) = idx.
Proof. unfold remove_posting. by intros ->. Qed.

Lemma remove_posting_frame f idx w docs :
  documents (remove_posting f idx (w, docs)) = documents idx
  ∧ totalDocs (remove_posting f idx (w, docs)) = totalDocs idx
  ∧ version (remove_posting f idx (w, docs)) = version idx
  ∧ lastUpdated (remove_posting f idx (w, docs)) = lastUpdated idx
  ∧ ∀ T, T ≠ w →
      invertedIndex (remove_posting f idx (w, docs)) !! T = invertedIndex idx !! T
      ∧ docFreq (remove_posting f idx (w, docs)) !! T = docFreq idx !! T.
Proof.
  unfold remove_posting. destruct (truthy (docs !! f)); [|done].
  destruct (leq0 _); simpl; repeat split; try done.
  all: intros; rewrite ?lookup_delete_ne, ?lookup_insert_ne by done; done.
Qed.

(** One round of the posting loop of [removeDocument], at its own word:
    the posting of [f] goes, the others stay, and the word is dropped from
    both dictionaries exactly when no posting is left. *)
Lemma remove_posting_word f idx w docs :
  postings_ok idx → invertedIndex idx !! w = Some docs →
  let idx' := remove_posting f idx (w, docs) in
  docFreq idx' !! w = posting_count <$> invertedIndex idx' !! w
  ∧ (∀ D, posting idx' w D = if decide (D = f) then None else docs !! D)
  ∧ (docs ≠ ∅ → ∀ docs', invertedIndex idx' !! w = Some docs' → docs' ≠ ∅).
Proof.
  intros [Hdf Hnz] Hw. destruct Hdf as [_ Hcount].
  pose proof (Hcount _ _ Hw) as Hfreq.
  unfold remove_posting, posting.
  destruct (docs !! f) as [c|] eqn:Hf; simpl.
  - assert (c ≠ 0%Z) as Hc by eauto. apply Z.eqb_neq in Hc. rewrite Hc. simpl.
    rewrite Hfreq. simpl. rewrite lookup_insert_eq. simpl.
    assert (Hsize : (Z.of_nat (size docs) - 1)%Z = Z.of_nat (size (delete f docs))).
    { rewrite map_size_delete_Some by eauto.
      assert (size docs ≠ 0) by (apply map_size_non_empty_iff; intros ->; by rewrite lookup_empty in Hf).
      lia. }
    destruct (Z.of_nat (size docs) - 1 <=? 0)%Z eqn:Hle; simpl.
    + rewrite !lookup_delete_eq. simpl. split; [done|]. split; [|done].
      intros D. case_decide; [done|].
      apply Z.leb_le in Hle. assert (size (delete f docs) = 0) as Hz by lia.
      apply map_size_empty_iff in Hz.
      rewrite <- (lookup_delete_ne docs f D) by done. by rewrite Hz, lookup_empty.
    + rewrite !lookup_insert_eq. simpl. unfold posting_count. rewrite Hsize.
      split; [done|]. split.
      * intros D. case_decide as HD; [subst; apply lookup_delete_eq|].
        by rewrite lookup_delete_ne.
      * intros _ docs' [= <-]. apply map_size_non_empty_iff.
        apply Z.leb_gt in Hle. lia.
  - rewrite Hw, Hfreq. simpl. split; [done|]. split.
    + intros D. case_decide; by subst.
    + by intros Hne docs' [= <-].
Qed.

Lemma posting_Some idx T docs D :
  invertedIndex idx !! T = Some docs → posting idx T D = docs !! D.
Proof. unfold posting. by intros ->. Qed.

Lemma counts_nonzero_posting idx :
  counts_nonzero idx ↔ ∀ T D, posting idx T D ≠ Some 0%Z.
Proof.
  unfold counts_nonzero, posting. split.
  - intros H T D. destruct (invertedIndex idx !! T) as [docs|] eqn:HT; simpl; [|done].
    intros HD. by apply (H _ _ _ _ HT HD).
  - intros H T docs D c HT HD ->. apply (H T D). by rewrite HT.
Qed.

Lemma remove_posting_ok f idx w docs :
  postings_ok idx → invertedIndex idx !! w = Some docs →
  postings_ok (remove_posting f idx (w, docs)).
Proof.
  intros Hok Hw.
  destruct (remove_posting_word f idx w docs Hok Hw) as (Hfreq & Hpost & _).
  destruct (remove_posting_frame f idx w docs) as (_ & _ & _ & _ & Hframe).
  destruct Hok as [Hdf Hnz]. split.
  - apply docFreq_consistent_pointwise. intros T. unfold inv_at.
    destruct (decide (T = w)) as [->|Hne]; [done|].
    destruct (Hframe T Hne) as [-> ->].
    by apply docFreq_consistent_pointwise.
  - apply counts_nonzero_posting. intros T D.
    destruct (decide (T = w)) as [->|Hne].
    + rewrite Hpost. case_decide; [done|]. intros HD. by apply (Hnz w docs D 0%Z).
    + unfold posting. destruct (Hframe T Hne) as [-> _].
      by apply counts_nonzero_posting.
Qed.

(** The loop of [removeDocument] over a list of entries of the inverted
    index that are still in place. *)
Lemma remove_postings_spec f (l : list (string * gmap string Z)) : ∀ idx,
  NoDup l.*1 →
  (∀ w docs, (w, docs) ∈ l → invertedIndex idx !! w = Some docs) →
  postings_ok idx →
  let idx' := foldl (remove_posting f) idx l in
  postings_ok idx'
  ∧ documents idx' = documents idx
  ∧ totalDocs idx' = totalDocs idx
  ∧ (∀ T, T ∉ l.*1 → invertedIndex idx' !! T = invertedIndex idx !! T
                      ∧ docFreq idx' !! T = docFreq idx !! T)
  ∧ (∀ T D, T ∈ l.*1 →
       posting idx' T D = if decide (D = f) then None else posting idx T D)
  ∧ (no_empty_postings idx → no_empty_postings idx').
Proof.
  induction l as [|[w docs] l IH]; intros idx Hnd Hl Hok; cbv zeta; simpl.
  - do 4 (split; [done|]). split; [|done].
    intros T D HT. by apply elem_of_nil in HT.
  - simpl in Hnd. apply NoDup_cons in Hnd as [Hw Hnd].
    assert (Hwd : invertedIndex idx !! w = Some docs) by (apply Hl; left).
    pose proof (remove_posting_ok f idx w docs Hok Hwd) as Hok1.
    destruct (remove_posting_word f idx w docs Hok Hwd) as (_ & Hpost & Hne1).
    destruct (remove_posting_frame f idx w docs) as (Hd1 & Ht1 & _ & _ & Hframe).
    set (idx1 := remove_posting f idx (w, docs)) in *.
    specialize (IH idx1 Hnd). cbv zeta in IH.
    destruct IH as (Hok' & Hd' & Ht' & Hout & Hin & Hne'); [|done|].
    { intros w' docs' Hin'. destruct (decide (w' = w)) as [->|Hneq].
      - exfalso. apply Hw. apply list_elem_of_fmap. by exists (w, docs').
      - destruct (Hframe w' Hneq) as [-> _]. apply Hl. by right. }
    split; [done|]. split; [congruence|]. split; [congruence|]. split; [|split].
    + intros T HT. apply not_elem_of_cons in HT as [HTw HT].
      destruct (Hout T HT) as [-> ->]. by apply Hframe.
    + intros T D HT. apply elem_of_cons in HT as [->|HT].
      * unfold posting at 1. destruct (Hout w Hw) as [-> _].
        fold (posting idx1 w D). rewrite Hpost. by rewrite (posting_Some idx w docs).
      * rewrite (Hin T D HT). assert (T ≠ w) by (by intros ->).
        unfold posting. by destruct (Hframe T) as [-> _].
    + intros Hne. apply Hne'. intros T docs' HT.
      destruct (decide (T = w)) as [->|Hneq].
      * eapply Hne1; [|done]. by apply (Hne w).
      * destruct (Hframe T Hneq) as [HTeq _]. rewrite HTeq in HT. by apply (Hne T).
Qed.

Lemma add_posting_frame filePath idx e :
  documents (add_posting filePath idx e) = documents idx
  ∧ totalDocs (add_posting filePath idx e) = totalDocs idx.
Proof.
  destruct e as [w c]. unfold add_posting.
  destruct (invertedIndex idx !! w); simpl; destruct (truthy _); done.
Qed.

Lemma add_postings_frame filePath (l : list (string * Z)) : ∀ idx,
  documents (foldl (add_posting filePath) idx l) = documents idx
  ∧ totalDocs (foldl (add_posting filePath) idx l) = totalDocs idx.
Proof.
  induction l as [|e l IH]; intros idx; simpl; [done|].
  destruct (IH (add_posting filePath idx e)) as [-> ->]. apply add_posting_frame.
Qed.

Lemma add_posting_no_empty filePath idx e :
  no_empty_postings idx → no_empty_postings (add_posting filePath idx e).
Proof.
  destruct e as [w c]. intros Hne T docs.
  rewrite add_posting_invertedIndex.
  destruct (decide (T = w)) as [->|Hneq].
  - rewrite lookup_insert_eq. intros [= <-]. apply insert_non_empty.
  - rewrite lookup_insert_ne by done. apply Hne.
Qed.

Lemma add_postings_no_empty filePath (l : list (string * Z)) : ∀ idx,
  no_empty_postings idx → no_empty_postings (foldl (add_posting filePath) idx l).
Proof.
  induction l as [|e l IH]; intros idx Hne; simpl; [done|].
  by apply IH, add_posting_no_empty.
Qed.

Lemma addDocument_documents filePath filename content modified extension idx :
  ∃ doc, documents (addDocument filePath filename content modified extension idx) =
         <[filePath := doc]> (documents idx)
         ∧ Doc.modified doc = modified.
Proof.
  unfold addDocument. eexists. simpl.
  destruct (add_postings_frame filePath (map_to_list (count_words (tokenize content)))
              (set_documents <[filePath := Doc.make filename (substring 0 10000 content) modified
                 (Z.of_nat (String.length content)) extension
                 (Z.of_nat (List.length (tokenize content)))
                 (Z.of_nat (size (count_words (tokenize content))))]> idx)) as [-> _].
  simpl. split; reflexivity.
Qed.

Lemma addDocument_totalDocs filePath filename content modified extension idx :
  totalDocs (addDocument filePath filename content modified extension idx) = (totalDocs idx + 1)%Z.
Proof.
  unfold addDocument. simpl.
  by destruct (add_postings_frame filePath (map_to_list (count_words (tokenize content)))
              (set_documents <[filePath := Doc.make filename (substring 0 10000 content) modified
                 (Z.of_nat (String.length content)) extension
                 (Z.of_nat (List.length (tokenize content)))
                 (Z.of_nat (size (count_words (tokenize content))))]> idx)) as [_ ->].
Qed.

Lemma addDocument_total_ok filePath filename content modified extension idx :
  documents idx !! filePath = None →
  totalDocs_consistent idx →
  totalDocs_consistent (addDocument filePath filename content modified extension idx).
Proof.
  unfold totalDocs_consistent. intros Hnew Hidx.
  destruct (addDocument_documents filePath filename content modified extension idx) as (doc & -> & _).
  rewrite addDocument_totalDocs, map_size_insert_None by done. lia.
Qed.

Lemma addDocument_no_empty filePath filename content modified extension idx :
  no_empty_postings idx →
  no_empty_postings (addDocument filePath filename content modified extension idx).
Proof.
  intros Hne. unfold addDocument.
  assert (H : no_empty_postings (foldl (add_posting filePath)
     (set_documents <[filePath := Doc.make filename (substring 0 10000 content) modified
                 (Z.of_nat (String.length content)) extension
                 (Z.of_nat (List.length (tokenize content)))
                 (Z.of_nat (size (count_words (tokenize content))))]> idx)
     (map_to_list (count_words (tokenize content))))).
  { by apply add_postings_no_empty. }
  exact H.
Qed.

Lemma removeDocument_absent filePath idx :
  documents idx !! filePath = None → removeDocument filePath idx = idx.
Proof. unfold removeDocument. by intros ->. Qed.

(** [removeDocument] on an index whose postings are in order: they are in
    order afterwards, no posting map is left empty, and of the postings
    exactly those of [filePath] are gone. *)
Lemma removeDocument_spec filePath idx :
  postings_ok idx →
  let idx' := removeDocument filePath idx in
  postings_ok idx'
  ∧ (no_empty_postings idx → no_empty_postings idx')
  ∧ (is_Some (documents idx !! filePath) →
     ∀ T D, posting idx' T D = if decide (D = filePath) then None else posting idx T D).
Proof.
  intros Hok. cbv zeta. unfold removeDocument.
  destruct (documents idx !! filePath) as [doc|] eqn:Hdoc.
  - destruct (remove_postings_spec filePath (map_to_list (invertedIndex idx)) idx)
      as (Hok' & _ & _ & Hout & Hin & Hne); [apply NoDup_fst_map_to_list | | done |].
    { intros w docs. apply elem_of_map_to_list. }
    split; [|split].
    + eapply postings_ok_ext; [| | exact Hok']; reflexivity.
    + exact Hne.
    + intros _ T D. unfold posting at 1. simpl.
      fold (posting (foldl (remove_posting filePath) idx (map_to_list (invertedIndex idx))) T D).
      destruct (invertedIndex idx !! T) as [docs|] eqn:HT.
      * apply Hin. apply list_elem_of_fmap. exists (T, docs). split; [done|].
        by apply elem_of_map_to_list.
      * unfold posting. destruct (Hout T) as [-> _].
        { intros Hin'. apply list_elem_of_fmap in Hin' as ([T' docs] & -> & Hin').
          apply elem_of_map_to_list in Hin'. simpl in *. congruence. }
        rewrite HT. simpl. by case_decide.
  - split; [done|]. split; [done|]. by intros [? ?].
Qed.

Lemma removeDocument_documents filePath idx :
  documents (removeDocument filePath idx) = delete filePath (documents idx).
Proof.
  unfold removeDocument. destruct (documents idx !! filePath) as [doc|] eqn:Hdoc.
  - simpl. f_equal.
    assert (Hgen : ∀ l i, documents (foldl (remove_posting filePath) i l) = documents i).
    { induction l as [|[w d] l IH]; intros i; simpl; [done|].
      rewrite IH. apply remove_posting_frame. }
    apply Hgen.
  - symmetry. by apply delete_id.
Qed.

Lemma removeDocument_totalDocs filePath idx :
  totalDocs (removeDocument filePath idx) =
  match documents idx !! filePath with
  | Some _ => (totalDocs idx - 1)%Z
  | None => totalDocs idx
  end.
Proof.
  unfold removeDocument. destruct (documents idx !! filePath) as [doc|] eqn:Hdoc; [|done].
  simpl. f_equal.
  assert (Hgen : ∀ l i, totalDocs (foldl (remove_posting filePath) i l) = totalDocs i).
  { induction l as [|[w d] l IH]; intros i; simpl; [done|].
    rewrite IH. apply remove_posting_frame. }
  apply Hgen.
Qed.

Lemma removeDocument_total_ok filePath idx :
  totalDocs_consistent idx → totalDocs_consistent (removeDocument filePath idx).
Proof.
  unfold totalDocs_consistent. intros Hidx.
  rewrite removeDocument_documents, removeDocument_totalDocs.
  destruct (documents idx !! filePath) as [doc|] eqn:Hdoc.
  - rewrite map_size_delete_Some by eauto.
    assert (size (documents idx) ≠ 0).
    { apply map_size_non_empty_iff. intros Heq. by rewrite Heq, lookup_empty in Hdoc. }
    lia.
  - by rewrite map_size_delete_None.
Qed.

Lemma walkEntry_dir env patterns dirPath currentPath name listing st :
  walkEntry env patterns dirPath currentPath (DirEntry name listing) st =
  if ignores patterns (path_relative env dirPath (path_join env currentPath name) ++ "/")
  then Finished st
  else walkDir env patterns dirPath (path_join env currentPath name) listing st.
Proof.
  destruct listing as [entries|]; simpl; destruct (ignores _ _); try reflexivity.
  revert st. induction entries as [|e es IH]; intros st; [reflexivity|].
  simpl. destruct (walkEntry _ _ _ _ e st); [apply IH | reflexivity].
Qed.

(** A property of the index that [removeDocument] keeps, that [addDocument]
    keeps for a path without a record, and that does not look at
    [lastUpdated], is kept by the crawl, by [indexDirectory] and by [update],
    whether they return or throw. *)
Section Preservation.
Variable P : Index → Prop.
Hypothesis P_remove : ∀ f idx, P idx → P (removeDocument f idx).
Hypothesis P_add : ∀ f fn c m e idx,
  P idx → documents idx !! f = None → P (addDocument f fn c m e idx).
Hypothesis P_stamp : ∀ v idx, P idx → P (set_lastUpdated v idx).

Lemma replace_preserves f fn c m e idx :
  P idx → P (addDocument f fn c m e (removeDocument f idx)).
Proof.
  intros Hidx. apply P_add; [by apply P_remove|].
  rewrite removeDocument_documents. apply lookup_delete_eq.
Qed.

Lemma index_file_preserves env fullPath name st :
  P (crawl_index st) → P (crawl_index (index_file env fullPath name st)).
Proof.
  intros Hst. unfold index_file.
  destruct (statSync env fullPath) as [stats|]; [|done].
  destruct (MAX_FILE_SIZE <? st_size stats)%Z; [done|].
  destruct (documents (crawl_index st) !! fullPath) as [doc|] eqn:Hdoc.
  - destruct (Doc.modified doc =? st_mtime stats)%Z; [done|].
    destruct (readFileSync env fullPath) as [content|]; [|done].
    simpl. by apply replace_preserves.
  - destruct (readFileSync env fullPath) as [content|]; [|done].
    simpl. by apply P_add.
Qed.

Lemma visit_file_preserves env patterns dirPath currentPath name st :
  P (crawl_index st) →
  P (crawl_index (visit_file env patterns dirPath currentPath name st)).
Proof.
  intros Hst. unfold visit_file.
  destruct (ignores _ _); [done|]. destruct (isBinaryFile _ _); [done|].
  by apply index_file_preserves.
Qed.

Lemma walkEntry_preserves env patterns dirPath entry : ∀ currentPath st,
  P (crawl_index st) →
  P (crawl_index (crawl_of (walkEntry env patterns dirPath currentPath entry st))).
Proof.
  induction entry as [name | name | name | name entries IH] using Dirent_tree_ind;
    intros currentPath st Hst.
  - simpl. by apply visit_file_preserves.
  - done.
  - rewrite walkEntry_dir. by destruct (ignores _ _).
  - rewrite walkEntry_dir. destruct (ignores _ _); [done|]. simpl.
    generalize dependent st.
    induction IH as [|e es He _ IHes]; intros st Hst; simpl; [done|].
    specialize (He (path_join env currentPath name) st Hst).
    destruct (walkEntry env patterns dirPath (path_join env currentPath name) e st); simpl in *.
    + by apply IHes.
    + done.
Qed.

Lemma walkDir_preserves env patterns dirPath currentPath listing st :
  P (crawl_index st) →
  P (crawl_index (crawl_of (walkDir env patterns dirPath currentPath listing st))).
Proof.
  intros Hst. destruct listing as [entries|]; simpl; [|done].
  generalize dependent st.
  induction entries as [|e es IH]; intros st Hst; simpl; [done|].
  pose proof (walkEntry_preserves env patterns dirPath e currentPath st Hst) as He.
  destruct (walkEntry env patterns dirPath currentPath e st); simpl in *; [by apply IH | done].
Qed.

Lemma clear_directory_preserves dirPath idx : P idx → P (clear_directory dirPath idx).
Proof.
  unfold clear_directory. generalize (toRemove dirPath idx). intros l.
  revert idx. induction l as [|p l IH]; intros idx Hidx; simpl; [done|].
  by apply IH, P_remove.
Qed.

Lemma indexDirectory_preserves env dirPath force idx :
  P idx → P (index_of (indexDirectory env dirPath force idx)).
Proof.
  intros Hidx. unfold indexDirectory.
  destruct (loadIgnorePatterns env dirPath) as [patterns|]; [|done].
  set (idx1 := if force then clear_directory dirPath idx else idx).
  assert (Hidx1 : P idx1).
  { unfold idx1. destruct force; [by apply clear_directory_preserves | done]. }
  pose proof (walkDir_preserves env patterns dirPath dirPath (readdirSync env dirPath)
                (mkCrawl idx1 0 0 0) Hidx1) as Hwalk.
  destruct (walkDir _ _ _ _ _ _) as [st|st]; simpl in *; [|done].
  destruct (saveIndex env _); simpl; by apply P_stamp.
Qed.

Lemma update_entry_preserves env st entry :
  P (sweep_index st) → P (sweep_index (update_entry env st entry)).
Proof.
  intros Hst. destruct entry as [docPath doc]. unfold update_entry.
  destruct (existsSync env docPath); simpl.
  - destruct (statSync env docPath) as [stats|]; [|done].
    destruct (st_mtime stats =? Doc.modified doc)%Z; simpl; [done|].
    destruct (readFileSync env docPath) as [content|]; [|done].
    simpl. by apply replace_preserves.
  - by apply P_remove.
Qed.

Lemma update_preserves env idx : P idx → P (index_of (update env idx)).
Proof.
  intros Hidx. unfold update.
  assert (Hgen : ∀ l st, P (sweep_index st) →
                 P (sweep_index (foldl (update_entry env) st l))).
  { induction l as [|e l IH]; intros st Hst; simpl; [done|].
    by apply IH, update_entry_preserves. }
  specialize (Hgen (map_to_list (documents idx)) (mkSweep idx 0 0) Hidx).
  by destruct (saveIndex env _).
Qed.
End Preservation.

(** ** Scores *)

(** *** The weight of a term *)

Lemma idf_defined totalDocs d :
  (0 <= d <= totalDocs)%Z → idf totalDocs (Some (Int d)) = Some (idf_value totalDocs d).
Proof.
  intros H. unfold idf. rewrite decide_True; [done|]. nia.
Qed.

Lemma idf_value_ge_1 totalDocs d :
  (0 <= d <= totalDocs)%Z → (1 <= idf_value totalDocs d)%R.
Proof.
  intros H. unfold idf_value.
  assert (Hd : (0 < IZR (d + 1))%R) by (apply IZR_lt; lia).
  assert (Hle : (IZR (d + 1) <= IZR (totalDocs + 1))%R) by (apply IZR_le; lia).
  assert (Hq : (1 <= IZR (totalDocs + 1) / IZR (d + 1))%R).
  { apply (Rmult_le_reg_r (IZR (d + 1))); [done|].
    unfold Rdiv. rewrite Rmult_assoc, Rinv_l by lra. lra. }
  assert (0 <= ln (IZR (totalDocs + 1) / IZR (d + 1)))%R; [|lra].
  rewrite <- ln_1. destruct Hq as [Hlt | <-]; [|lra].
  left. apply ln_increasing; lra.
Qed.

Lemma idf_value_decreasing totalDocs d1 d2 :
  (0 <= d1 < d2)%Z → (0 <= totalDocs)%Z →
  (idf_value totalDocs d2 < idf_value totalDocs d1)%R.
Proof.
  intros H Ht. unfold idf_value.
  assert (H1 : (0 < IZR (d1 + 1))%R) by (apply IZR_lt; lia).
  assert (H2 : (IZR (d1 + 1) < IZR (d2 + 1))%R) by (apply IZR_lt; lia).
  assert (HN : (0 < IZR (totalDocs + 1))%R) by (apply IZR_lt; lia).
  apply Rplus_lt_compat_r. apply ln_increasing.
  - apply Rdiv_lt_0_compat; lra.
  - unfold Rdiv. apply Rmult_lt_compat_l; [done|].
    apply Rinv_lt_contravar; [|done]. apply Rmult_lt_0_compat; lra.
Qed.

(** *** Definedness of [search] *)

(** A query without a token of an accepted length has no result. *)
Lemma search_no_terms idx query extensions limit :
  tokenize query = [] → search idx query extensions limit = Some [].
Proof. intros H. unfold search. by rewrite H. Qed.

Lemma add_score_keys docPath v (scores : list (string * R)) p :
  p ∈ (add_score docPath v scores).*1 ↔ p = docPath ∨ p ∈ scores.*1.
Proof.
  induction scores as [|[q s] scores IH]; simpl.
  - rewrite list_elem_of_singleton. split; [by left | intros [?|H]; [done|]].
    by apply elem_of_nil in H.
  - destruct (String.eqb_spec q docPath) as [->|Hne]; simpl.
    + rewrite !elem_of_cons. tauto.
    + rewrite !elem_of_cons, IH. tauto.
Qed.

Lemma score_posting_known idx extensions weight scores entry scores' :
  score_posting idx extensions weight scores entry = Some scores' →
  candidates_known idx scores → candidates_known idx scores'.
Proof.
  destruct entry as [docPath count]. unfold score_posting.
  destruct (documents idx !! docPath) as [doc|] eqn:Hdoc; [|by intros [= <-]].
  destruct (_ && _); [by intros [= <-]|].
  destruct weight as [w|]; [|done]. simpl.
  destruct (tf count (Doc.wordCount doc)) as [t|]; [|done]. simpl.
  intros [= <-] Hknown p Hp. apply add_score_keys in Hp as [->|Hp]; eauto.
Qed.

Lemma fold_option_invariant {A B : Type} (f : A → B → option A) (I : A → Prop) (l : list B) :
  (∀ a b a', f a b = Some a' → I a → I a') →
  ∀ a a', fold_option f a l = Some a' → I a → I a'.
Proof.
  intros Hf. induction l as [|b l IH]; intros a a'; simpl.
  - by intros [= <-].
  - destruct (f a b) as [a1|] eqn:Hab; [|done]. simpl. eauto.
Qed.

Lemma score_token_known idx extensions scores token scores' :
  score_token idx extensions scores token = Some scores' →
  candidates_known idx scores → candidates_known idx scores'.
Proof.
  unfold score_token. destruct (invertedIndex idx !! token) as [docs|]; [|by intros [= <-]].
  apply fold_option_invariant. intros a b a'. apply score_posting_known.
Qed.

(** [search] answers whenever the scoring loops come through with finite
    scores. *)
Lemma search_defined idx query extensions limit candidateScores :
  fold_option (score_token idx extensions) [] (tokenize query) = Some candidateScores →
  is_Some (search idx query extensions limit).
Proof.
  intros Hfold. unfold search. destruct (List.length (tokenize query) =? 0)%nat; [eauto|].
  rewrite Hfold. simpl.
  assert (Hknown : candidates_known idx candidateScores).
  { eapply (fold_option_invariant _ (candidates_known idx)); [|exact Hfold|].
    - intros a b a'. apply score_token_known.
    - intros p Hp. by apply elem_of_nil in Hp. }
  assert (Hres : is_Some (mapM (make_result idx (tokenize query)) candidateScores)).
  { apply mapM_is_Some. apply Forall_forall. intros [p s] Hin.
    destruct (Hknown p) as [doc Hdoc].
    { apply list_elem_of_fmap. by exists (p, s). }
    unfold compose, make_result. rewrite Hdoc. by eexists. }
  destruct Hres as [results ->]. simpl. eauto.
Qed.

(** *** The two-file scenario *)

(** [known e v] replaces the closed term [e], which holds no real number,
    by its value [v]. *)
Ltac known e v := assert (e = v) as -> by (vm_compute; reflexivity).

(** The steps of the option monad and of the final sort, which leave the
    scores alone. *)
Ltac run_search :=
  cbn [fold_option mbind option_bind mret option_ret add_score mapM make_result
       sort_by_score foldr insert_by_score score List.length Nat.eqb Nat.ltb Nat.leb andb
       Doc.wordCount Doc.extension Doc.filename Doc.content].

Lemma slice_to_all (limit : Z) (l : list Result) :
  (Z.of_nat (List.length l) <= limit)%Z → slice_to limit l = l.
Proof.
  intros H. unfold slice_to. rewrite (proj2 (Z.leb_le 0 limit)) by lia.
  apply take_ge. lia.
Qed.

Lemma tf_defined count wordCount :
  wordCount ≠ 0%Z → tf count wordCount = Some (IZR count / IZR wordCount)%R.
Proof. intros H. unfold tf. by rewrite decide_False. Qed.

Lemma idf_value_all n : (0 <= n)%Z → idf_value n n = 1%R.
Proof.
  intros Hn. unfold idf_value.
  assert (IZR (n + 1) ≠ 0%R) by (apply not_0_IZR; lia).
  replace (IZR (n + 1) / IZR (n + 1))%R with 1%R by (by field).
  rewrite ln_1. lra.
Qed.

Lemma scenario_apple :
  search scenario_index "apple" [] 20 =
  Some [mkResult "a.txt" "a.txt" (2 / 3 * (ln (3 / 2) + 1))%R "apple banana apple"].
Proof.
  unfold search. known (tokenize "apple") ["apple"]. run_search.
  unfold score_token.
  assert (Hdocs : map_to_list <$> invertedIndex scenario_index !! "apple" =
            Some [("a.txt", 2%Z)]) by (vm_compute; reflexivity).
  destruct (invertedIndex scenario_index !! "apple") as [docs|]; [|discriminate].
  injection Hdocs as ->.
  known (totalDocs scenario_index) 2%Z.
  known (docFreq scenario_index !! "apple") (Some (Int 1)).
  rewrite idf_defined by lia. run_search. unfold score_posting.
  assert (Hdoc : documents scenario_index !! "a.txt" =
            Some (Doc.make "a.txt" "apple banana apple" 0 18 "txt" 3 2))
    by (vm_compute; reflexivity).
  rewrite Hdoc. run_search. rewrite tf_defined by lia. run_search.
  rewrite Hdoc. run_search.
  known (extractPreview "apple banana apple" ["apple"]) "apple banana apple".
  rewrite slice_to_all by (cbn [List.length]; lia).
  do 3 f_equal. unfold idf_value.
  change (2 + 1)%Z with 3%Z. change (1 + 1)%Z with 2%Z. lra.
Qed.

Lemma scenario_banana :
  search scenario_index "banana" [] 20 =
  Some [mkResult "b.txt" "b.txt" (1 / 2)%R "banana cherry";
        mkResult "a.txt" "a.txt" (1 / 3)%R "apple banana apple"].
Proof.
  unfold search. known (tokenize "banana") ["banana"]. run_search.
  unfold score_token.
  assert (Hdocs : map_to_list <$> invertedIndex scenario_index !! "banana" =
            Some [("a.txt", 1%Z); ("b.txt", 1%Z)]) by (vm_compute; reflexivity).
  destruct (invertedIndex scenario_index !! "banana") as [docs|]; [|discriminate].
  injection Hdocs as ->.
  known (totalDocs scenario_index) 2%Z.
  known (docFreq scenario_index !! "banana") (Some (Int 2)).
  rewrite idf_defined, idf_value_all by lia. run_search. unfold score_posting.
  assert (Hdoc_a : documents scenario_index !! "a.txt" =
            Some (Doc.make "a.txt" "apple banana apple" 0 18 "txt" 3 2))
    by (vm_compute; reflexivity).
  assert (Hdoc_b : documents scenario_index !! "b.txt" =
            Some (Doc.make "b.txt" "banana cherry" 0 13 "txt" 2 2))
    by (vm_compute; reflexivity).
  rewrite Hdoc_a, Hdoc_b. run_search. rewrite !tf_defined by lia. run_search.
  known ("a.txt" =? "b.txt")%string false. run_search.
  rewrite Hdoc_a, Hdoc_b. run_search.
  known (extractPreview "apple banana apple" ["banana"]) "apple banana apple".
  known (extractPreview "banana cherry" ["banana"]) "banana cherry".
  replace (0 + 1 / 3 * 1)%R with (1 / 3)%R by lra.
  replace (0 + 1 / 2 * 1)%R with (1 / 2)%R by lra.
  run_search.
  destruct (Rlt_dec (1 / 3) (1 / 2)) as [_|Hge]; [|exfalso; apply Hge; lra].
  by rewrite slice_to_all by (cbn [List.length]; lia).
Qed.

(** ** The invariants under the four operations *)

Lemma postings_ok_stamp v idx : postings_ok idx → postings_ok (set_lastUpdated v idx).
Proof. apply postings_ok_ext; reflexivity. Qed.

Lemma removeDocument_postings_ok f idx : postings_ok idx → postings_ok (removeDocument f idx).
Proof. intros H. by destruct (removeDocument_spec f idx H) as (? & _). Qed.

Lemma removeDocument_no_empty f idx :
  postings_ok idx → no_empty_postings idx → no_empty_postings (removeDocument f idx).
Proof. intros H. by destruct (removeDocument_spec f idx H) as (_ & ? & _). Qed.

Create HintDb index_inv.
#[local] Hint Resolve removeDocument_postings_ok addDocument_postings_ok postings_ok_stamp
  removeDocument_total_ok addDocument_total_ok : index_inv.

(** The [docFreq] invariant away from the prototype chain.  Take a state
    in which, for every term [T], [docFreq[T]] is the number of paths with an
    entry in [invertedIndex[T]], [docFreq] and [invertedIndex] have the same
    terms, and every stored posting count is non-zero.  All of this holds
    again after [addDocument], [removeDocument], [indexDirectory] (whether it
    returns or throws) and [update]; and where no term had an empty posting
    map before, none has one after: a term whose last posting goes loses its
    posting map and its [docFreq] entry together.  The contents that are
    added hold no term naming an inherited property ([own_terms],
    [own_contents]); what a content with the token [constructor] does to
    the invariant is shown with the prototype chain, further down. *)
Theorem docFreq_invariant_preserved (idx : Index) :
  postings_ok idx →
  (∀ filePath filename content modified extension,
     own_terms content →
     let idx' := addDocument filePath filename content modified extension idx in
     postings_ok idx' ∧ (no_empty_postings idx → no_empty_postings idx'))
  ∧ (∀ filePath,
       let idx' := removeDocument filePath idx in
       postings_ok idx' ∧ (no_empty_postings idx → no_empty_postings idx'))
  ∧ (∀ env dirPath force,
       own_contents env →
       let idx' := index_of (indexDirectory env dirPath force idx) in
       postings_ok idx' ∧ (no_empty_postings idx → no_empty_postings idx'))
  ∧ (∀ env,
       own_contents env →
       let idx' := index_of (update env idx) in
       postings_ok idx' ∧ (no_empty_postings idx → no_empty_postings idx')).
Proof.
  intros Hok.
  set (Q := λ i, postings_ok i ∧ no_empty_postings i).
  assert (Q_remove : ∀ f i, Q i → Q (removeDocument f i)).
  { intros f i [H1 H2]. split;
      [by apply removeDocument_postings_ok | by apply removeDocument_no_empty]. }
  assert (Q_add : ∀ f fn c m e i, Q i → documents i !! f = None → Q (addDocument f fn c m e i)).
  { intros f fn c m e i [H1 H2] _. split;
      [by apply addDocument_postings_ok | by apply addDocument_no_empty]. }
  assert (Q_stamp : ∀ v i, Q i → Q (set_lastUpdated v i)).
  { intros v i [H1 H2]. split; [by apply postings_ok_stamp | exact H2]. }
  split; [|split; [|split]].
  - intros filePath filename content modified extension _. cbv zeta. split.
    + by apply addDocument_postings_ok.
    + by apply addDocument_no_empty.
  - intros filePath. cbv zeta. split.
    + by apply removeDocument_postings_ok.
    + by apply removeDocument_no_empty.
  - intros env dirPath force _. cbv zeta. split.
    + apply (indexDirectory_preserves postings_ok); auto with index_inv.
    + intros Hne. by apply (indexDirectory_preserves Q).
  - intros env _. cbv zeta. split.
    + apply (update_preserves postings_ok); auto with index_inv.
    + intros Hne. by apply (update_preserves Q).
Qed.

(** C2.  The [totalDocs] invariant.  From a state in which [totalDocs] is
    the number of entries of [documents], the equality holds again after
    [removeDocument], [indexDirectory] (whether it returns or throws) and
    [update], and after [addDocument] for a path that has no record yet,
    which is how [indexDirectory] and [update] call it: both remove the old
    record first. *)
Theorem totalDocs_invariant_preserved (idx : Index) :
  totalDocs_consistent idx →
  (∀ filePath filename content modified extension,
     documents idx !! filePath = None →
     totalDocs_consistent (addDocument filePath filename content modified extension idx))
  ∧ (∀ filePath, totalDocs_consistent (removeDocument filePath idx))
  ∧ (∀ env dirPath force,
       totalDocs_consistent (index_of (indexDirectory env dirPath force idx)))
  ∧ (∀ env, totalDocs_consistent (index_of (update env idx))).
Proof.
  intros Hidx. split; [|split; [|split]].
  - intros. by apply addDocument_total_ok.
  - intros. by apply removeDocument_total_ok.
  - intros. apply (indexDirectory_preserves totalDocs_consistent); auto with index_inv.
  - intros. apply (update_preserves totalDocs_consistent); auto with index_inv.
Qed.

Lemma totalDocs_invariant_witness :
  totalDocs_consistent createEmptyIndex
  ∧ documents createEmptyIndex !! "a.txt" = None
  ∧ totalDocs_consistent (addDocument "a.txt" "a.txt" "apple banana apple" 0 "txt" createEmptyIndex)
  ∧ totalDocs_consistent (removeDocument "a.txt" createEmptyIndex)
  ∧ totalDocs_consistent (index_of (indexDirectory sample_env "/r" true createEmptyIndex))
  ∧ totalDocs_consistent (index_of (update sample_env createEmptyIndex)).
Proof.
  assert (Hempty : totalDocs_consistent createEmptyIndex) by reflexivity.
  assert (Hnew : documents createEmptyIndex !! "a.txt" = None) by reflexivity.
  destruct (totalDocs_invariant_preserved createEmptyIndex Hempty) as (Hadd & Hrem & Hdir & Hupd).
  split; [exact Hempty|]. split; [exact Hnew|].
  split; [exact (Hadd "a.txt" "a.txt" "apple banana apple" 0%Z "txt" Hnew)|].
  split; [exact (Hrem "a.txt")|].
  split; [exact (Hdir sample_env "/r" true) | exact (Hupd sample_env)].
Defined.

(** C2, as stated, fails for [addDocument] alone.  Adding [a.txt] to an
    index that already holds [a.txt] overwrites the record and still counts
    one more document: [totalDocs] is 2 for one entry of [documents]. *)
Lemma addDocument_twice_breaks_totalDocs :
  let idx := addDocument "a.txt" "a.txt" "apple" 0 "txt" createEmptyIndex in
  let idx' := addDocument "a.txt" "a.txt" "apple" 0 "txt" idx in
  totalDocs_consistent idx
  ∧ totalDocs idx' = 2%Z
  ∧ size (documents idx') = 1
  ∧ ¬ totalDocs_consistent idx'.
Proof.
  cbv zeta. split; [|split; [|split]].
  - vm_compute. reflexivity.
  - vm_compute. reflexivity.
  - vm_compute. reflexivity.
  - vm_compute. discriminate.
Qed.

(** ** Tokenizer identity, crawl, persistence and queries *)



(** C5.  Oversized files.  A file that the crawl reaches (neither ignored
    nor binary by extension) and whose [stat] reports more than
    [MAX_FILE_SIZE] bytes is skipped: the index and the three counters stay
    as they are, whatever [readFileSync] would answer for it, and the walk
    goes on with the next entry. *)
Theorem oversized_file_skipped env patterns dirPath currentPath name st stats :
  statSync env (path_join env currentPath name) = Some stats →
  (MAX_FILE_SIZE < st_size stats)%Z →
  ignores patterns (path_relative env dirPath (path_join env currentPath name)) = false →
  isBinaryFile env (path_join env currentPath name) = false →
  (∀ read,
     visit_file (with_readFileSync read env) patterns dirPath currentPath name st = st)
  ∧ visit_file env patterns dirPath currentPath name st = st
  ∧ ∀ rest,
      walkEntries env patterns dirPath currentPath (FileEntry name :: rest) st =
      walkEntries env patterns dirPath currentPath rest st.
Proof.
  intros Hstat Hbig Hign Hbin.
  assert (Hvisit : ∀ read,
    visit_file (with_readFileSync read env) patterns dirPath currentPath name st = st).
  { intros read. unfold visit_file. simpl. rewrite Hign.
    change (isBinaryFile (with_readFileSync read env) (path_join env currentPath name))
      with (isBinaryFile env (path_join env currentPath name)).
    rewrite Hbin. unfold index_file. simpl. rewrite Hstat.
    apply Z.ltb_lt in Hbig. by rewrite Hbig. }
  assert (Hself : visit_file env patterns dirPath currentPath name st = st).
  { rewrite <- (Hvisit (readFileSync env)) at 2. by destruct env. }
  split; [exact Hvisit|]. split; [exact Hself|].
  intros rest. simpl. by rewrite Hself.
Qed.

Lemma oversized_file_skipped_witness :
  let st := mkCrawl createEmptyIndex 0 0 0 in
  visit_file sample_env DEFAULT_PATTERNS "/r" "/r" "big.txt" st = st.
Proof.
  cbv zeta.
  refine (proj1 (proj2 (oversized_file_skipped sample_env DEFAULT_PATTERNS "/r" "/r" "big.txt"
            (mkCrawl createEmptyIndex 0 0 0) (mkStats 5242881 2) _ _ _ _))).
  - vm_compute. reflexivity.
  - vm_compute. reflexivity.
  - vm_compute. reflexivity.
  - vm_compute. reflexivity.
Defined.

(** C5, as stated, fails: an oversized file is counted nowhere.  A
    directory holding one file of 5 MB and one byte is indexed without an
    exception, and all three counters of the report are 0. *)
Lemma oversized_file_not_counted :
  statSync oversized_env "/r/big.txt" = Some (mkStats 5242881 2)
  ∧ (MAX_FILE_SIZE < 5242881)%Z
  ∧ indexDirectory oversized_env "/r" false createEmptyIndex =
    Returned (set_lastUpdated (Some "2026-02-16T00:00:00.000Z") createEmptyIndex)
      (mkIndexReport 0 0 0 5).
Proof. split; [|split]; vm_compute; reflexivity. Qed.

Lemma removeDocuments_documents (l : list string) : ∀ idx q,
  documents (foldl (λ i p, removeDocument p i) idx l) !! q =
  if bool_decide (q ∈ l) then None else documents idx !! q.
Proof.
  induction l as [|p l IH]; intros idx q; simpl; [done|].
  rewrite IH, removeDocument_documents.
  destruct (decide (q = p)) as [->|Hne].
  - rewrite lookup_delete_eq, (bool_decide_eq_true_2 (p ∈ p :: l)) by left.
    by destruct (bool_decide _).
  - rewrite lookup_delete_ne by done.
    destruct (bool_decide (q ∈ l)) eqn:Hin.
    + apply bool_decide_eq_true in Hin. by rewrite bool_decide_eq_true_2 by (by right).
    + apply bool_decide_eq_false in Hin. rewrite bool_decide_eq_false_2; [done|].
      by intros [?|?]%elem_of_cons.
Qed.

Lemma elem_of_toRemove dirPath idx q :
  q ∈ toRemove dirPath idx ↔ startsWith q dirPath = true ∧ is_Some (documents idx !! q).
Proof.
  unfold toRemove. rewrite list_elem_of_filter, list_elem_of_fmap. split.
  - intros [Hpre ([q' doc] & -> & Hin)]. split; [done|].
    apply elem_of_map_to_list in Hin. eauto.
  - intros [Hpre [doc Hdoc]]. split; [done|]. exists (q, doc). split; [done|].
    by apply elem_of_map_to_list.
Qed.

(** What the removal phase of a forced run removes: the documents whose
    path has the text of [dirPath] as a prefix. *)
Lemma clear_directory_documents dirPath idx q :
  documents (clear_directory dirPath idx) !! q =
  if startsWith q dirPath then None else documents idx !! q.
Proof.
  unfold clear_directory. rewrite removeDocuments_documents.
  destruct (startsWith q dirPath) eqn:Hpre.
  - destruct (documents idx !! q) as [doc|] eqn:Hdoc.
    + rewrite bool_decide_eq_true_2; [done|]. apply elem_of_toRemove. eauto.
    + rewrite bool_decide_eq_false_2; [done|]. rewrite elem_of_toRemove.
      intros [_ [? ?]]. congruence.
  - rewrite bool_decide_eq_false_2; [done|]. rewrite elem_of_toRemove.
    intros [? _]. congruence.
Qed.

(** C8.  The removal phase of a forced run at the failing input.  The index
    holds [/data/proj/a.txt] and [/data/proj2/b.txt], both unchanged on disk.
    [/data/proj2/b.txt] does not lie under [/data/proj], but its path starts
    with that text, so the forced run on [/data/proj] removes its record and
    its postings and lowers the document frequencies of its terms; the crawl
    of [/data/proj] does not bring it back. *)
Theorem forced_reindex_removes_sibling :
  lies_under "/data/proj" "/data/proj2/b.txt" = false
  ∧ existsSync siblings_env "/data/proj2/b.txt" = true
  ∧ is_Some (documents siblings_index !! "/data/proj2/b.txt")
  ∧ posting siblings_index "cherry" "/data/proj2/b.txt" = Some 1%Z
  ∧ docFreq siblings_index !! "banana" = Some (Int 2)
  ∧ documents (clear_directory "/data/proj" siblings_index) !! "/data/proj2/b.txt" = None
  ∧ posting (clear_directory "/data/proj" siblings_index) "cherry" "/data/proj2/b.txt" = None
  ∧ ∃ idx' report,
      indexDirectory siblings_env "/data/proj" true siblings_index = Returned idx' report
      ∧ documents idx' !! "/data/proj2/b.txt" = None
      ∧ posting idx' "cherry" "/data/proj2/b.txt" = None
      ∧ docFreq idx' !! "banana" = Some (Int 1)
      ∧ totalDocs idx' = 1%Z.
Proof.
  split; [vm_compute; reflexivity|].
  split; [vm_compute; reflexivity|].
  split; [vm_compute; eauto|].
  split; [vm_compute; reflexivity|].
  split; [vm_compute; reflexivity|].
  split; [vm_compute; reflexivity|].
  split; [vm_compute; reflexivity|].
  destruct (indexDirectory siblings_env "/data/proj" true siblings_index) as [idx' report|idx']
    eqn:Hrun.
  - exists idx', report. split; [done|].
    assert (Hidx : index_of (indexDirectory siblings_env "/data/proj" true siblings_index) = idx')
      by (by rewrite Hrun).
    rewrite <- Hidx. repeat split; vm_compute; reflexivity.
  - exfalso. vm_compute in Hrun. discriminate.
Qed.

(** C9.  [loadIndex] when the backing file is missing, or when it is there
    and its text does not parse: no exception reaches the caller, and the
    result is the fresh index, with version 1, empty [documents],
    [invertedIndex] and [docFreq], [totalDocs] 0 and [lastUpdated] null. *)
Theorem loadIndex_fresh_on_missing_or_corrupt (env : Env) :
  existsSync env (INDEX_PATH env) = false
  ∨ (∃ text, readFileSync env (INDEX_PATH env) = Some text ∧ JSON_parse env text = None) →
  loadIndex env = createEmptyIndex
  ∧ createEmptyIndex = mkIndex 1 ∅ ∅ ∅ 0 None.
Proof.
  intros H. split; [|reflexivity]. unfold loadIndex.
  destruct H as [-> | (text & -> & Hparse)]; [done|].
  simpl. rewrite Hparse. by destruct (existsSync _ _).
Qed.

Lemma loadIndex_fresh_witness :
  existsSync sample_env (INDEX_PATH sample_env) = false
  ∧ loadIndex sample_env = createEmptyIndex
  ∧ readFileSync corrupt_env (INDEX_PATH corrupt_env) = Some "{ version: 1"
  ∧ JSON_parse corrupt_env "{ version: 1" = None
  ∧ loadIndex corrupt_env = createEmptyIndex.
Proof.
  assert (Hmissing : existsSync sample_env (INDEX_PATH sample_env) = false)
    by (vm_compute; reflexivity).
  assert (Hread : readFileSync corrupt_env (INDEX_PATH corrupt_env) = Some "{ version: 1")
    by (vm_compute; reflexivity).
  assert (Hparse : JSON_parse corrupt_env "{ version: 1" = None) by reflexivity.
  split; [exact Hmissing|].
  split; [exact (proj1 (loadIndex_fresh_on_missing_or_corrupt sample_env (or_introl Hmissing)))|].
  split; [exact Hread|]. split; [exact Hparse|].
  exact (proj1 (loadIndex_fresh_on_missing_or_corrupt corrupt_env
                  (or_intror (ex_intro _ "{ version: 1" (conj Hread Hparse))))).
Defined.

Lemma update_entry_dom env (keys : gset string) st entry :
  entry.1 ∈ keys →
  dom (documents (sweep_index st)) ⊆ keys →
  dom (documents (sweep_index (update_entry env st entry))) ⊆ keys.
Proof.
  destruct entry as [docPath doc]. simpl. intros Hin Hsub. unfold update_entry.
  destruct (existsSync env docPath); simpl.
  - destruct (statSync env docPath) as [stats|]; [|done].
    destruct (st_mtime stats =? Doc.modified doc)%Z; simpl; [done|].
    destruct (readFileSync env docPath) as [content|]; [|done]. cbn [sweep_index].
    destruct (addDocument_documents docPath (path_basename env docPath) content
                (st_mtime stats) (extension_of env docPath)
                (removeDocument docPath (sweep_index st))) as (d & -> & _).
    rewrite dom_insert, removeDocument_documents, dom_delete.
    intros q [->%elem_of_singleton | [Hq _]%elem_of_difference]%elem_of_union; auto.
  - rewrite removeDocument_documents, dom_delete.
    intros q [Hq _]%elem_of_difference. auto.
Qed.

(** C10.  [update] never reports an added document.  For every index and
    every environment, the report it returns has [added = 0], and it returns
    one unless saving the index throws; either way the index it leaves holds
    no path that was not stored before. *)
Theorem update_never_reports_added (env : Env) (idx : Index) :
  match update env idx with
  | Returned idx' report =>
      added report = 0%Z ∧ dom (documents idx') ⊆ dom (documents idx)
  | Thrown idx' =>
      saveIndex env idx' = false ∧ dom (documents idx') ⊆ dom (documents idx)
  end.
Proof.
  unfold update.
  assert (Hgen : ∀ l st,
            Forall (λ e, e.1 ∈ dom (documents idx)) l →
            dom (documents (sweep_index st)) ⊆ dom (documents idx) →
            dom (documents (sweep_index (foldl (update_entry env) st l))) ⊆ dom (documents idx)).
  { induction l as [|e l IH]; intros st Hl Hst; simpl; [done|].
    inversion Hl; subst. apply IH; [done|]. by apply update_entry_dom. }
  specialize (Hgen (map_to_list (documents idx)) (mkSweep idx 0 0)).
  destruct (saveIndex env _) eqn:Hsave; (split; [done|]); apply Hgen; try done.
  all: apply Forall_forall; intros [p d] Hin; apply elem_of_map_to_list in Hin;
    apply elem_of_dom; eauto.
Qed.

(** C7.  For a term with [1 <= docFreq <= totalDocs], the weight that
    [search] computes is [ln((totalDocs + 1) / (docFreq + 1)) + 1], and it is
    at least 1, hence positive; [docFreq = totalDocs] is included. *)
Theorem idf_at_least_one (totalDocs df : Z) :
  (1 <= df)%Z → (df <= totalDocs)%Z →
  ∃ w, idf totalDocs (Some (Int df)) = Some w
       ∧ w = (ln (IZR (totalDocs + 1) / IZR (df + 1)) + 1)%R
       ∧ (1 <= w)%R ∧ (0 < w)%R.
Proof.
  intros H1 H2. exists (idf_value totalDocs df).
  split; [apply idf_defined; lia|]. split; [reflexivity|].
  assert (1 <= idf_value totalDocs df)%R by (apply idf_value_ge_1; lia).
  split; lra.
Qed.

Lemma idf_at_least_one_witness :
  ∃ w, idf 2 (Some (Int 2)) = Some w
       ∧ w = (ln (IZR (2 + 1) / IZR (2 + 1)) + 1)%R
       ∧ (1 <= w)%R ∧ (0 < w)%R.
Proof. apply (idf_at_least_one 2 2); lia. Defined.

(** C6.  Ranking monotonicity.  Let documents [A] and [B] have the same
    [wordCount], let [A] hold the term [X] and [B] the term [Y], both [count]
    times, and let [docFreq[X] < docFreq[Y]], both between 1 and [totalDocs].
    Then the weight of [X] is strictly above the weight of [Y], and what the
    scoring loop adds for [A] under [X], [(count / wordCount) * idf(X)], is
    strictly above what it adds for [B] under [Y].  For a fixed [totalDocs]
    the weight is a strictly decreasing function of the document frequency. *)
Theorem rarer_term_scores_higher (idx : Index) (X Y A B : string)
    (docA docB : Document) (dfX dfY count : Z) :
  documents idx !! A = Some docA →
  documents idx !! B = Some docB →
  Doc.wordCount docA = Doc.wordCount docB →
  posting idx X A = Some count →
  posting idx Y B = Some count →
  (1 <= count)%Z → (count <= Doc.wordCount docA)%Z →
  docFreq idx !! X = Some (Int dfX) →
  docFreq idx !! Y = Some (Int dfY) →
  (1 <= dfX)%Z → (dfX < dfY)%Z → (dfY <= totalDocs idx)%Z →
  (∃ wX wY sA sB,
     idf (totalDocs idx) (docFreq idx !! X) = Some wX
     ∧ idf (totalDocs idx) (docFreq idx !! Y) = Some wY
     ∧ (wY < wX)%R
     ∧ score_posting idx [] (Some wX) [] (A, count) = Some [(A, sA)]
     ∧ score_posting idx [] (Some wY) [] (B, count) = Some [(B, sB)]
     ∧ sA = (0 + IZR count / IZR (Doc.wordCount docA) * wX)%R
     ∧ sB = (0 + IZR count / IZR (Doc.wordCount docB) * wY)%R
     ∧ (sB < sA)%R)
  ∧ (∀ d1 d2, (1 <= d1)%Z → (d1 < d2)%Z → (d2 <= totalDocs idx)%Z →
       (idf_value (totalDocs idx) d2 < idf_value (totalDocs idx) d1)%R).
Proof.
  intros HA HB Hwc _ _ Hc Hcw HX HY H1 H2 H3. split.
  - exists (idf_value (totalDocs idx) dfX), (idf_value (totalDocs idx) dfY).
    eexists. eexists. rewrite HX, HY.
    split; [apply idf_defined; lia|]. split; [apply idf_defined; lia|].
    assert (Hlt : (idf_value (totalDocs idx) dfY < idf_value (totalDocs idx) dfX)%R)
      by (apply idf_value_decreasing; lia).
    split; [exact Hlt|].
    unfold score_posting. rewrite HA, HB. simpl. unfold tf.
    rewrite !decide_False by lia. simpl.
    split; [reflexivity|]. split; [reflexivity|]. split; [reflexivity|].
    split; [reflexivity|]. rewrite <- Hwc.
    assert (0 < IZR count / IZR (Doc.wordCount docA))%R.
    { apply Rdiv_lt_0_compat; apply IZR_lt; lia. }
    apply Rplus_lt_compat_l. by apply Rmult_lt_compat_l.
  - intros d1 d2 Hd1 Hd2 Hd3. apply idf_value_decreasing; lia.
Qed.

Lemma rarer_term_scores_higher_witness :
  ∃ wX wY sA sB,
     idf (totalDocs ranking_index) (docFreq ranking_index !! "kiwi") = Some wX
     ∧ idf (totalDocs ranking_index) (docFreq ranking_index !! "plum") = Some wY
     ∧ (wY < wX)%R
     ∧ score_posting ranking_index [] (Some wX) [] ("a.txt", 1%Z) = Some [("a.txt", sA)]
     ∧ score_posting ranking_index [] (Some wY) [] ("b.txt", 1%Z) = Some [("b.txt", sB)]
     ∧ sA = (0 + IZR 1 / IZR 2 * wX)%R
     ∧ sB = (0 + IZR 1 / IZR 2 * wY)%R
     ∧ (sB < sA)%R.
Proof.
  refine (proj1 (rarer_term_scores_higher ranking_index "kiwi" "plum" "a.txt" "b.txt"
            (Doc.make "a.txt" "kiwi plum" 0 9 "txt" 2 2)
            (Doc.make "b.txt" "plum fig" 0 8 "txt" 2 2)
            1 2 1 _ _ _ _ _ _ _ _ _ _ _ _)).
  - vm_compute. reflexivity.
  - vm_compute. reflexivity.
  - reflexivity.
  - vm_compute. reflexivity.
  - vm_compute. reflexivity.
  - lia.
  - simpl. lia.
  - vm_compute. reflexivity.
  - vm_compute. reflexivity.
  - lia.
  - lia.
  - vm_compute. discriminate.
Defined.

(** C3.  The two-file scenario.  The index built from [a.txt], which reads
    [apple banana apple], and [b.txt], which reads [banana cherry], holds
    these two documents, with word counts 3 and 2, [docFreq[apple] = 1] and
    [docFreq[banana] = 2].
    The query [apple] has one result, [a.txt], with the score
    [(2/3) * (ln(3/2) + 1)].  The weight of [banana] is [ln(3/3) + 1 = 1], and
    the query [banana] has two results: [b.txt] with the score 1/2, then
    [a.txt] with the score 1/3. *)
Theorem scenario_search :
  dom (documents scenario_index) = {[ "a.txt"; "b.txt" ]}
  ∧ documents scenario_index !! "a.txt" =
      Some (Doc.make "a.txt" "apple banana apple" 0 18 "txt" 3 2)
  ∧ documents scenario_index !! "b.txt" =
      Some (Doc.make "b.txt" "banana cherry" 0 13 "txt" 2 2)
  ∧ totalDocs scenario_index = 2%Z
  ∧ docFreq scenario_index !! "apple" = Some (Int 1)
  ∧ docFreq scenario_index !! "banana" = Some (Int 2)
  ∧ search scenario_index "apple" [] 20 =
      Some [mkResult "a.txt" "a.txt" (2 / 3 * (ln (3 / 2) + 1))%R "apple banana apple"]
  ∧ idf (totalDocs scenario_index) (docFreq scenario_index !! "banana")
      = Some (ln (3 / 3) + 1)%R
  ∧ (ln (3 / 3) + 1 = 1)%R
  ∧ search scenario_index "banana" [] 20 =
      Some [mkResult "b.txt" "b.txt" (1 / 2)%R "banana cherry";
            mkResult "a.txt" "a.txt" (1 / 3)%R "apple banana apple"].
Proof.
  split; [vm_compute; reflexivity|].
  split; [vm_compute; reflexivity|].
  split; [vm_compute; reflexivity|].
  split; [vm_compute; reflexivity|].
  split; [vm_compute; reflexivity|].
  split; [vm_compute; reflexivity|].
  split; [apply scenario_apple|].
  split.
  { assert (totalDocs scenario_index = 2%Z) as -> by (vm_compute; reflexivity).
    assert (docFreq scenario_index !! "banana" = Some (Int 2)) as -> by (vm_compute; reflexivity).
    rewrite idf_defined by lia. reflexivity. }
  split.
  { replace (3 / 3)%R with 1%R by lra. rewrite ln_1. lra. }
  apply scenario_banana.
Qed.

Lemma removeDocuments_postings (l : list string) T D : ∀ idx,
  postings_ok idx → D ∉ l →
  postings_ok (foldl (λ i p, removeDocument p i) idx l)
  ∧ posting (foldl (λ i p, removeDocument p i) idx l) T D = posting idx T D.
Proof.
  induction l as [|p l IH]; intros idx Hok Hnot; simpl; [done|].
  apply not_elem_of_cons in Hnot as [Hne Hnot].
  destruct (removeDocument_spec p idx Hok) as (Hok' & _ & Hpost).
  destruct (IH (removeDocument p idx) Hok' Hnot) as [Hok'' ->]. split; [done|].
  destruct (documents idx !! p) as [doc|] eqn:Hdoc.
  - rewrite Hpost by eauto. by rewrite decide_False.
  - by rewrite removeDocument_absent.
Qed.

(** The removal phase leaves the record and the postings of every document
    whose path does not start with the text of [dirPath] as they were. *)
Lemma clear_directory_frame dirPath idx D :
  postings_ok idx → startsWith D dirPath = false →
  documents (clear_directory dirPath idx) !! D = documents idx !! D
  ∧ ∀ T, posting (clear_directory dirPath idx) T D = posting idx T D.
Proof.
  intros Hok Hpre. split.
  - by rewrite clear_directory_documents, Hpre.
  - intros T. unfold clear_directory. apply removeDocuments_postings; [done|].
    rewrite elem_of_toRemove. intros [? _]. congruence.
Qed.

(** * More properties of the engine *)

(** ** The prototype chain *)

Lemma own_key_eqb token :
  own_key token → (token =? "__proto__")%string = false ∧ (token =? "constructor")%string = false.
Proof. intros [H1 H2]. split; by apply String.eqb_neq. Qed.

Lemma inherited_count_words_own (tokens : list string) : ∀ wc b,
  Forall own_key tokens →
  foldl Inherited.count_token (Inherited.mkWordCounts wc b) tokens
  = Inherited.mkWordCounts (foldl count_token wc tokens) b.
Proof.
  induction tokens as [|token tokens IH]; intros wc b Hown; [done|].
  apply Forall_cons in Hown as [Htoken Hown]. cbn [foldl].
  destruct (own_key_eqb token Htoken) as [H1 H2].
  unfold Inherited.count_token at 2. rewrite H1, H2. cbn [Inherited.numbers
    Inherited.constructor_text]. by rewrite IH.
Qed.

(** On a content that holds neither token, the prototype chain does not
    show: [addDocument] is what the code does. *)
Lemma inherited_addDocument_own filePath filename content modified extension idx globals :
  own_terms content →
  Inherited.addDocument filePath filename content modified extension (idx, globals)
  = Some (addDocument filePath filename content modified extension idx, globals).
Proof.
  intros Hown. unfold Inherited.addDocument, Inherited.count_words, addDocument.
  cbv zeta. rewrite inherited_count_words_own by exact Hown.
  unfold Inherited.keys. cbn [Inherited.numbers Inherited.constructor_text].
  rewrite Nat.add_0_r. reflexivity.
Qed.

Lemma inherited_count_words_spec (tokens : list string) : ∀ wc b,
  wc !! "constructor" = None →
  Inherited.numbers (foldl Inherited.count_token (Inherited.mkWordCounts wc b) tokens)
    !! "constructor" = None
  ∧ Inherited.constructor_text
      (foldl Inherited.count_token (Inherited.mkWordCounts wc b) tokens)
    = b || bool_decide ("constructor" ∈ tokens).
Proof.
  induction tokens as [|token tokens IH]; intros wc b Hwc; cbn [foldl].
  - split; [done|]. by rewrite orb_false_r.
  - unfold Inherited.count_token at 2 4.
    destruct (String.eqb_spec token "__proto__") as [->|Hp].
    { destruct (IH wc b Hwc) as [H1 H2]. split; [done|]. rewrite H2. f_equal.
      apply bool_decide_ext. rewrite elem_of_cons. split; [by right|].
      by intros [?|?]. }
    destruct (String.eqb_spec token "constructor") as [->|Hc];
      cbn [Inherited.numbers Inherited.constructor_text].
    + destruct (IH wc true Hwc) as [H1 H2]. split; [done|]. rewrite H2. cbn [orb].
      rewrite (bool_decide_eq_true_2 ("constructor" ∈ "constructor" :: tokens)) by left.
      by rewrite orb_true_r.
    + destruct (IH (<[token := (default 0 (wc !! token) + 1)%Z]> wc) b) as [H1 H2].
      { by rewrite lookup_insert_ne. }
      split; [done|]. rewrite H2. f_equal. apply bool_decide_ext. rewrite elem_of_cons.
      split; [by right|]. by intros [?|?].
Qed.

Lemma add_posting_other filePath idx e w :
  w ≠ e.1 →
  invertedIndex (add_posting filePath idx e) !! w = invertedIndex idx !! w
  ∧ docFreq (add_posting filePath idx e) !! w = docFreq idx !! w.
Proof.
  destruct e as [word count]. simpl. intros Hw. unfold add_posting.
  destruct (invertedIndex idx !! word); simpl; destruct (truthy _); simpl;
    rewrite ?lookup_insert_ne by done; done.
Qed.

Lemma add_postings_other filePath (l : list (string * Z)) w : ∀ idx,
  w ∉ l.*1 →
  invertedIndex (foldl (add_posting filePath) idx l) !! w = invertedIndex idx !! w
  ∧ docFreq (foldl (add_posting filePath) idx l) !! w = docFreq idx !! w.
Proof.
  induction l as [|e l IH]; intros idx Hw; [done|].
  apply not_elem_of_cons in Hw as [Hw1 Hw2]. cbn [foldl].
  destruct (IH (add_posting filePath idx e) Hw2) as [-> ->].
  by apply add_posting_other.
Qed.

(** C1.  The [docFreq] invariant does not survive a content that holds the
    word [constructor].  Take an index in which [docFreq] and [invertedIndex]
    have the same terms and [docFreq] counts the postings, built by the engine
    (so without an own posting map named [constructor]), and an absolute
    path that is new to the process.  [addDocument] finds the inherited
    function [Object] where it looks for the posting map of [constructor],
    makes none, and stores [docFreq.constructor = NaN]: afterwards [docFreq]
    has a term that [invertedIndex] has not, and the invariant is broken. *)
Theorem constructor_token_breaks_docFreq
    (idx : Index) (globals : gset string)
    (filePath filename content : string) (modified : Z) (extension : string) :
  docFreq_consistent idx →
  invertedIndex idx !! "constructor" = None →
  "constructor" ∈ tokenize content →
  startsWith filePath "/" = true →
  filePath ∉ globals →
  ∃ idx',
    Inherited.addDocument filePath filename content modified extension (idx, globals)
    = Some (idx', ({[ filePath ]} ∪ globals))
    ∧ docFreq idx' !! "constructor" = Some NaN
    ∧ invertedIndex idx' !! "constructor" = None
    ∧ ¬ docFreq_consistent idx'.
Proof.
  intros [Hdom Hcount] Hinv Htoken _ Hnew.
  assert (Hdf : docFreq idx !! "constructor" = None).
  { apply not_elem_of_dom. rewrite Hdom. by apply not_elem_of_dom. }
  unfold Inherited.addDocument, Inherited.count_words. cbv zeta.
  destruct (inherited_count_words_spec (tokenize content) ∅ false (lookup_empty _))
    as [Hnum Htext].
  rewrite Htext, bool_decide_eq_true_2 by done. cbn [orb].
  set (wc := foldl Inherited.count_token (Inherited.mkWordCounts ∅ false) (tokenize content))
    in *.
  set (idx1 := set_documents _ idx).
  destruct (add_postings_other filePath (map_to_list (Inherited.numbers wc)) "constructor" idx1)
    as [Hinv2 Hdf2].
  { intros ([w c] & Hw & Hin%elem_of_map_to_list)%list_elem_of_fmap.
    simpl in Hw. subst w. congruence. }
  unfold Inherited.add_constructor. rewrite Hinv2. unfold idx1 at 1. cbn [invertedIndex set_documents].
  rewrite Hinv. rewrite bool_decide_eq_false_2 by done. cbn [mbind option_bind].
  eexists. split; [reflexivity|].
  assert (Hnan : docFreq (set_totalDocs (λ n, (n + 1)%Z)
             (set_docFreq <["constructor" := incr (docFreq
                (foldl (add_posting filePath) idx1 (map_to_list (Inherited.numbers wc)))
                !! "constructor")]>
                (foldl (add_posting filePath) idx1 (map_to_list (Inherited.numbers wc)))))
           !! "constructor" = Some NaN).
  { cbn [docFreq set_totalDocs set_docFreq]. rewrite lookup_insert_eq, Hdf2.
    unfold idx1. cbn [docFreq set_documents]. by rewrite Hdf. }
  assert (Hnone : invertedIndex (set_totalDocs (λ n, (n + 1)%Z)
             (set_docFreq <["constructor" := incr (docFreq
                (foldl (add_posting filePath) idx1 (map_to_list (Inherited.numbers wc)))
                !! "constructor")]>
                (foldl (add_posting filePath) idx1 (map_to_list (Inherited.numbers wc)))))
           !! "constructor" = None).
  { cbn [invertedIndex set_totalDocs set_docFreq]. rewrite Hinv2. unfold idx1.
    cbn [invertedIndex set_documents]. exact Hinv. }
  split; [exact Hnan|]. split; [exact Hnone|].
  intros [Hdom' _]. apply not_elem_of_dom in Hnone. apply Hnone. rewrite <- Hdom'.
  apply elem_of_dom. eauto.
Qed.

Lemma constructor_token_breaks_docFreq_witness :
  docFreq_consistent createEmptyIndex
  ∧ invertedIndex createEmptyIndex !! "constructor" = None
  ∧ "constructor" ∈ tokenize "constructor apple"
  ∧ startsWith "/x" "/" = true
  ∧ ("/x" ∉ (∅ : gset string))
  ∧ ∃ idx',
      Inherited.addDocument "/x" "x" "constructor apple" 0 "" (createEmptyIndex, ∅)
      = Some (idx', ({[ "/x" ]} ∪ ∅))
      ∧ docFreq idx' !! "constructor" = Some NaN
      ∧ invertedIndex idx' !! "constructor" = None
      ∧ ¬ docFreq_consistent idx'.
Proof.
  assert (H1 : docFreq_consistent createEmptyIndex).
  { split; [reflexivity|]. intros T docs H. simpl in H. by apply lookup_empty_Some in H. }
  assert (H2 : invertedIndex createEmptyIndex !! "constructor" = None) by reflexivity.
  assert (H3 : "constructor" ∈ tokenize "constructor apple").
  { assert (tokenize "constructor apple" = ["constructor"; "apple"]) as ->
      by (vm_compute; reflexivity).
    left. }
  assert (H4 : "/x" ∉ (∅ : gset string)) by apply not_elem_of_empty.
  split; [exact H1|]. split; [exact H2|]. split; [exact H3|]. split; [reflexivity|].
  split; [exact H4|].
  exact (constructor_token_breaks_docFreq createEmptyIndex ∅ "/x" "x" "constructor apple"
           0%Z "" H1 H2 H3 eq_refl H4).
Defined.

(** The same, step by step: the index after
    [addDocument('/x', 'x', 'constructor apple')] on the empty index, and
    after [removeDocument('/x')], which leaves the entry of [docFreq] behind.
    With [__proto__] for [constructor], no entry is made at all and
    [uniqueWords] is 1 for two different tokens. *)
Example constructor_token_trace :
  Inherited.addDocument "/x" "x" "constructor apple" 0 "" (createEmptyIndex, ∅)
  = Some (mkIndex 1
            {[ "/x" := Doc.make "x" "constructor apple" 0 17 "" 2 2 ]}
            {[ "apple" := {[ "/x" := 1%Z ]} ]}
            {[ "apple" := Int 1; "constructor" := NaN ]}
            1 None,
          {[ "/x" ]})
  ∧ removeDocument "/x"
      (mkIndex 1
         {[ "/x" := Doc.make "x" "constructor apple" 0 17 "" 2 2 ]}
         {[ "apple" := {[ "/x" := 1%Z ]} ]}
         {[ "apple" := Int 1; "constructor" := NaN ]}
         1 None)
    = mkIndex 1 ∅ ∅ {[ "constructor" := NaN ]} 0 None
  ∧ Inherited.addDocument "/x" "x" "__proto__ apple" 0 "" (createEmptyIndex, ∅)
    = Some (mkIndex 1
              {[ "/x" := Doc.make "x" "__proto__ apple" 0 15 "" 2 1 ]}
              {[ "apple" := {[ "/x" := 1%Z ]} ]}
              {[ "apple" := Int 1 ]}
              1 None,
            ∅).
Proof. split; [|split]; vm_compute; reflexivity. Qed.

(** ** Word counts and the postings of [addDocument] *)

Lemma occurrences_cons T t tokens :
  occurrences T (t :: tokens) =
  ((if decide (t = T) then 1 else 0) + occurrences T tokens)%Z.
Proof.
  unfold occurrences. rewrite filter_cons. destruct (decide (t = T)); simpl; lia.
Qed.

Lemma occurrences_pos T tokens : T ∈ tokens → (1 <= occurrences T tokens)%Z.
Proof.
  induction tokens as [|t tokens IH]; intros Hin.
  - by apply elem_of_nil in Hin.
  - rewrite occurrences_cons. apply elem_of_cons in Hin as [->|Hin].
    + rewrite decide_True by done. unfold occurrences. lia.
    + specialize (IH Hin). destruct (decide _); lia.
Qed.

Lemma occurrences_absent T tokens : T ∉ tokens → occurrences T tokens = 0%Z.
Proof.
  induction tokens as [|t tokens IH]; intros Hin; [done|].
  apply not_elem_of_cons in Hin as [Hne Hin]. rewrite occurrences_cons, IH by done.
  by rewrite decide_False.
Qed.

Lemma occurrences_le_length T tokens :
  (occurrences T tokens <= Z.of_nat (List.length tokens))%Z.
Proof.
  unfold occurrences. pose proof (length_filter (λ t, t = T) tokens). lia.
Qed.

Lemma count_words_from (tokens : list string) : ∀ (wc : gmap string Z) T,
  foldl count_token wc tokens !! T =
  if decide (T ∈ tokens) then Some (default 0 (wc !! T) + occurrences T tokens)%Z
  else wc !! T.
Proof.
  induction tokens as [|t tokens IH]; intros wc T; simpl.
  - destruct (decide (T ∈ [])) as [H|]; [by apply elem_of_nil in H | done].
  - rewrite IH. rewrite occurrences_cons. unfold count_token.
    destruct (decide (t = T)) as [->|Hne].
    + rewrite lookup_insert_eq. simpl. rewrite (decide_True (P := T ∈ T :: tokens)) by left.
      destruct (decide (T ∈ tokens)) as [Hin|Hin].
      * f_equal; lia.
      * rewrite occurrences_absent by done. f_equal; lia.
    + rewrite lookup_insert_ne by done.
      destruct (decide (T ∈ tokens)) as [Hin|Hin].
      * rewrite decide_True by (by right). f_equal; lia.
      * rewrite decide_False; [done|]. by intros [?|?]%elem_of_cons.
Qed.

(** [wordCounts] holds, for each token, how often it occurs, and nothing
    else. *)
Lemma count_words_spec tokens T :
  count_words tokens !! T =
  if decide (T ∈ tokens) then Some (occurrences T tokens) else None.
Proof.
  unfold count_words. rewrite count_words_from, lookup_empty. simpl.
  destruct (decide (T ∈ tokens)); [f_equal; lia | done].
Qed.

Lemma add_posting_posting filePath idx w c T D :
  posting (add_posting filePath idx (w, c)) T D =
  if decide (T = w ∧ D = filePath) then Some c else posting idx T D.
Proof.
  unfold posting. rewrite add_posting_invertedIndex.
  destruct (decide (T = w)) as [->|HT].
  - rewrite lookup_insert_eq. simpl. destruct (decide (D = filePath)) as [->|HD].
    + rewrite lookup_insert_eq. by rewrite decide_True.
    + rewrite lookup_insert_ne by done. rewrite decide_False by (by intros [_ ?]).
      destruct (invertedIndex idx !! w); simpl; [done | apply lookup_empty].
  - rewrite lookup_insert_ne by done. by rewrite decide_False by (by intros [? _]).
Qed.

Lemma add_postings_posting filePath (l : list (string * Z)) T D : ∀ idx,
  NoDup l.*1 →
  posting (foldl (add_posting filePath) idx l) T D =
  if decide (D = filePath) then
    match (list_to_map l : gmap string Z) !! T with
    | Some c => Some c
    | None => posting idx T D
    end
  else posting idx T D.
Proof.
  induction l as [|[w c] l IH]; intros idx Hnd; simpl.
  - rewrite lookup_empty. by destruct (decide _).
  - apply NoDup_cons in Hnd as [Hw Hnd]. rewrite IH by done.
    rewrite add_posting_posting.
    destruct (decide (D = filePath)) as [->|HD].
    + destruct (decide (T = w)) as [->|HT].
      * rewrite lookup_insert_eq, decide_True by done.
        by rewrite (not_elem_of_list_to_map_1 l w).
      * rewrite lookup_insert_ne by done. by rewrite decide_False by (by intros [? _]).
    + by rewrite decide_False by (by intros [_ ?]).
Qed.

(** The postings that [addDocument] leaves: under the new path, every token
    of the content has its number of occurrences; a term that is no token of
    the content keeps whatever was stored; and no posting of another document
    is touched. *)
Lemma addDocument_posting filePath filename content modified extension idx T D :
  posting (addDocument filePath filename content modified extension idx) T D =
  if decide (D = filePath ∧ T ∈ tokenize content)
  then Some (occurrences T (tokenize content))
  else posting idx T D.
Proof.
  unfold addDocument.
  change (posting (set_totalDocs ?f ?i) T D) with (posting i T D).
  rewrite add_postings_posting by apply NoDup_fst_map_to_list.
  rewrite list_to_map_to_list, count_words_spec.
  change (posting (set_documents ?f ?i) T D) with (posting i T D).
  destruct (decide (D = filePath)) as [->|HD].
  - destruct (decide (T ∈ tokenize content)).
    + by rewrite decide_True.
    + by rewrite decide_False by (by intros [_ ?]).
  - by rewrite decide_False by (by intros [? _]).
Qed.

(** The record that [addDocument] stores. *)
Lemma addDocument_record filePath filename content modified extension idx :
  documents (addDocument filePath filename content modified extension idx) =
  <[filePath :=
      Doc.make filename (substring 0 10000 content) modified
        (Z.of_nat (String.length content)) extension
        (Z.of_nat (List.length (tokenize content)))
        (Z.of_nat (size (count_words (tokenize content))))]> (documents idx).
Proof.
  unfold addDocument. simpl.
  by destruct (add_postings_frame filePath (map_to_list (count_words (tokenize content)))
       (set_documents <[filePath := Doc.make filename (substring 0 10000 content) modified
          (Z.of_nat (String.length content)) extension
          (Z.of_nat (List.length (tokenize content)))
          (Z.of_nat (size (count_words (tokenize content))))]> idx)) as [-> _].
Qed.

Lemma count_words_size tokens :
  size (count_words tokens) = List.length (remove_dups tokens).
Proof.
  rewrite <- (size_dom (D := gset string)).
  rewrite <- (size_list_to_set (C := gset string)) by apply NoDup_remove_dups.
  f_equal. apply set_eq. intros T.
  rewrite elem_of_dom, elem_of_list_to_set, elem_of_remove_dups, count_words_spec.
  destruct (decide (T ∈ tokens)) as [H|H]; split; intros H'; try done; eauto.
  all: by destruct H'.
Qed.

Lemma remove_dups_length {A} `{EqDecision A} (l : list A) :
  List.length (remove_dups l) <= List.length l.
Proof.
  induction l as [|x l IH]; simpl; [done|]. destruct (decide_rel _ _ _); simpl; lia.
Qed.

Lemma substring_length n m s : String.length (String.substring n m s) <= m.
Proof.
  revert n m. induction s as [|c s IH]; intros n m.
  - destruct n, m; simpl; lia.
  - destruct n as [|n]; simpl.
    + destruct m as [|m]; simpl; [lia|]. specialize (IH 0 m). lia.
    + apply IH.
Qed.

Lemma substring_prefix m s : String.prefix (String.substring 0 m s) s = true.
Proof.
  revert m. induction s as [|c s IH]; intros m.
  - by destruct m.
  - destruct m as [|m]; simpl; [done|].
    destruct (ascii_dec c c); [apply IH | done].
Qed.

Lemma substring_all m s : String.length s <= m → String.substring 0 m s = s.
Proof.
  revert m. induction s as [|c s IH]; intros m Hm.
  - by destruct m.
  - destruct m as [|m]; simpl in *; [lia|]. f_equal. apply IH. lia.
Qed.

Lemma substring_app_prefix pre rest :
  String.substring 0 (String.length pre) (pre ++ rest) = pre.
Proof. induction pre as [|c pre IH]; simpl; [by destruct rest | by rewrite IH]. Qed.

(** X1.  [addDocument] indexes the content it is given, when the content
    holds neither the token [constructor] nor [__proto__].  The record stored
    for the path holds the file name, the modification time and the extension
    as passed, the length of the content, the number of its tokens and the
    number of different tokens (never more than the number of tokens), and as
    [content] the first 10000 characters of the content: [substring(0, 10000)]
    of it, which is the piece before the cut wherever the content is cut
    after 10000 characters, and all of it when it is no longer.  Every
    token of the content gets, for this path, a posting that counts its
    occurrences, at least 1 and at most the word count.  The postings of the
    path for terms the content does not hold, and the postings and the records
    of the other paths, are left as they were; [totalDocs] grows by one.  On
    such a content [Inherited.addDocument], which follows the prototype chain,
    gives this index and touches nothing else. *)
Theorem addDocument_indexes_content
    (filePath filename content : string) (modified : Z) (extension : string) (idx : Index) :
  own_terms content →
  let idx' := addDocument filePath filename content modified extension idx in
  let tokens := tokenize content in
  (∃ doc, documents idx' !! filePath = Some doc
     ∧ Doc.filename doc = filename ∧ Doc.modified doc = modified
     ∧ Doc.extension doc = extension
     ∧ Doc.size doc = Z.of_nat (String.length content)
     ∧ Doc.wordCount doc = Z.of_nat (List.length tokens)
     ∧ Doc.uniqueWords doc = Z.of_nat (List.length (remove_dups tokens))
     ∧ (Doc.uniqueWords doc <= Doc.wordCount doc)%Z
     ∧ Doc.content doc = substring 0 10000 content
     ∧ (∀ pre rest, content = (pre ++ rest)%string →
          Z.of_nat (String.length pre) = 10000%Z → Doc.content doc = pre)
     ∧ ((Z.of_nat (String.length content) <= 10000)%Z → Doc.content doc = content)
     ∧ ∀ T, T ∈ tokens →
         posting idx' T filePath = Some (occurrences T tokens)
         ∧ (1 <= occurrences T tokens <= Doc.wordCount doc)%Z)
  ∧ (∀ T, T ∉ tokens → posting idx' T filePath = posting idx T filePath)
  ∧ (∀ T D, D ≠ filePath →
       posting idx' T D = posting idx T D ∧ documents idx' !! D = documents idx !! D)
  ∧ totalDocs idx' = (totalDocs idx + 1)%Z
  ∧ ∀ globals,
      Inherited.addDocument filePath filename content modified extension (idx, globals)
      = Some (idx', globals).
Proof.
  intros Hown. cbv zeta. split; [|split; [|split; [|split]]].
  - eexists. rewrite addDocument_record, lookup_insert_eq. split; [reflexivity|]. simpl.
    do 5 (split; [reflexivity|]).
    split; [by rewrite count_words_size|].
    split; [rewrite count_words_size; pose proof (remove_dups_length (tokenize content)); lia|].
    split; [reflexivity|].
    split.
    { intros pre rest -> Hpre. unfold substring.
      replace (Z.to_nat (10000 - 0)) with (String.length pre) by lia.
      apply substring_app_prefix. }
    split; [intros H; apply substring_all; lia|].
    intros T HT. rewrite addDocument_posting, decide_True by done. split; [done|].
    pose proof (occurrences_pos T _ HT). pose proof (occurrences_le_length T (tokenize content)).
    lia.
  - intros T HT. rewrite addDocument_posting. by rewrite decide_False by (by intros [_ ?]).
  - intros T D HD. rewrite addDocument_posting, addDocument_record.
    rewrite decide_False by (by intros [? _]). by rewrite lookup_insert_ne.
  - apply addDocument_totalDocs.
  - intros globals. by apply inherited_addDocument_own.
Qed.

(** ** [removeDocument], and how the two operations compose *)

Lemma add_posting_stamp filePath idx e :
  version (add_posting filePath idx e) = version idx
  ∧ lastUpdated (add_posting filePath idx e) = lastUpdated idx.
Proof.
  destruct e as [w c]. unfold add_posting.
  destruct (invertedIndex idx !! w); simpl; destruct (truthy _); done.
Qed.

Lemma addDocument_stamp filePath filename content modified extension idx :
  version (addDocument filePath filename content modified extension idx) = version idx
  ∧ lastUpdated (addDocument filePath filename content modified extension idx)
    = lastUpdated idx.
Proof.
  unfold addDocument. simpl.
  assert (Hgen : ∀ l i, version (foldl (add_posting filePath) i l) = version i
                        ∧ lastUpdated (foldl (add_posting filePath) i l) = lastUpdated i).
  { induction l as [|e l IH]; intros i; simpl; [done|].
    destruct (IH (add_posting filePath i e)) as [-> ->]. apply add_posting_stamp. }
  split; [rewrite (proj1 (Hgen _ _)) | rewrite (proj2 (Hgen _ _))]; reflexivity.
Qed.

Lemma removeDocument_stamp filePath idx :
  version (removeDocument filePath idx) = version idx
  ∧ lastUpdated (removeDocument filePath idx) = lastUpdated idx.
Proof.
  unfold removeDocument. destruct (documents idx !! filePath); [|done]. simpl.
  assert (Hgen : ∀ l i, version (foldl (remove_posting filePath) i l) = version i
                        ∧ lastUpdated (foldl (remove_posting filePath) i l) = lastUpdated i).
  { induction l as [|[w d] l IH]; intros i; simpl; [done|].
    destruct (IH (remove_posting filePath i (w, d))) as [-> ->].
    destruct (remove_posting_frame filePath i w d) as (_ & _ & ? & ? & _). done. }
  split; [rewrite (proj1 (Hgen _ _)) | rewrite (proj2 (Hgen _ _))]; reflexivity.
Qed.

(** Two indexes whose postings are in order and without empty posting maps
    are equal as soon as they agree on every posting and on the other
    fields. *)
Lemma index_determined idx1 idx2 :
  postings_ok idx1 → no_empty_postings idx1 →
  postings_ok idx2 → no_empty_postings idx2 →
  (∀ T D, posting idx1 T D = posting idx2 T D) →
  documents idx1 = documents idx2 →
  totalDocs idx1 = totalDocs idx2 →
  version idx1 = version idx2 →
  lastUpdated idx1 = lastUpdated idx2 →
  idx1 = idx2.
Proof.
  intros [Hdf1 _] Hne1 [Hdf2 _] Hne2 Hpost Hdocs Htotal Hver Hlast.
  assert (Hinv : invertedIndex idx1 = invertedIndex idx2).
  { apply map_eq. intros T. specialize (Hpost T). unfold posting in Hpost.
    destruct (invertedIndex idx1 !! T) as [d1|] eqn:H1,
             (invertedIndex idx2 !! T) as [d2|] eqn:H2; simpl in Hpost.
    - f_equal. by apply map_eq.
    - exfalso. apply (Hne1 T d1 H1). by apply map_eq.
    - exfalso. apply (Hne2 T d2 H2). apply map_eq. intros D. by rewrite <- Hpost.
    - done. }
  assert (Hfreq : docFreq idx1 = docFreq idx2).
  { apply map_eq. intros T.
    pose proof (proj1 (docFreq_consistent_pointwise idx1) Hdf1 T) as E1.
    pose proof (proj1 (docFreq_consistent_pointwise idx2) Hdf2 T) as E2.
    unfold inv_at in E1, E2. by rewrite E1, E2, Hinv. }
  destruct idx1, idx2. simpl in *. congruence.
Qed.

Lemma removeDocument_posting filePath idx T D :
  postings_ok idx →
  posting (removeDocument filePath idx) T D =
  if decide (D = filePath ∧ is_Some (documents idx !! filePath)) then None
  else posting idx T D.
Proof.
  intros Hok. destruct (removeDocument_spec filePath idx Hok) as (_ & _ & Hpost).
  destruct (documents idx !! filePath) as [doc|] eqn:Hdoc.
  - rewrite Hpost by eauto. destruct (decide (D = filePath)) as [->|HD].
    + by rewrite decide_True by eauto.
    + by rewrite decide_False by (by intros [? _]).
  - rewrite removeDocument_absent by done.
    by rewrite decide_False by (intros [_ [? ?]]; done).
Qed.

Lemma removeDocument_totalDocs_dec filePath idx :
  totalDocs (removeDocument filePath idx) =
  (totalDocs idx - if decide (is_Some (documents idx !! filePath)) then 1 else 0)%Z.
Proof.
  rewrite removeDocument_totalDocs. destruct (documents idx !! filePath) as [d|].
  - by rewrite decide_True by eauto.
  - rewrite decide_False by (by intros [? ?]). lia.
Qed.

(** X2.  [removeDocument] removes one document, all of it, and nothing
    else.  On an index whose [docFreq] fits its postings: that stays so; the
    record of the path is deleted from [documents]; if there was one,
    [totalDocs] drops by one and no term has a posting for the path any more;
    the postings of every other path are unchanged; for a path without a
    record the index is returned as it is; and removing twice is removing
    once. *)
Theorem removeDocument_removes_exactly (filePath : string) (idx : Index) :
  postings_ok idx →
  let idx' := removeDocument filePath idx in
  postings_ok idx'
  ∧ documents idx' = delete filePath (documents idx)
  ∧ (is_Some (documents idx !! filePath) →
       totalDocs idx' = (totalDocs idx - 1)%Z
       ∧ ∀ T, posting idx' T filePath = None)
  ∧ (∀ T D, D ≠ filePath → posting idx' T D = posting idx T D)
  ∧ (documents idx !! filePath = None → idx' = idx)
  ∧ removeDocument filePath idx' = idx'.
Proof.
  intros Hok. cbv zeta.
  split; [by apply removeDocument_postings_ok|].
  split; [apply removeDocument_documents|]. split; [|split; [|split]].
  - intros Hdoc. split.
    + rewrite removeDocument_totalDocs_dec. by rewrite decide_True.
    + intros T. rewrite removeDocument_posting by done. by rewrite decide_True.
  - intros T D HD. rewrite removeDocument_posting by done.
    by rewrite decide_False by (by intros [? _]).
  - apply removeDocument_absent.
  - apply removeDocument_absent. rewrite removeDocument_documents. apply lookup_delete_eq.
Qed.

Lemma removeDocument_sound filePath idx :
  postings_sound idx → postings_sound (removeDocument filePath idx).
Proof.
  intros (Hok & Hknown & Hbound).
  split; [by apply removeDocument_postings_ok|]. split.
  - intros T D c. rewrite removeDocument_posting, removeDocument_documents by done.
    case_decide as HD; [done|]. intros Hp. destruct (decide (D = filePath)) as [->|Hne].
    + exfalso. apply HD. split; [done|]. eauto.
    + rewrite lookup_delete_ne by done. eauto.
  - intros T D c d. rewrite removeDocument_posting, removeDocument_documents by done.
    case_decide as HD; [done|]. intros Hp Hd. destruct (decide (D = filePath)) as [->|Hne].
    + by rewrite lookup_delete_eq in Hd.
    + rewrite lookup_delete_ne in Hd by done. eauto.
Qed.

Lemma addDocument_sound filePath filename content modified extension idx :
  postings_sound idx → documents idx !! filePath = None →
  postings_sound (addDocument filePath filename content modified extension idx).
Proof.
  intros (Hok & Hknown & Hbound) Hnew.
  assert (Hstale : ∀ T, posting idx T filePath = None).
  { intros T. destruct (posting idx T filePath) as [c|] eqn:Hp; [|done].
    destruct (Hknown _ _ _ Hp) as [d Hd]. congruence. }
  split; [by apply addDocument_postings_ok|]. split.
  - intros T D c. rewrite addDocument_posting, addDocument_record.
    destruct (decide (D = filePath)) as [->|HD].
    + intros _. rewrite lookup_insert_eq. eauto.
    + rewrite decide_False by (by intros [? _]). rewrite lookup_insert_ne by done. eauto.
  - intros T D c d. rewrite addDocument_posting, addDocument_record.
    destruct (decide (D = filePath)) as [->|HD].
    + rewrite lookup_insert_eq. destruct (decide (T ∈ tokenize content)) as [HT|HT].
      * rewrite decide_True by done. intros [= <-] [= <-]. simpl.
        pose proof (occurrences_pos T _ HT).
        pose proof (occurrences_le_length T (tokenize content)). lia.
      * rewrite decide_False by (by intros [_ ?]). by rewrite Hstale.
    + rewrite decide_False by (by intros [? _]). rewrite lookup_insert_ne by done. eauto.
Qed.

Lemma postings_sound_stamp v idx : postings_sound idx → postings_sound (set_lastUpdated v idx).
Proof. intros (Hok & Hknown & Hbound). split; [by apply postings_ok_stamp | done]. Qed.

(** X3.  The postings fit the documents, whatever the engine does, as
    long as no content holds the token [constructor] or [__proto__].
    [postings_sound] says that [docFreq] counts the postings, that every
    posting belongs to a stored document, and that its count lies between 1
    and the word count of that document.  It is kept by [removeDocument], by
    [addDocument] of such a content for a path without a record, and by
    [indexDirectory] and [update] over a file system whose files are such
    contents, whether they return or throw. *)
Theorem postings_sound_preserved (idx : Index) :
  postings_sound idx →
  (∀ filePath, postings_sound (removeDocument filePath idx))
  ∧ (∀ filePath filename content modified extension,
       own_terms content →
       documents idx !! filePath = None →
       postings_sound (addDocument filePath filename content modified extension idx))
  ∧ (∀ env dirPath force,
       own_contents env →
       postings_sound (index_of (indexDirectory env dirPath force idx)))
  ∧ (∀ env, own_contents env → postings_sound (index_of (update env idx))).
Proof.
  intros Hidx. split; [|split; [|split]].
  - intros. by apply removeDocument_sound.
  - intros. by apply addDocument_sound.
  - intros. apply (indexDirectory_preserves postings_sound);
      auto using removeDocument_sound, addDocument_sound, postings_sound_stamp.
  - intros. apply (update_preserves postings_sound);
      auto using removeDocument_sound, addDocument_sound, postings_sound_stamp.
Qed.

(** X4.  Adding a document whose content holds neither the token
    [constructor] nor [__proto__] to an index that has no record for its path,
    and removing it again, gives back the index, field for field. *)
Theorem add_then_remove_restores
    (filePath filename content : string) (modified : Z) (extension : string) (idx : Index) :
  own_terms content →
  postings_sound idx → no_empty_postings idx →
  documents idx !! filePath = None →
  removeDocument filePath (addDocument filePath filename content modified extension idx) = idx.
Proof.
  intros _ Hsound Hne Hnew. pose proof Hsound as (Hok & Hknown & _).
  set (idx1 := addDocument filePath filename content modified extension idx).
  assert (Hok1 : postings_ok idx1) by (by apply addDocument_postings_ok).
  assert (Hdoc1 : is_Some (documents idx1 !! filePath)).
  { unfold idx1. rewrite addDocument_record, lookup_insert_eq. eauto. }
  apply index_determined; try done.
  - by apply removeDocument_postings_ok.
  - apply removeDocument_no_empty; [done|]. by apply addDocument_no_empty.
  - intros T D. rewrite removeDocument_posting by done.
    destruct (decide (D = filePath)) as [->|HD].
    + rewrite decide_True by done. destruct (posting idx T filePath) as [c|] eqn:Hp; [|done].
      destruct (Hknown _ _ _ Hp) as [d Hd]. congruence.
    + rewrite decide_False by (by intros [? _]). unfold idx1. rewrite addDocument_posting.
      by rewrite decide_False by (by intros [? _]).
  - rewrite removeDocument_documents. unfold idx1. rewrite addDocument_record.
    rewrite delete_insert_eq. by apply delete_id.
  - rewrite removeDocument_totalDocs_dec, decide_True by done.
    unfold idx1. rewrite addDocument_totalDocs. lia.
  - rewrite (proj1 (removeDocument_stamp _ _)). apply addDocument_stamp.
  - rewrite (proj2 (removeDocument_stamp _ _)). apply addDocument_stamp.
Qed.

(** X5.  The order of two operations on different paths does not matter:
    two removals, two additions, and an addition with a removal give the same
    index either way. *)
Theorem operations_commute (p q : string) (idx : Index) :
  postings_ok idx → no_empty_postings idx → p ≠ q →
  removeDocument p (removeDocument q idx) = removeDocument q (removeDocument p idx)
  ∧ (∀ fn c m e fn' c' m' e',
       addDocument p fn c m e (addDocument q fn' c' m' e' idx) =
       addDocument q fn' c' m' e' (addDocument p fn c m e idx))
  ∧ (∀ fn c m e,
       addDocument p fn c m e (removeDocument q idx) =
       removeDocument q (addDocument p fn c m e idx)).
Proof.
  intros Hok Hne Hpq.
  assert (Hrm : ∀ f i, postings_ok i ∧ no_empty_postings i →
                       postings_ok (removeDocument f i) ∧ no_empty_postings (removeDocument f i)).
  { intros f i [H1 H2]. split;
      [by apply removeDocument_postings_ok | by apply removeDocument_no_empty]. }
  assert (Hadd : ∀ f fn c m e i, postings_ok i ∧ no_empty_postings i →
                  postings_ok (addDocument f fn c m e i)
                  ∧ no_empty_postings (addDocument f fn c m e i)).
  { intros f fn c m e i [H1 H2]. split;
      [by apply addDocument_postings_ok | by apply addDocument_no_empty]. }
  pose proof (conj Hok Hne) as H0.
  split; [|split].
  - destruct (Hrm q idx H0) as [Hq1 Hq2], (Hrm p idx H0) as [Hp1 Hp2].
    destruct (Hrm p _ (conj Hq1 Hq2)) as [? ?], (Hrm q _ (conj Hp1 Hp2)) as [? ?].
    apply index_determined; try done.
    + intros T D. rewrite !removeDocument_posting by done.
      rewrite !removeDocument_documents, !lookup_delete_ne by done.
      repeat case_decide; try done; exfalso; intuition congruence.
    + rewrite !removeDocument_documents. apply delete_delete.
    + rewrite !removeDocument_totalDocs_dec.
      rewrite !removeDocument_documents, !lookup_delete_ne by done. lia.
    + by rewrite !(proj1 (removeDocument_stamp _ _)).
    + by rewrite !(proj2 (removeDocument_stamp _ _)).
  - intros fn c m e fn' c' m' e'.
    destruct (Hadd q fn' c' m' e' idx H0) as [Hq1 Hq2], (Hadd p fn c m e idx H0) as [Hp1 Hp2].
    destruct (Hadd p fn c m e _ (conj Hq1 Hq2)) as [? ?],
             (Hadd q fn' c' m' e' _ (conj Hp1 Hp2)) as [? ?].
    apply index_determined; try done.
    + intros T D. rewrite !addDocument_posting.
      repeat case_decide; try done; exfalso; intuition congruence.
    + rewrite !addDocument_record. by apply insert_insert_ne.
    + rewrite !addDocument_totalDocs. lia.
    + by rewrite !(proj1 (addDocument_stamp _ _ _ _ _ _)).
    + by rewrite !(proj2 (addDocument_stamp _ _ _ _ _ _)).
  - intros fn c m e.
    destruct (Hrm q idx H0) as [Hq1 Hq2], (Hadd p fn c m e idx H0) as [Hp1 Hp2].
    destruct (Hadd p fn c m e _ (conj Hq1 Hq2)) as [? ?], (Hrm q _ (conj Hp1 Hp2)) as [? ?].
    apply index_determined; try done.
    + intros T D. rewrite addDocument_posting, !removeDocument_posting by done.
      rewrite addDocument_posting, addDocument_record, lookup_insert_ne by done.
      repeat case_decide; try done; exfalso; intuition congruence.
    + rewrite addDocument_record, !removeDocument_documents, addDocument_record.
      by rewrite delete_insert_ne.
    + rewrite addDocument_totalDocs, !removeDocument_totalDocs_dec, addDocument_totalDocs.
      rewrite addDocument_record, lookup_insert_ne by done. lia.
    + by rewrite (proj1 (addDocument_stamp _ _ _ _ _ _)), !(proj1 (removeDocument_stamp _ _)),
        (proj1 (addDocument_stamp _ _ _ _ _ _)).
    + by rewrite (proj2 (addDocument_stamp _ _ _ _ _ _)), !(proj2 (removeDocument_stamp _ _)),
        (proj2 (addDocument_stamp _ _ _ _ _ _)).
Qed.

Lemma reindex_posting filePath filename content modified extension idx T D :
  postings_sound idx →
  posting (addDocument filePath filename content modified extension
             (removeDocument filePath idx)) T D =
  if decide (D = filePath) then
    if decide (T ∈ tokenize content) then Some (occurrences T (tokenize content)) else None
  else posting idx T D.
Proof.
  intros (Hok & Hknown & _). rewrite addDocument_posting, removeDocument_posting by done.
  destruct (decide (D = filePath)) as [->|HD].
  - destruct (decide (T ∈ tokenize content)).
    + by rewrite decide_True.
    + rewrite decide_False by (by intros [_ ?]).
      destruct (documents idx !! filePath) as [d|] eqn:Hd.
      * by rewrite decide_True by eauto.
      * rewrite decide_False by (intros [_ [? ?]]; done).
        destruct (posting idx T filePath) as [c|] eqn:Hp; [|done].
        destruct (Hknown _ _ _ Hp) as [d' Hd']. congruence.
  - by rewrite !decide_False by (by intros [? _]).
Qed.

Lemma reindex_sound filePath filename content modified extension idx :
  postings_sound idx →
  postings_sound (addDocument filePath filename content modified extension
                    (removeDocument filePath idx)).
Proof.
  intros Hsound. apply addDocument_sound; [by apply removeDocument_sound|].
  rewrite removeDocument_documents. apply lookup_delete_eq.
Qed.

(** X6.  Re-indexing a document the way [indexDirectory] and [update] do
    it for a changed file, [removeDocument] then [addDocument], with a new
    content that holds neither the token [constructor] nor [__proto__].
    Afterwards the postings of the path are the token counts of the new
    content and nothing else (no posting of the old content is left); every
    other path keeps its postings and its record; the stored paths are those
    of before and this one; [totalDocs] is what it was when the path was
    stored; and the postings still fit the documents. *)
Theorem reindex_replaces
    (filePath filename content : string) (modified : Z) (extension : string) (idx : Index) :
  own_terms content →
  postings_sound idx →
  let idx' := addDocument filePath filename content modified extension
                (removeDocument filePath idx) in
  (∀ T, posting idx' T filePath =
        if decide (T ∈ tokenize content) then Some (occurrences T (tokenize content))
        else None)
  ∧ (∀ T D, D ≠ filePath →
       posting idx' T D = posting idx T D ∧ documents idx' !! D = documents idx !! D)
  ∧ dom (documents idx') = {[ filePath ]} ∪ dom (documents idx)
  ∧ (is_Some (documents idx !! filePath) → totalDocs idx' = totalDocs idx)
  ∧ postings_sound idx'.
Proof.
  intros _ Hsound. cbv zeta.
  split; [|split; [|split; [|split]]].
  - intros T. rewrite reindex_posting by done. by rewrite decide_True.
  - intros T D HD. rewrite reindex_posting by done. rewrite decide_False by done.
    by rewrite addDocument_record, lookup_insert_ne, removeDocument_documents,
      lookup_delete_ne.
  - rewrite addDocument_record, dom_insert_L, removeDocument_documents, dom_delete_L.
    apply set_eq. intros x. rewrite !elem_of_union, elem_of_difference, !elem_of_singleton.
    destruct (decide (x = filePath)); tauto.
  - intros Hdoc. rewrite addDocument_totalDocs, removeDocument_totalDocs_dec.
    rewrite decide_True by done. lia.
  - by apply reindex_sound.
Qed.

(** ** The result list of [search] *)

Lemma passes_filter (extensions : list string) ext :
  (0 <? List.length extensions)%nat && negb (bool_decide (ext ∈ extensions)) = false
  ↔ extensions = [] ∨ ext ∈ extensions.
Proof.
  destruct extensions as [|e es]; simpl.
  - split; [by left | done].
  - rewrite negb_false_iff, bool_decide_eq_true. split; [by right | by intros [?|?]].
Qed.

Lemma add_score_NoDup docPath v (scores : list (string * R)) :
  NoDup scores.*1 → NoDup (add_score docPath v scores).*1.
Proof.
  induction scores as [|[q s] scores IH]; simpl; intros Hnd.
  - apply NoDup_singleton.
  - apply NoDup_cons in Hnd as [Hq Hnd].
    destruct (String.eqb_spec q docPath) as [->|Hne]; simpl.
    + by apply NoDup_cons.
    + apply NoDup_cons. split; [|by apply IH].
      rewrite add_score_keys. by intros [?|?].
Qed.

Lemma matches_mono idx extensions tokens tokens' p :
  tokens ⊆ tokens' → matches idx extensions tokens p → matches idx extensions tokens' p.
Proof.
  intros Hsub (doc & token & c & ? & ? & ? & ?). exists doc, token, c. auto.
Qed.

Lemma score_posting_sound idx extensions tokens token weight docs scores entry scores' :
  invertedIndex idx !! token = Some docs → entry ∈ map_to_list docs → token ∈ tokens →
  score_posting idx extensions weight scores entry = Some scores' →
  candidates_sound idx extensions tokens scores →
  candidates_sound idx extensions tokens scores'.
Proof.
  intros Hdocs Hentry Htoken. destruct entry as [docPath count].
  apply elem_of_map_to_list in Hentry. unfold score_posting.
  destruct (documents idx !! docPath) as [doc|] eqn:Hdoc; [|by intros [= <-]].
  destruct (_ && _) eqn:Hfilter; [by intros [= <-]|].
  apply passes_filter in Hfilter.
  destruct weight as [w|]; [|done]. simpl.
  destruct (tf count (Doc.wordCount doc)) as [t|]; [|done]. simpl.
  intros [= <-] [Hnd Hsound]. split; [by apply add_score_NoDup|].
  intros p [->|Hp]%add_score_keys; [|by apply Hsound].
  exists doc, token, count. repeat split; try done.
  unfold posting. by rewrite Hdocs.
Qed.

Lemma fold_option_invariant_in {A B : Type} (f : A → B → option A) (I : A → Prop)
    (l : list B) :
  (∀ a b a', b ∈ l → f a b = Some a' → I a → I a') →
  ∀ a a', fold_option f a l = Some a' → I a → I a'.
Proof.
  induction l as [|b l IH]; intros Hf a a'; simpl.
  - by intros [= <-].
  - destruct (f a b) as [a1|] eqn:Hab; [|done]. simpl. intros Hfold Ha.
    eapply (IH (λ a0 b0 a0' Hb0, Hf a0 b0 a0' (list_elem_of_further _ _ _ Hb0)));
      [exact Hfold|].
    eapply Hf; [left | exact Hab | exact Ha].
Qed.

Lemma score_token_sound idx extensions tokens scores token scores' :
  token ∈ tokens →
  score_token idx extensions scores token = Some scores' →
  candidates_sound idx extensions tokens scores →
  candidates_sound idx extensions tokens scores'.
Proof.
  intros Htoken. unfold score_token.
  destruct (invertedIndex idx !! token) as [docs|] eqn:Hdocs; [|by intros [= <-]].
  apply fold_option_invariant_in. intros a b a' Hb. by eapply score_posting_sound.
Qed.

Lemma candidates_sound_final idx extensions tokens scores :
  fold_option (score_token idx extensions) [] tokens = Some scores →
  candidates_sound idx extensions tokens scores.
Proof.
  intros Hfold. eapply (fold_option_invariant_in _ (candidates_sound idx extensions tokens));
    [|exact Hfold|].
  - intros a b a' Hb. by apply score_token_sound.
  - split; [constructor|]. intros p Hp. by apply elem_of_nil in Hp.
Qed.

Lemma insert_by_score_perm x l : insert_by_score x l ≡ₚ x :: l.
Proof.
  induction l as [|y l IH]; simpl; [done|].
  destruct (Rlt_dec (score x) (score y)); [|done].
  rewrite IH. apply Permutation_swap.
Qed.

Lemma insert_by_score_descending x l : descending l → descending (insert_by_score x l).
Proof.
  induction l as [|y l IH]; simpl; intros Hl.
  - split; [constructor | done].
  - destruct Hl as [Hy Hl]. destruct (Rlt_dec (score x) (score y)) as [Hlt|Hge].
    + simpl. split; [|by apply IH].
      rewrite insert_by_score_perm. constructor; [lra | done].
    + simpl. assert (score y <= score x)%R by lra. split; [|done].
      constructor; [done|]. eapply Forall_impl; [exact Hy|]. simpl. intros b Hb. lra.
Qed.

Lemma sort_by_score_perm l : sort_by_score l ≡ₚ l.
Proof.
  induction l as [|x l IH]; simpl; [done|].
  by rewrite insert_by_score_perm, IH.
Qed.

Lemma sort_by_score_descending l : descending (sort_by_score l).
Proof.
  induction l as [|x l IH]; simpl; [done|]. by apply insert_by_score_descending.
Qed.

Lemma take_descending n l : descending l → descending (take n l).
Proof.
  revert n. induction l as [|x l IH]; intros [|n] Hl; simpl; try done.
  destruct Hl as [Hx Hl]. split; [|by apply IH].
  apply Forall_take. exact Hx.
Qed.

Lemma slice_to_take limit l :
  ∃ n, slice_to limit l = take n l ∧ ((0 <= limit)%Z → n = Z.to_nat limit).
Proof.
  unfold slice_to. destruct (0 <=? limit)%Z eqn:Hl.
  - eexists. split; [reflexivity | done].
  - eexists. split; [reflexivity|]. apply Z.leb_gt in Hl. lia.
Qed.

Lemma make_results_spec idx tokens (scores : list (string * R)) results :
  mapM (make_result idx tokens) scores = Some results →
  path <$> results = scores.*1
  ∧ ∀ r, r ∈ results →
      ∃ doc, documents idx !! path r = Some doc
             ∧ filename r = Doc.filename doc
             ∧ preview r = extractPreview (Doc.content doc) tokens
             ∧ (path r, score r) ∈ scores.
Proof.
  rewrite mapM_Some. induction 1 as [|[p s] r0 scores results Hr _ IH]; simpl.
  - split; [done|]. intros res Hres. by apply elem_of_nil in Hres.
  - unfold make_result in Hr. destruct (documents idx !! p) as [doc|] eqn:Hdoc; [|done].
    simpl in Hr. injection Hr as <-. destruct IH as [IH1 IH2]. simpl. split; [by f_equal|].
    intros res [->|Hin]%elem_of_cons.
    + exists doc. simpl. repeat split; try done. left.
    + destruct (IH2 res Hin) as (d & ? & ? & ? & ?). exists d. repeat split; try done.
      by right.
Qed.

Lemma search_results (idx : Index) (query : string) (extensions : list string)
    (limit : Z) (results : list Result) :
  search idx query extensions limit = Some results →
  ((0 <= limit)%Z → (Z.of_nat (List.length results) <= limit)%Z)
  ∧ descending results
  ∧ NoDup (path <$> results)
  ∧ ∀ r, r ∈ results →
      matches idx extensions (tokenize query) (path r)
      ∧ ∃ doc, documents idx !! path r = Some doc
               ∧ filename r = Doc.filename doc
               ∧ preview r = extractPreview (Doc.content doc) (tokenize query).
Proof.
  unfold search. destruct (List.length (tokenize query) =? 0)%nat.
  { intros [= <-]. split; [simpl; lia|]. split; [done|]. split; [constructor|].
    intros r Hr. by apply elem_of_nil in Hr. }
  destruct (fold_option _ _ _) as [scores|] eqn:Hfold; [|done]. simpl.
  destruct (mapM _ _) as [made|] eqn:Hmade; [|done]. simpl. intros [= <-].
  destruct (candidates_sound_final _ _ _ _ Hfold) as [Hnd Hsound].
  destruct (make_results_spec _ _ _ _ Hmade) as [Hpaths Hmade'].
  destruct (slice_to_take limit (sort_by_score made)) as (n & -> & Hn).
  split; [|split; [|split]].
  - intros Hl. rewrite length_take, (Hn Hl). lia.
  - apply take_descending, sort_by_score_descending.
  - rewrite fmap_take. eapply sublist_NoDup; [|apply sublist_take].
    rewrite (sort_by_score_perm made), Hpaths. exact Hnd.
  - intros r Hr. apply elem_of_take in Hr as (i & Hr & _).
    apply list_elem_of_lookup_2 in Hr. rewrite sort_by_score_perm in Hr.
    destruct (Hmade' r Hr) as (doc & Hdoc & Hfn & Hpv & Hin). split.
    + apply Hsound. apply list_elem_of_fmap. by exists (path r, score r).
    + by exists doc.
Qed.


(** *** Definedness and completeness on an index whose postings fit *)

Lemma posting_paths_bounded idx token docs :
  postings_known idx → invertedIndex idx !! token = Some docs →
  size docs <= size (documents idx).
Proof.
  intros Hknown Hdocs.
  rewrite <- (size_dom (D := gset string) docs), <- (size_dom (D := gset string) (documents idx)).
  apply subseteq_size. intros p Hp. apply elem_of_dom in Hp as [c Hc]. apply elem_of_dom.
  apply (Hknown token p c). unfold posting. by rewrite Hdocs.
Qed.

Lemma idf_of_indexed_term idx token docs :
  postings_sound idx → totalDocs_consistent idx →
  invertedIndex idx !! token = Some docs →
  ∃ w, idf (totalDocs idx) (docFreq idx !! token) = Some w ∧ (1 <= w)%R.
Proof.
  intros ([[_ Hfreq] _] & Hknown & _) Htotal Hdocs.
  rewrite (Hfreq _ _ Hdocs). unfold posting_count.
  pose proof (posting_paths_bounded idx token docs Hknown Hdocs).
  unfold totalDocs_consistent in Htotal.
  exists (idf_value (totalDocs idx) (Z.of_nat (size docs))). split.
  - apply idf_defined. lia.
  - apply idf_value_ge_1. lia.
Qed.

Lemma add_score_elem docPath v (scores : list (string * R)) p s :
  (p, s) ∈ add_score docPath v scores →
  (p, s) ∈ scores
  ∨ (p = docPath ∧ (s = (0 + v)%R ∨ ∃ s0, (p, s0) ∈ scores ∧ s = (s0 + v)%R)).
Proof.
  induction scores as [|[q s1] scores IH]; simpl.
  - intros [= -> ->]%list_elem_of_singleton. right. split; [done | by left].
  - destruct (String.eqb_spec q docPath) as [->|Hne].
    + intros [[= -> ->]|Hin]%elem_of_cons.
      * right. split; [done|]. right. exists s1. split; [left | done].
      * left. by right.
    + intros [[= -> ->]|Hin]%elem_of_cons; [left; left|].
      destruct (IH Hin) as [?|(-> & [->|(s0 & ? & ->)])].
      * left. by right.
      * right. split; [done | by left].
      * right. split; [done|]. right. exists s0. split; [by right | done].
Qed.

Lemma add_score_positive docPath v scores :
  (0 < v)%R → scores_positive scores → scores_positive (add_score docPath v scores).
Proof.
  intros Hv Hpos p s Hin. apply add_score_elem in Hin as [Hin | (-> & [->|(s0 & Hin & ->)])].
  - by apply (Hpos p).
  - lra.
  - specialize (Hpos _ _ Hin). lra.
Qed.

(** The loop over the postings of one token, when the weight is positive
    and every count is within its document. *)
Lemma score_postings_total idx extensions w (docs : gmap string Z)
    (l : list (string * Z)) :
  counts_bounded idx → (0 < w)%R →
  ∀ token, invertedIndex idx !! token = Some docs →
  (∀ e, e ∈ l → docs !! e.1 = Some e.2) →
  ∀ scores, scores_positive scores →
  ∃ scores',
    fold_option (score_posting idx extensions (Some w)) scores l = Some scores'
    ∧ scores_positive scores'
    ∧ (∀ p, p ∈ scores.*1 → p ∈ scores'.*1)
    ∧ (∀ e doc, e ∈ l → documents idx !! e.1 = Some doc →
         (extensions = [] ∨ Doc.extension doc ∈ extensions) → e.1 ∈ scores'.*1).
Proof.
  intros Hbound Hw token Hdocs. induction l as [|[p c] l IH]; intros Hl scores Hpos; cbn [fold_option].
  - exists scores. repeat split; try done. intros e doc He. by apply elem_of_nil in He.
  - assert (Hpc : docs !! p = Some c) by (apply (Hl (p, c)); left).
    assert (Hstep : ∃ scores1,
              score_posting idx extensions (Some w) scores (p, c) = Some scores1
              ∧ scores_positive scores1
              ∧ (∀ q, q ∈ scores.*1 → q ∈ scores1.*1)
              ∧ (∀ doc, documents idx !! p = Some doc →
                   (extensions = [] ∨ Doc.extension doc ∈ extensions) → p ∈ scores1.*1)).
    { unfold score_posting. destruct (documents idx !! p) as [doc|] eqn:Hdoc.
      - destruct (_ && _) eqn:Hfilter.
        + exists scores. repeat split; try done. intros d [= <-] Hpass.
          apply passes_filter in Hpass. congruence.
        + assert (Hc : (1 <= c <= Doc.wordCount doc)%Z).
          { apply (Hbound token p c doc); [|done]. unfold posting. by rewrite Hdocs. }
          simpl. rewrite tf_defined by lia. simpl. eexists. split; [reflexivity|].
          split; [|split].
          * apply add_score_positive; [|done]. apply Rmult_lt_0_compat; [|done].
            apply Rdiv_lt_0_compat; apply IZR_lt; lia.
          * intros q Hq. apply add_score_keys. by right.
          * intros _ _ _. apply add_score_keys. by left.
      - exists scores. repeat split; try done. }
    destruct Hstep as (scores1 & -> & Hpos1 & Hmono1 & Hin1). cbn [mbind option_bind].
    destruct (IH (λ e He, Hl e (list_elem_of_further _ _ _ He)) scores1 Hpos1)
      as (scores' & -> & Hpos' & Hmono' & Hin').
    exists scores'. split; [done|]. split; [done|]. split; [auto|].
    intros e doc [->|He]%elem_of_cons Hdoc Hpass; simpl in *.
    + apply Hmono'. by apply (Hin1 doc).
    + by apply (Hin' e doc).
Qed.

(** The loop over the query tokens. *)
Lemma score_tokens_total idx extensions (tokens : list string) :
  postings_sound idx → totalDocs_consistent idx →
  ∀ scores, scores_positive scores →
  ∃ scores',
    fold_option (score_token idx extensions) scores tokens = Some scores'
    ∧ scores_positive scores'
    ∧ (∀ p, p ∈ scores.*1 → p ∈ scores'.*1)
    ∧ (∀ token p c doc, token ∈ tokens → posting idx token p = Some c →
         documents idx !! p = Some doc →
         (extensions = [] ∨ Doc.extension doc ∈ extensions) → p ∈ scores'.*1).
Proof.
  intros Hsound Htotal. induction tokens as [|token tokens IH]; intros scores Hpos;
    cbn [fold_option].
  - exists scores. split; [done|]. split; [done|]. split; [done|].
    intros token p c doc Hin. by apply elem_of_nil in Hin.
  - assert (Hstep : ∃ scores1,
              score_token idx extensions scores token = Some scores1
              ∧ scores_positive scores1
              ∧ (∀ p, p ∈ scores.*1 → p ∈ scores1.*1)
              ∧ (∀ p c doc, posting idx token p = Some c →
                   documents idx !! p = Some doc →
                   (extensions = [] ∨ Doc.extension doc ∈ extensions) → p ∈ scores1.*1)).
    { unfold score_token, posting. destruct (invertedIndex idx !! token) as [docs|] eqn:Hdocs.
      - destruct (idf_of_indexed_term idx token docs Hsound Htotal Hdocs) as (w & -> & Hw).
        destruct (score_postings_total idx extensions w docs (map_to_list docs)
                    (proj2 (proj2 Hsound)) ltac:(lra) token Hdocs
                    (λ e He, proj1 (elem_of_map_to_list' docs e) He) scores Hpos)
          as (scores1 & Hrun & Hpos1 & Hmono1 & Hin1).
        exists scores1. split; [done|]. split; [done|]. split; [done|].
        intros p c doc Hc Hdoc Hpass. simpl in Hc.
        apply (Hin1 (p, c) doc); [by apply elem_of_map_to_list | done | done].
      - exists scores. split; [done|]. split; [done|]. split; [done|]. by intros p c doc. }
    destruct Hstep as (scores1 & -> & Hpos1 & Hmono1 & Hin1). cbn [mbind option_bind].
    destruct (IH scores1 Hpos1) as (scores' & -> & Hpos' & Hmono' & Hin').
    exists scores'. split; [done|]. split; [done|]. split; [auto|].
    intros t p c doc [->|Ht]%elem_of_cons Hc Hdoc Hpass.
    + apply Hmono'. by apply (Hin1 p c doc).
    + by apply (Hin' t p c doc).
Qed.

Lemma candidates_bounded idx extensions tokens scores :
  candidates_sound idx extensions tokens scores →
  List.length scores <= size (documents idx).
Proof.
  intros [Hnd Hin]. rewrite <- (length_fmap fst scores).
  rewrite <- (length_map_to_list (documents idx)),
    <- (length_fmap fst (map_to_list (documents idx))).
  apply submseteq_length, NoDup_submseteq; [done|].
  intros p Hp. destruct (Hin p Hp) as (doc & _ & _ & Hdoc & _).
  apply list_elem_of_fmap. exists (p, doc). split; [done|]. by apply elem_of_map_to_list.
Qed.

Lemma slice_to_length limit l : List.length (slice_to limit l) <= List.length l.
Proof. destruct (slice_to_take limit l) as (n & -> & _). rewrite length_take. lia. Qed.

Lemma search_complete (idx : Index) (query : string)
    (extensions : list string) (limit : Z) :
  postings_sound idx → totalDocs_consistent idx →
  ∃ results,
    search idx query extensions limit = Some results
    ∧ (∀ r, r ∈ results → (0 < score r)%R)
    ∧ (Z.of_nat (List.length results) <= totalDocs idx)%Z
    ∧ ((totalDocs idx <= limit)%Z →
       ∀ p, p ∈ path <$> results ↔ matches idx extensions (tokenize query) p).
Proof.
  intros Hsound Htotal. unfold search.
  destruct (List.length (tokenize query) =? 0)%nat eqn:Hlen.
  { exists []. split; [done|]. split; [intros r Hr; by apply elem_of_nil in Hr|].
    unfold totalDocs_consistent in Htotal. split; [simpl; lia|]. intros _ p. split.
    - intros Hp. by apply elem_of_nil in Hp.
    - intros (doc & token & c & _ & _ & Htoken & _).
      apply Nat.eqb_eq in Hlen. destruct (tokenize query); [|done].
      by apply elem_of_nil in Htoken. }
  destruct (score_tokens_total idx extensions (tokenize query) Hsound Htotal [])
    as (scores & Hfold & Hpos & _ & Hall).
  { intros p s Hin. by apply elem_of_nil in Hin. }
  rewrite Hfold. cbn [mbind option_bind].
  pose proof (candidates_sound_final _ _ _ _ Hfold) as Hcand.
  destruct (search_defined idx query extensions limit scores Hfold) as [results Hres].
  unfold search in Hres. rewrite Hlen, Hfold in Hres. cbn [mbind option_bind] in Hres.
  destruct (mapM _ _) as [made|] eqn:Hmade; [|done]. cbn [mbind option_bind] in *.
  clear Hres results.
  destruct (make_results_spec _ _ _ _ Hmade) as [Hpaths Hmade'].
  assert (Hbound : List.length made <= size (documents idx)).
  { rewrite <- (length_fmap path made), Hpaths, length_fmap.
    by apply (candidates_bounded idx extensions (tokenize query)). }
  eexists. split; [reflexivity|]. split; [|split].
  - intros r Hr. destruct (slice_to_take limit (sort_by_score made)) as (n & Hn & _).
    rewrite Hn in Hr. apply elem_of_take in Hr as (i & Hr & _).
    apply list_elem_of_lookup_2 in Hr. rewrite sort_by_score_perm in Hr.
    destruct (Hmade' r Hr) as (doc & _ & _ & _ & Hin). by apply (Hpos (path r)).
  - pose proof (slice_to_length limit (sort_by_score made)) as Hle.
    rewrite (sort_by_score_perm made) in Hle at 2.
    unfold totalDocs_consistent in Htotal. lia.
  - intros Hlimit p. rewrite slice_to_all.
    2:{ rewrite (sort_by_score_perm made). unfold totalDocs_consistent in Htotal. lia. }
    rewrite (sort_by_score_perm made), Hpaths. split.
    + apply (proj2 Hcand).
    + intros (doc & token & c & Hdoc & Hpass & Htoken & Hc). by apply (Hall token p c doc).
Qed.

(** X8.  On an index whose postings fit the documents and whose
    [totalDocs] counts them, [search] returns a list (every score is a finite
    number), every score in it is positive, it has at most [totalDocs]
    results, and with a limit of at least [totalDocs] its paths are exactly
    the documents that match: stored, passing the extension filter, with a
    posting for at least one of the query tokens. *)
Theorem search_finds_every_match (idx : Index) (query : string)
    (extensions : list string) (limit : Z) :
  postings_sound idx → totalDocs_consistent idx →
  ∃ results,
    search idx query extensions limit = Some results
    ∧ (∀ r, r ∈ results → (0 < score r)%R)
    ∧ (Z.of_nat (List.length results) <= totalDocs idx)%Z
    ∧ ((totalDocs idx <= limit)%Z →
       ∀ p, p ∈ path <$> results ↔ matches idx extensions (tokenize query) p).
Proof. apply search_complete. Qed.

(** ** [update], document by document *)

Lemma kept_refl idx q : kept idx idx q.
Proof. by split. Qed.

Lemma kept_trans a b c q : kept a b q → kept b c q → kept a c q.
Proof. intros [H1 H2] [H3 H4]. split; [congruence|]. intros T. by rewrite H4. Qed.

Lemma fresh_kept env a b q : fresh env a q → kept a b q → fresh env b q.
Proof.
  intros (stats & content & fn & Hs & Hr & Hd & Hp) [H1 H2].
  exists stats, content, fn. split; [done|]. split; [done|]. split; [congruence|].
  intros T. by rewrite H2.
Qed.

Lemma absent_kept a b q : absent a q → kept a b q → absent b q.
Proof. intros [Hd Hp] [H1 H2]. split; [congruence|]. intros T. by rewrite H2. Qed.

Lemma removeDocument_kept f idx q :
  postings_ok idx → q ≠ f → kept idx (removeDocument f idx) q.
Proof.
  intros Hok Hq. split.
  - by rewrite removeDocument_documents, lookup_delete_ne.
  - intros T. rewrite removeDocument_posting by done.
    by rewrite decide_False by (by intros [? _]).
Qed.

Lemma removeDocument_absent_after f idx :
  postings_sound idx → absent (removeDocument f idx) f.
Proof.
  intros (Hok & Hknown & _). split.
  - rewrite removeDocument_documents. apply lookup_delete_eq.
  - intros T. rewrite removeDocument_posting by done.
    destruct (documents idx !! f) as [d|] eqn:Hd.
    + by rewrite decide_True by eauto.
    + rewrite decide_False by (intros [_ [? ?]]; done).
      destruct (posting idx T f) as [c|] eqn:Hp; [|done].
      destruct (Hknown _ _ _ Hp) as [d' Hd']. congruence.
Qed.

Lemma reindex_kept f fn content m e idx q :
  postings_sound idx → q ≠ f →
  kept idx (addDocument f fn content m e (removeDocument f idx)) q.
Proof.
  intros Hsound Hq. split.
  - by rewrite addDocument_record, lookup_insert_ne, removeDocument_documents,
      lookup_delete_ne.
  - intros T. rewrite reindex_posting by done. by rewrite decide_False.
Qed.

Lemma reindex_fresh env f fn content stats idx :
  postings_sound idx →
  statSync env f = Some stats → readFileSync env f = Some content →
  fresh env (addDocument f fn content (st_mtime stats) (extension_of env f)
               (removeDocument f idx)) f.
Proof.
  intros Hsound Hs Hr. exists stats, content, fn. split; [done|]. split; [done|]. split.
  - by rewrite addDocument_record, lookup_insert_eq.
  - intros T. rewrite reindex_posting by done. by rewrite decide_True.
Qed.

(** One round of the loop of [update]. *)
Lemma update_entry_effect env st q doc :
  postings_sound (sweep_index st) →
  let st' := update_entry env st (q, doc) in
  postings_sound (sweep_index st')
  ∧ (∀ D, D ≠ q → kept (sweep_index st) (sweep_index st') D)
  ∧ updated env (sweep_index st) (sweep_index st') q doc
  ∧ sweep_removed st' = (sweep_removed st + if existsSync env q then 0 else 1)%Z
  ∧ sweep_modified st' =
      (sweep_modified st + if existsSync env q && changed_on_disk env q doc then 1 else 0)%Z.
Proof.
  intros Hsound. cbv zeta. unfold update_entry, updated, changed_on_disk.
  destruct (existsSync env q); simpl.
  - destruct (statSync env q) as [stats|] eqn:Hs.
    2:{ split; [done|]. split; [intros; apply kept_refl|]. split; [apply kept_refl|].
        split; lia. }
    destruct (st_mtime stats =? Doc.modified doc)%Z; simpl.
    { split; [done|]. split; [intros; apply kept_refl|].
      split; [destruct (readFileSync env q); apply kept_refl|].
      split; [lia|]. destruct (readFileSync env q); lia. }
    destruct (readFileSync env q) as [content|] eqn:Hr.
    2:{ split; [done|]. split; [intros; apply kept_refl|]. split; [apply kept_refl|].
        split; lia. }
    cbn [sweep_index sweep_removed sweep_modified].
    split; [by apply reindex_sound|].
    split; [intros D HD; by apply reindex_kept|].
    split; [by apply reindex_fresh|]. split; lia.
  - split; [by apply removeDocument_sound|].
    split; [intros D HD; apply removeDocument_kept; [apply Hsound | done]|].
    split; [by apply removeDocument_absent_after|]. split; lia.
Qed.

(** The loop of [update] over entries with different paths. *)
Lemma update_entries_effect env (l : list (string * Document)) : ∀ st,
  NoDup l.*1 → postings_sound (sweep_index st) →
  let st' := foldl (update_entry env) st l in
  postings_sound (sweep_index st')
  ∧ (∀ D, D ∉ l.*1 → kept (sweep_index st) (sweep_index st') D)
  ∧ (∀ q doc, (q, doc) ∈ l → updated env (sweep_index st) (sweep_index st') q doc)
  ∧ sweep_removed st' =
      (sweep_removed st
       + Z.of_nat (List.length (filter (λ e, existsSync env e.1 = false) l)))%Z
  ∧ sweep_modified st' =
      (sweep_modified st
       + Z.of_nat (List.length
           (filter (λ e, existsSync env e.1 && changed_on_disk env e.1 e.2 = true) l)))%Z.
Proof.
  induction l as [|[p d] l IH]; intros st Hnd Hsound; cbv zeta.
  - simpl. split; [done|]. split; [intros; apply kept_refl|].
    split; [intros q doc Hin; by apply elem_of_nil in Hin|]. split; lia.
  - apply NoDup_cons in Hnd as [Hp Hnd]. cbn [foldl].
    destruct (update_entry_effect env st p d Hsound) as (Hs1 & Hk1 & Hu1 & Hr1 & Hm1).
    destruct (IH (update_entry env st (p, d)) Hnd Hs1) as (Hs2 & Hk2 & Hu2 & Hr2 & Hm2).
    split; [done|]. split; [|split; [|split]].
    + intros D HD. apply not_elem_of_cons in HD as [HD1 HD2].
      eapply kept_trans; [by apply Hk1 | by apply Hk2].
    + intros q doc [[= -> ->]|Hin]%elem_of_cons.
      * specialize (Hk2 p Hp). unfold updated in *.
        destruct (existsSync env p); [destruct (changed_on_disk env p d)|].
        -- by eapply fresh_kept.
        -- by eapply kept_trans.
        -- by eapply absent_kept.
      * assert (Hq : q ≠ p).
        { intros ->. apply Hp. apply list_elem_of_fmap. by exists (p, doc). }
        specialize (Hk1 q Hq). specialize (Hu2 q doc Hin). unfold updated in *.
        destruct (existsSync env q); [destruct (changed_on_disk env q doc)|]; try done.
        by eapply kept_trans.
    + rewrite Hr2, Hr1, filter_cons. simpl. destruct (existsSync env p).
      * rewrite decide_False by done. lia.
      * rewrite decide_True by done. simpl. lia.
    + rewrite Hm2, Hm1, filter_cons. simpl.
      destruct (existsSync env p && changed_on_disk env p d).
      * rewrite decide_True by done. simpl. lia.
      * rewrite decide_False by done. lia.
Qed.

(** X9.  What [update] does to the index, path by path, from an index
    whose postings fit, over a file system none of whose files holds the token
    [constructor] or [__proto__], whether it returns or throws.  Of a stored
    document whose file does not exist nothing is left, record or posting; a
    stored document whose file exists, can be read and carries another
    modification time is indexed as the file is now; every other stored
    document keeps its record and its postings; a path that was not stored has
    nothing in the index afterwards.  The report that is returned counts as
    [removed] the stored paths that do not exist and as [modified] those
    indexed anew. *)
Theorem update_refreshes (env : Env) (idx : Index) :
  own_contents env →
  postings_sound idx →
  let idx' := index_of (update env idx) in
  let stored := map_to_list (documents idx) in
  postings_sound idx'
  ∧ (∀ q doc, documents idx !! q = Some doc → updated env idx idx' q doc)
  ∧ (∀ q, documents idx !! q = None → absent idx' q)
  ∧ ∀ idx1 report, update env idx = Returned idx1 report →
      removed report =
        Z.of_nat (List.length (filter (λ e, existsSync env e.1 = false) stored))
      ∧ modified report =
          Z.of_nat (List.length
            (filter (λ e, existsSync env e.1 && changed_on_disk env e.1 e.2 = true) stored)).
Proof.
  intros _ Hsound. cbv zeta.
  destruct (update_entries_effect env (map_to_list (documents idx)) (mkSweep idx 0 0)
              (NoDup_fst_map_to_list _) Hsound) as (Hs & Hk & Hu & Hr & Hm).
  cbn [sweep_index sweep_removed sweep_modified] in *.
  assert (Hidx : index_of (update env idx)
                 = sweep_index (foldl (update_entry env) (mkSweep idx 0 0)
                                  (map_to_list (documents idx)))).
  { unfold update. by destruct (saveIndex env _). }
  rewrite Hidx. split; [done|]. split; [|split].
  - intros q doc Hq. apply Hu. by apply elem_of_map_to_list.
  - intros q Hq. eapply absent_kept; [|apply Hk].
    + split; [done|]. intros T. destruct (posting idx T q) as [c|] eqn:Hp; [|done].
      destruct (proj1 (proj2 Hsound) _ _ _ Hp) as [d Hd]. congruence.
    + intros ([q' d] & -> & Hin%elem_of_map_to_list)%list_elem_of_fmap. simpl in Hq.
      congruence.
  - intros idx1 report. unfold update. destruct (saveIndex env _); [|done].
    intros [= <- <-]. simpl. split; lia.
Qed.

(** *** A second [update] finds nothing to do *)

Lemma update_entry_settled env st q doc :
  settled env q doc → update_entry env st (q, doc) = st.
Proof.
  intros [He Hc]. unfold update_entry, changed_on_disk in *. rewrite He. simpl.
  destruct (statSync env q) as [stats|]; [|done].
  destruct (readFileSync env q); [|by destruct (negb _)]. by rewrite Hc.
Qed.

Lemma update_entries_settled env (l : list (string * Document)) st :
  (∀ q doc, (q, doc) ∈ l → settled env q doc) → foldl (update_entry env) st l = st.
Proof.
  induction l as [|[q doc] l IH]; intros Hl; cbn [foldl]; [done|].
  rewrite update_entry_settled by (apply Hl; left). apply IH.
  intros q' doc' Hin. apply Hl. by right.
Qed.

Lemma update_entry_settles env st q doc :
  let st' := update_entry env st (q, doc) in
  (∀ D, D ≠ q → documents (sweep_index st') !! D = documents (sweep_index st) !! D)
  ∧ (documents (sweep_index st) !! q = Some doc →
     ∀ d', documents (sweep_index st') !! q = Some d' → settled env q d').
Proof.
  cbv zeta. unfold update_entry, settled, changed_on_disk.
  destruct (existsSync env q); simpl.
  - destruct (statSync env q) as [stats|] eqn:Hs.
    { destruct (st_mtime stats =? Doc.modified doc)%Z eqn:Hm; simpl.
      - split; [done|]. intros Hd d' Hd'. assert (d' = doc) as -> by congruence.
        split; [done|]. destruct (readFileSync env q); [by rewrite Hm | done].
      - destruct (readFileSync env q) as [content|] eqn:Hr.
        + cbn [sweep_index]. split.
          * intros D HD. by rewrite addDocument_record, lookup_insert_ne,
              removeDocument_documents, lookup_delete_ne.
          * intros _ d'. rewrite addDocument_record, lookup_insert_eq. intros [= <-].
            simpl. by rewrite Z.eqb_refl.
        + split; done. }
    split; done.
  - split.
    + intros D HD. by rewrite removeDocument_documents, lookup_delete_ne.
    + intros _ d'. by rewrite removeDocument_documents, lookup_delete_eq.
Qed.

Lemma update_entries_settle env (l : list (string * Document)) : ∀ st,
  NoDup l.*1 →
  let st' := foldl (update_entry env) st l in
  (∀ D, D ∉ l.*1 → documents (sweep_index st') !! D = documents (sweep_index st) !! D)
  ∧ (∀ q doc, (q, doc) ∈ l → documents (sweep_index st) !! q = Some doc →
       ∀ d', documents (sweep_index st') !! q = Some d' → settled env q d').
Proof.
  induction l as [|[p d] l IH]; intros st Hnd; cbv zeta.
  - simpl. split; [done|]. intros q doc Hin. by apply elem_of_nil in Hin.
  - apply NoDup_cons in Hnd as [Hp Hnd]. cbn [foldl].
    destruct (update_entry_settles env st p d) as [Hk1 Hs1].
    destruct (IH (update_entry env st (p, d)) Hnd) as [Hk2 Hs2]. split.
    + intros D HD. apply not_elem_of_cons in HD as [HD1 HD2].
      by rewrite Hk2, Hk1.
    + intros q doc [[= -> ->]|Hin]%elem_of_cons Hdoc d'.
      * rewrite Hk2 by done. by apply Hs1.
      * assert (Hq : q ≠ p).
        { intros ->. apply Hp. apply list_elem_of_fmap. by exists (p, doc). }
        apply (Hs2 q doc Hin). by rewrite Hk1.
Qed.

Lemma update_settles env idx q doc :
  documents (index_of (update env idx)) !! q = Some doc → settled env q doc.
Proof.
  assert (Hidx : index_of (update env idx)
                 = sweep_index (foldl (update_entry env) (mkSweep idx 0 0)
                                  (map_to_list (documents idx)))).
  { unfold update. by destruct (saveIndex env _). }
  destruct (update_entries_settle env (map_to_list (documents idx)) (mkSweep idx 0 0)
              (NoDup_fst_map_to_list _)) as [Hk Hs].
  cbn [sweep_index] in Hk, Hs. rewrite <- Hidx in Hk, Hs.
  intros Hd'. destruct (documents idx !! q) as [doc0|] eqn:Hdoc.
  - apply (Hs q doc0); [by apply elem_of_map_to_list | done | done].
  - rewrite Hk in Hd'; [congruence|].
    intros ([q' d] & -> & Hin%elem_of_map_to_list)%list_elem_of_fmap. simpl in Hdoc.
    congruence.
Qed.

(** X10.  After [update], whether it returned or threw, every stored
    document is settled: its file exists, and it carries the modification time
    of the record or cannot be read.  So another [update] over a file system
    that answers the same, now or later, leaves the index as it is and, when
    it returns, reports [removed = 0] and [modified = 0]. *)
Theorem update_twice (env : Env) (idx : Index)
    (write : string → string → bool) (start : Z) (iso : string) (end_ : Z) :
  let idx1 := index_of (update env idx) in
  let again := update (later env write start iso end_) idx1 in
  index_of again = idx1
  ∧ index_of (update env idx1) = idx1
  ∧ (∀ q doc, documents idx1 !! q = Some doc → settled env q doc)
  ∧ ∀ idx2 report, again = Returned idx2 report →
      removed report = 0%Z ∧ modified report = 0%Z.
Proof.
  cbv zeta. set (idx1 := index_of (update env idx)).
  assert (Hsettled : ∀ q doc, documents idx1 !! q = Some doc → settled env q doc).
  { intros q doc. apply update_settles. }
  assert (Hfold : ∀ e, (∀ q doc, settled e q doc ↔ settled env q doc) →
            foldl (update_entry e) (mkSweep idx1 0 0) (map_to_list (documents idx1))
            = mkSweep idx1 0 0).
  { intros e He. apply update_entries_settled.
    intros q doc Hin%elem_of_map_to_list. apply He. by apply Hsettled. }
  assert (Hrun : ∀ e, (∀ q doc, settled e q doc ↔ settled env q doc) →
            update e idx1 = if saveIndex e idx1
                            then Returned idx1 (mkUpdateReport 0 0 0) else Thrown idx1).
  { intros e He. unfold update. by rewrite (Hfold e He). }
  rewrite (Hrun (later env write start iso end_)) by done.
  rewrite (Hrun env) by done.
  split; [by destruct (saveIndex _ idx1)|]. split; [by destruct (saveIndex _ idx1)|].
  split; [done|]. intros idx2 report. destruct (saveIndex _ idx1); [|done].
  by intros [= <- <-].
Qed.

(** ** The crawl *)

(** A property of the state of the crawl that the visit of a file keeps is
    kept by the walk, whether it ends or is cut short. *)
Section CrawlInvariant.
Variable env : Env.
Variable patterns : list string.
Variable dirPath : string.
Variable Q : Crawl → Prop.
Hypothesis Q_visit : ∀ currentPath name st,
  Q st → Q (visit_file env patterns dirPath currentPath name st).

Lemma walkEntry_invariant entry : ∀ currentPath st,
  Q st → Q (crawl_of (walkEntry env patterns dirPath currentPath entry st)).
Proof.
  induction entry as [name | name | name | name entries IH] using Dirent_tree_ind;
    intros currentPath st Hst.
  - simpl. by apply Q_visit.
  - done.
  - rewrite walkEntry_dir. by destruct (ignores _ _).
  - rewrite walkEntry_dir. destruct (ignores _ _); [done|]. simpl.
    generalize dependent st.
    induction IH as [|e es He _ IHes]; intros st Hst; simpl; [done|].
    specialize (He (path_join env currentPath name) st Hst).
    destruct (walkEntry env patterns dirPath (path_join env currentPath name) e st); simpl in *.
    + by apply IHes.
    + done.
Qed.

Lemma walkEntries_invariant currentPath entries : ∀ st,
  Q st → Q (crawl_of (walkEntries env patterns dirPath currentPath entries st)).
Proof.
  induction entries as [|e es IH]; intros st Hst; simpl; [done|].
  pose proof (walkEntry_invariant e currentPath st Hst) as He.
  destruct (walkEntry env patterns dirPath currentPath e st); simpl in *; [by apply IH | done].
Qed.

Lemma walkDir_invariant currentPath listing st :
  Q st → Q (crawl_of (walkDir env patterns dirPath currentPath listing st)).
Proof.
  intros Hst. destruct listing as [entries|]; simpl; [|done]. by apply walkEntries_invariant.
Qed.
End CrawlInvariant.

(** *** What a run without [force] leaves of the index *)

Lemma crawled_kept env patterns dirPath a b q :
  crawled env patterns dirPath a q → kept a b q → crawled env patterns dirPath b q.
Proof. intros (Hf & Hrest) Hk. split; [by eapply fresh_kept | done]. Qed.

Lemma index_file_reindex fullPath idx :
  match documents idx !! fullPath with
  | Some _ => removeDocument fullPath idx
  | None => idx
  end = removeDocument fullPath idx.
Proof.
  destruct (documents idx !! fullPath) eqn:Hd; [done|]. by rewrite removeDocument_absent.
Qed.

Lemma index_file_inv env patterns dirPath idx0 fullPath name st :
  crawl_inv env patterns dirPath idx0 st →
  ignores patterns (path_relative env dirPath fullPath) = false →
  isBinaryFile env fullPath = false →
  crawl_inv env patterns dirPath idx0 (index_file env fullPath name st).
Proof.
  intros (Hsound & Hq & Hfi & Hbf & Hig & Htotal) Hign Hbin. unfold index_file.
  destruct (statSync env fullPath) as [stats|] eqn:Hs.
  2:{ repeat (split; [done || (simpl; lia)|]). simpl. lia. }
  destruct (MAX_FILE_SIZE <? st_size stats)%Z eqn:Hsize; [done|].
  destruct (match documents (crawl_index st) !! fullPath with
            | Some doc => (Doc.modified doc =? st_mtime stats)%Z
            | None => false
            end); [done|].
  destruct (readFileSync env fullPath) as [content|] eqn:Hr.
  2:{ repeat (split; [done || (simpl; lia)|]). simpl. lia. }
  cbv zeta. rewrite (index_file_reindex fullPath (crawl_index st)).
  split; [|split; [|split; [|split; [|split]]]]; cbn [crawl_index filesIndexed binaryFiles ignoredFiles];
    try lia.
  - by apply reindex_sound.
  - intros q. destruct (decide (q = fullPath)) as [->|Hne].
    + right. split; [by apply reindex_fresh|]. split; [done|]. split; [done|].
      intros stats' Hs'. rewrite Hs in Hs'. injection Hs' as <-.
      apply Z.ltb_ge in Hsize. exact Hsize.
    + pose proof (reindex_kept fullPath name content (st_mtime stats)
                    (extension_of env fullPath) (crawl_index st) q Hsound Hne) as Hk.
      destruct (Hq q) as [Hold|Hold]; [left; by eapply kept_trans | right; by eapply crawled_kept].
  - rewrite addDocument_totalDocs, removeDocument_totalDocs_dec. case_decide; lia.
Qed.

Lemma visit_file_inv env patterns dirPath idx0 currentPath name st :
  crawl_inv env patterns dirPath idx0 st →
  crawl_inv env patterns dirPath idx0 (visit_file env patterns dirPath currentPath name st).
Proof.
  intros Hst. unfold visit_file. destruct (ignores _ _) eqn:Hign.
  { destruct Hst as (? & ? & ? & ? & ? & ?).
    repeat (split; [done || (simpl; lia)|]). simpl. lia. }
  destruct (isBinaryFile env _) eqn:Hbin.
  { destruct Hst as (? & ? & ? & ? & ? & ?).
    repeat (split; [done || (simpl; lia)|]). simpl. lia. }
  by apply index_file_inv.
Qed.

(** What a run leaves, from the index [idx0] of the start of its walk. *)
Lemma indexDirectory_run env dirPath (force : bool) idx :
  let idx0 := if force then clear_directory dirPath idx else idx in
  postings_sound idx0 →
  (loadIgnorePatterns env dirPath = None
   ∧ indexDirectory env dirPath force idx = Thrown idx)
  ∨ ∃ patterns st,
      loadIgnorePatterns env dirPath = Some patterns
      ∧ crawl_inv env patterns dirPath idx0 st
      ∧ crawl_index st = index_of (indexDirectory env dirPath force idx)
      ∧ ∀ idx1 report, indexDirectory env dirPath force idx = Returned idx1 report →
          report_filesIndexed report = filesIndexed st
          ∧ report_binaryFiles report = binaryFiles st
          ∧ report_ignoredFiles report = ignoredFiles st.
Proof.
  cbv zeta. intros Hsound. unfold indexDirectory.
  destruct (loadIgnorePatterns env dirPath) as [patterns|] eqn:Hpat; [|by left].
  right. exists patterns.
  set (idx0 := if force then clear_directory dirPath idx else idx) in *.
  assert (H0 : crawl_inv env patterns dirPath idx0 (mkCrawl idx0 0 0 0)).
  { split; [done|]. split; [intros q; left; apply kept_refl|]. simpl. lia. }
  pose proof (walkDir_invariant env patterns dirPath (crawl_inv env patterns dirPath idx0)
                (visit_file_inv env patterns dirPath idx0)
                dirPath (readdirSync env dirPath) _ H0) as Hw.
  destruct (walkDir _ _ _ _ _ _) as [st|st]; simpl in Hw.
  - exists (mkCrawl (set_lastUpdated (Some (isoTime env)) (crawl_index st))
              (filesIndexed st) (binaryFiles st) (ignoredFiles st)).
    split; [done|]. split.
    { destruct Hw as (? & ? & ?). split; [by apply postings_sound_stamp|]. split; done. }
    cbn [crawl_index filesIndexed binaryFiles ignoredFiles].
    destruct (saveIndex env _); simpl; [|done]. split; [done|].
    by intros idx1 report [= <- <-].
  - exists st. split; [done|]. split; [done|]. split; done.
Qed.

Lemma crawl_inv_dom env patterns dirPath idx0 st :
  crawl_inv env patterns dirPath idx0 st →
  dom (documents idx0) ⊆ dom (documents (crawl_index st)).
Proof.
  intros (_ & Hq & _) q [d Hd]%elem_of_dom. apply elem_of_dom.
  destruct (Hq q) as [[Hk _]|((stats & content & fn & _ & _ & Hdoc & _) & _)].
  - rewrite Hk, Hd. eauto.
  - rewrite Hdoc. eauto.
Qed.

(** X11.  A run of [indexDirectory] without [force], from an index
    whose postings fit, over a file system none of whose files holds the token
    [constructor] or [__proto__], whether it returns or throws.  The postings
    still fit.  Every path either keeps its record and its postings, or was
    indexed by the run: then its record and its postings are those of the file
    as [statSync] and [readFileSync] give it, no pattern ignores its relative
    path, its extension is not binary and its size is at most 5 MB.  No stored
    path is lost and [totalDocs] does not drop.  The counters of the report
    are not negative, and [totalDocs] grows by at most [filesIndexed]. *)
Theorem indexDirectory_incremental (env : Env) (dirPath : string) (idx : Index) :
  own_contents env →
  postings_sound idx →
  let idx' := index_of (indexDirectory env dirPath false idx) in
  postings_sound idx'
  ∧ (∀ q, kept idx idx' q
          ∨ ∃ patterns, loadIgnorePatterns env dirPath = Some patterns
                        ∧ crawled env patterns dirPath idx' q)
  ∧ dom (documents idx) ⊆ dom (documents idx')
  ∧ (totalDocs idx <= totalDocs idx')%Z
  ∧ ∀ idx1 report, indexDirectory env dirPath false idx = Returned idx1 report →
      (0 <= report_filesIndexed report)%Z
      ∧ (0 <= report_binaryFiles report)%Z
      ∧ (0 <= report_ignoredFiles report)%Z
      ∧ (totalDocs idx1 <= totalDocs idx + report_filesIndexed report)%Z.
Proof.
  intros _ Hsound. cbv zeta.
  destruct (indexDirectory_run env dirPath false idx Hsound)
    as [[_ ->]|(patterns & st & Hpat & Hinv & Hidx & Hrep)].
  { simpl. split; [done|]. split; [intros q; left; apply kept_refl|].
    split; [done|]. split; [lia | done]. }
  pose proof (crawl_inv_dom _ _ _ _ _ Hinv) as Hdom.
  destruct Hinv as (Hs & Hq & Hfi & Hbf & Hig & Htotal). rewrite <- Hidx.
  split; [done|]. split; [|split; [done|split; [lia|]]].
  - intros q. destruct (Hq q) as [Hk|Hc]; [by left|]. right. by exists patterns.
  - intros idx1 report Hret. destruct (Hrep idx1 report Hret) as (-> & -> & ->).
    rewrite Hret in Hidx. simpl in Hidx. subst idx1. lia.
Qed.

Lemma clear_directory_absent dirPath idx q :
  postings_sound idx → startsWith q dirPath = true →
  absent (clear_directory dirPath idx) q.
Proof.
  intros Hsound Hpre.
  assert (Hs : postings_sound (clear_directory dirPath idx)).
  { apply (clear_directory_preserves postings_sound); [|done].
    intros. by apply removeDocument_sound. }
  assert (Hd : documents (clear_directory dirPath idx) !! q = None).
  { by rewrite clear_directory_documents, Hpre. }
  split; [done|]. intros T.
  destruct (posting (clear_directory dirPath idx) T q) as [c|] eqn:Hp; [|done].
  destruct (proj1 (proj2 Hs) _ _ _ Hp) as [d Hd']. congruence.
Qed.

(** X12.  A run of [indexDirectory] with [force], from an index whose
    postings fit, over a file system none of whose files holds the token
    [constructor] or [__proto__], when the ignore file can be read.  A path
    that begins with the text of [dirPath] is indexed by the run or has
    nothing left in the index, record or posting: no stale document outlives
    the run there.  Any other path is indexed by the run or keeps its record
    and its postings. *)
Theorem indexDirectory_forced (env : Env) (dirPath : string) (idx : Index)
    (patterns : list string) :
  own_contents env →
  postings_sound idx →
  loadIgnorePatterns env dirPath = Some patterns →
  let idx' := index_of (indexDirectory env dirPath true idx) in
  ∀ q, crawled env patterns dirPath idx' q
       ∨ if startsWith q dirPath then absent idx' q else kept idx idx' q.
Proof.
  intros _ Hsound Hpat. cbv zeta.
  assert (Hs : postings_sound (clear_directory dirPath idx)).
  { apply (clear_directory_preserves postings_sound); [|done].
    intros. by apply removeDocument_sound. }
  destruct (indexDirectory_run env dirPath true idx Hs)
    as [[Hnone _]|(patterns' & st & Hpat' & Hinv & <- & _)]; [congruence|].
  assert (patterns' = patterns) as -> by congruence.
  destruct Hinv as (_ & Hq & _). intros q.
  destruct (Hq q) as [Hk|Hc]; [|by left]. right.
  destruct (startsWith q dirPath) eqn:Hpre.
  - eapply absent_kept; [|exact Hk]. by apply clear_directory_absent.
  - eapply kept_trans; [|exact Hk].
    destruct (clear_directory_frame dirPath idx q (proj1 Hsound) Hpre) as [Hd Hp].
    by split.
Qed.

(** *** A second run finds nothing to index *)

Lemma current_refl env idx : current env idx idx.
Proof. intros q. by left. Qed.

Lemma current_trans env a b c : current env a b → current env b c → current env a c.
Proof.
  intros Hab Hbc q. destruct (Hbc q) as [Hq|Hq]; [|by right].
  destruct (Hab q) as [Hq'|(stats & content & doc & ? & ? & ? & ?)].
  - left. congruence.
  - right. exists stats, content, doc. rewrite Hq. done.
Qed.

Lemma current_documents env a b c :
  current env a b → documents c = documents b → current env a c.
Proof. intros Hab Hc q. rewrite Hc. apply Hab. Qed.

Lemma index_file_current env fullPath name st :
  current env (crawl_index st) (crawl_index (index_file env fullPath name st)).
Proof.
  unfold index_file. destruct (statSync env fullPath) as [stats|] eqn:Hs;
    [|apply current_refl].
  destruct (MAX_FILE_SIZE <? st_size stats)%Z; [apply current_refl|].
  destruct (match documents (crawl_index st) !! fullPath with
            | Some doc => (Doc.modified doc =? st_mtime stats)%Z
            | None => false
            end); [apply current_refl|].
  destruct (readFileSync env fullPath) as [content|] eqn:Hr; [|apply current_refl].
  cbv zeta. rewrite (index_file_reindex fullPath (crawl_index st)). cbn [crawl_index].
  intros q. rewrite addDocument_record. destruct (decide (q = fullPath)) as [->|Hne].
  - right. eexists stats, content, _. rewrite lookup_insert_eq. done.
  - left. by rewrite lookup_insert_ne, removeDocument_documents, lookup_delete_ne.
Qed.

Lemma visit_file_current env idx0 patterns dirPath currentPath name st :
  current env idx0 (crawl_index st) →
  current env idx0 (crawl_index (visit_file env patterns dirPath currentPath name st)).
Proof.
  intros Hst. unfold visit_file. destruct (ignores _ _); [done|].
  destruct (isBinaryFile env _); [done|].
  eapply current_trans; [exact Hst | apply index_file_current].
Qed.

Lemma walkEntry_current env patterns dirPath currentPath entry st :
  current env (crawl_index st)
    (crawl_index (crawl_of (walkEntry env patterns dirPath currentPath entry st))).
Proof.
  apply (walkEntry_invariant env patterns dirPath
           (λ s, current env (crawl_index st) (crawl_index s))).
  - intros. by apply visit_file_current.
  - apply current_refl.
Qed.

Lemma walkEntries_current env patterns dirPath currentPath entries st :
  current env (crawl_index st)
    (crawl_index (crawl_of (walkEntries env patterns dirPath currentPath entries st))).
Proof.
  apply (walkEntries_invariant env patterns dirPath
           (λ s, current env (crawl_index st) (crawl_index s))).
  - intros. by apply visit_file_current.
  - apply current_refl.
Qed.

Lemma replay_same st st2 : replay st st st2 (crawl_index st2) = st2.
Proof. destruct st2. unfold replay. simpl. f_equal; lia. Qed.

Lemma replay_trans st st' st'' st2 idx :
  replay st' st'' (replay st st' st2 idx) idx = replay st st'' st2 idx.
Proof. unfold replay. simpl. f_equal; lia. Qed.

(** The [try] block for a file that an earlier visit has dealt with. *)
Lemma index_file_again env fullPath name st st2 :
  current env (crawl_index (index_file env fullPath name st)) (crawl_index st2) →
  index_file env fullPath name st2
  = replay st (index_file env fullPath name st) st2 (crawl_index st2).
Proof.
  unfold index_file. destruct (statSync env fullPath) as [stats|] eqn:Hs.
  2:{ intros _. destruct st2. unfold replay. simpl. f_equal; lia. }
  destruct (MAX_FILE_SIZE <? st_size stats)%Z; [by rewrite replay_same|].
  intros Hcur.
  assert (Hunchanged : ∀ doc', Doc.modified doc' = st_mtime stats →
            (Doc.modified doc' =? st_mtime stats)%Z = true).
  { intros doc' ->. apply Z.eqb_refl. }
  destruct (documents (crawl_index st) !! fullPath) as [doc|] eqn:Hdoc.
  - destruct (Doc.modified doc =? st_mtime stats)%Z eqn:Hm.
    + (* unchanged at the first visit *)
      destruct (Hcur fullPath) as [Hq|(stats' & content' & doc' & Hs' & _ & Hq & Hm')].
      * rewrite Hq, Hdoc, Hm. by rewrite replay_same.
      * rewrite Hq. rewrite Hs in Hs'. injection Hs' as <-.
        rewrite (Hunchanged doc' Hm'). by rewrite replay_same.
    + destruct (readFileSync env fullPath) as [content|] eqn:Hr.
      * (* re-indexed at the first visit *)
        cbn [crawl_index] in Hcur.
        assert (Hnow : ∃ doc', documents (crawl_index st2) !! fullPath = Some doc'
                               ∧ Doc.modified doc' = st_mtime stats).
        { destruct (Hcur fullPath) as [Hq|(stats' & content' & doc' & Hs' & _ & Hq & Hm')].
          - rewrite Hq, addDocument_record, lookup_insert_eq. eauto.
          - rewrite Hs in Hs'. injection Hs' as <-. eauto. }
        destruct Hnow as (doc' & -> & Hm'). rewrite (Hunchanged doc' Hm').
        destruct st2. unfold replay. simpl. f_equal; lia.
      * (* unreadable at the first visit *)
        cbn [crawl_index] in Hcur.
        destruct (Hcur fullPath) as [Hq|(stats' & content' & doc' & _ & Hr' & _)];
          [|congruence].
        rewrite Hq, Hdoc, Hm. destruct st2. unfold replay. simpl. f_equal; lia.
  - destruct (readFileSync env fullPath) as [content|] eqn:Hr.
    + cbn [crawl_index] in Hcur.
      assert (Hnow : ∃ doc', documents (crawl_index st2) !! fullPath = Some doc'
                             ∧ Doc.modified doc' = st_mtime stats).
      { destruct (Hcur fullPath) as [Hq|(stats' & content' & doc' & Hs' & _ & Hq & Hm')].
        - rewrite Hq, addDocument_record, lookup_insert_eq. eauto.
        - rewrite Hs in Hs'. injection Hs' as <-. eauto. }
      destruct Hnow as (doc' & -> & Hm'). rewrite (Hunchanged doc' Hm').
      destruct st2. unfold replay. simpl. f_equal; lia.
    + cbn [crawl_index] in Hcur.
      destruct (Hcur fullPath) as [Hq|(stats' & content' & doc' & _ & Hr' & _)];
        [|congruence].
      rewrite Hq, Hdoc. destruct st2. unfold replay. simpl. f_equal; lia.
Qed.

Lemma visit_file_again env patterns dirPath currentPath name st st2 :
  current env (crawl_index (visit_file env patterns dirPath currentPath name st))
    (crawl_index st2) →
  visit_file env patterns dirPath currentPath name st2
  = replay st (visit_file env patterns dirPath currentPath name st) st2 (crawl_index st2).
Proof.
  unfold visit_file. destruct (ignores _ _).
  { intros _. destruct st2. unfold replay. simpl. f_equal; lia. }
  destruct (isBinaryFile env _).
  { intros _. destruct st2. unfold replay. simpl. f_equal; lia. }
  apply index_file_again.
Qed.

Lemma walkEntries_again_from env patterns dirPath currentPath (entries : list Dirent) :
  Forall (λ entry, ∀ currentPath st st2,
            current env
              (crawl_index (crawl_of (walkEntry env patterns dirPath currentPath entry st)))
              (crawl_index st2) →
            walkEntry env patterns dirPath currentPath entry st2
            = replayed (walkEntry env patterns dirPath currentPath entry st) st st2
                (crawl_index st2)) entries →
  ∀ st st2,
    current env
      (crawl_index (crawl_of (walkEntries env patterns dirPath currentPath entries st)))
      (crawl_index st2) →
    walkEntries env patterns dirPath currentPath entries st2
    = replayed (walkEntries env patterns dirPath currentPath entries st) st st2
        (crawl_index st2).
Proof.
  induction 1 as [|e es He _ IHes]; intros st st2 Hcur; simpl.
  - by rewrite replay_same.
  - simpl in Hcur. specialize (He currentPath st st2).
    destruct (walkEntry env patterns dirPath currentPath e st) as [st'|st'] eqn:Hw.
    + rewrite He.
      2:{ eapply current_trans; [|exact Hcur]. apply walkEntries_current. }
      simpl. rewrite (IHes st' (replay st st' st2 (crawl_index st2))) by exact Hcur.
      cbn [replay crawl_index].
      destruct (walkEntries env patterns dirPath currentPath es st'); simpl;
        by rewrite replay_trans.
    + rewrite He by exact Hcur. done.
Qed.

Lemma walkEntry_again env patterns dirPath entry : ∀ currentPath st st2,
  current env
    (crawl_index (crawl_of (walkEntry env patterns dirPath currentPath entry st)))
    (crawl_index st2) →
  walkEntry env patterns dirPath currentPath entry st2
  = replayed (walkEntry env patterns dirPath currentPath entry st) st st2 (crawl_index st2).
Proof.
  induction entry as [name | name | name | name entries IH] using Dirent_tree_ind;
    intros currentPath st st2 Hcur.
  - simpl in *. f_equal. by apply visit_file_again.
  - simpl. by rewrite replay_same.
  - rewrite !walkEntry_dir. destruct (ignores _ _); simpl; by rewrite replay_same.
  - rewrite !walkEntry_dir in *. destruct (ignores _ _); [simpl; by rewrite replay_same|].
    simpl in *. by apply walkEntries_again_from.
Qed.

Lemma walkDir_again env patterns dirPath currentPath listing st st2 :
  current env
    (crawl_index (crawl_of (walkDir env patterns dirPath currentPath listing st)))
    (crawl_index st2) →
  walkDir env patterns dirPath currentPath listing st2
  = replayed (walkDir env patterns dirPath currentPath listing st) st st2 (crawl_index st2).
Proof.
  destruct listing as [entries|]; simpl; [|by rewrite replay_same].
  apply walkEntries_again_from. apply Forall_forall. intros entry _.
  apply walkEntry_again.
Qed.

Lemma set_lastUpdated_twice v idx :
  set_lastUpdated v (set_lastUpdated v idx) = set_lastUpdated v idx.
Proof. reflexivity. Qed.

Lemma walkEntry_later env write start iso end_ patterns dirPath entry : ∀ currentPath st,
  walkEntry (later env write start iso end_) patterns dirPath currentPath entry st
  = walkEntry env patterns dirPath currentPath entry st.
Proof.
  induction entry as [name | name | name | name entries IH] using Dirent_tree_ind;
    intros currentPath st; try reflexivity.
  rewrite !walkEntry_dir.
  change (path_relative (later env write start iso end_)) with (path_relative env).
  change (path_join (later env write start iso end_)) with (path_join env).
  destruct (ignores _ _); [done|]. simpl. revert st.
  induction IH as [|e es He _ IHes]; intros st; simpl; [done|].
  rewrite He. destruct (walkEntry env _ _ _ e st); [apply IHes | done].
Qed.

Lemma walkDir_later env write start iso end_ patterns dirPath currentPath listing st :
  walkDir (later env write start iso end_) patterns dirPath currentPath listing st
  = walkDir env patterns dirPath currentPath listing st.
Proof.
  destruct listing as [entries|]; simpl; [|done]. revert st.
  induction entries as [|e es IH]; intros st; simpl; [done|].
  rewrite walkEntry_later. destruct (walkEntry env _ _ _ e st); [apply IH | done].
Qed.

(** X13.  After a run of [indexDirectory], forced or not, returned or
    thrown, a run without [force] over a file system that answers the same
    finds nothing to index: it leaves the index as it is, but for the time
    stamp of the later run; when it returns, it reports [filesIndexed = 0], and
    the same [binaryFiles] and [ignoredFiles] as the first run if that
    returned. *)
Theorem indexDirectory_twice (env : Env) (dirPath : string) (force : bool) (idx : Index)
    (write : string → string → bool) (start : Z) (iso : string) (end_ : Z) :
  let idx1 := index_of (indexDirectory env dirPath force idx) in
  let again := indexDirectory (later env write start iso end_) dirPath false idx1 in
  (index_of again = idx1 ∨ index_of again = set_lastUpdated (Some iso) idx1)
  ∧ index_of (indexDirectory env dirPath false idx1) = idx1
  ∧ ∀ idx2 report2, again = Returned idx2 report2 →
      idx2 = set_lastUpdated (Some iso) idx1
      ∧ report_filesIndexed report2 = 0%Z
      ∧ ∀ report, indexDirectory env dirPath force idx = Returned idx1 report →
          report_binaryFiles report2 = report_binaryFiles report
          ∧ report_ignoredFiles report2 = report_ignoredFiles report.
Proof.
  cbv zeta. set (env' := later env write start iso end_).
  assert (Hpat' : loadIgnorePatterns env' dirPath = loadIgnorePatterns env dirPath)
    by reflexivity.
  destruct (loadIgnorePatterns env dirPath) as [patterns|] eqn:Hpat.
  2:{ assert (Hrun : ∀ f i, indexDirectory env dirPath f i = Thrown i).
      { intros f i. unfold indexDirectory. by rewrite Hpat. }
      assert (Hrun' : ∀ f i, indexDirectory env' dirPath f i = Thrown i).
      { intros f i. unfold indexDirectory. by rewrite Hpat'. }
      rewrite !Hrun. cbn [index_of]. rewrite ?Hrun, ?Hrun'. cbn [index_of].
      split; [by left|]. split; done. }
  set (idx0 := if force then clear_directory dirPath idx else idx).
  assert (Hsecond : ∀ e i st,
            loadIgnorePatterns e dirPath = Some patterns →
            walkDir e patterns dirPath dirPath (readdirSync e dirPath) (mkCrawl i 0 0 0)
            = walkDir env patterns dirPath dirPath (readdirSync env dirPath) (mkCrawl i 0 0 0) →
            walkDir env patterns dirPath dirPath (readdirSync env dirPath) (mkCrawl idx0 0 0 0)
            = st →
            current env (crawl_index (crawl_of st)) i →
            indexDirectory e dirPath false i =
            match st with
            | Finished st =>
                if saveIndex e (set_lastUpdated (Some (isoTime e)) i)
                then Returned (set_lastUpdated (Some (isoTime e)) i)
                       (mkIndexReport 0 (binaryFiles st) (ignoredFiles st)
                          (endTime e - startTime e))
                else Thrown (set_lastUpdated (Some (isoTime e)) i)
            | Aborted _ => Thrown i
            end).
  { intros e i st He Hw Hwalk Hcur. unfold indexDirectory. rewrite He, Hw.
    rewrite (walkDir_again env patterns dirPath dirPath (readdirSync env dirPath)
               (mkCrawl idx0 0 0 0) (mkCrawl i 0 0 0)); rewrite Hwalk; [|exact Hcur].
    destruct st as [st|st]; cbn [replayed replay crawl_index filesIndexed binaryFiles
                                   ignoredFiles]; [|done].
    destruct (saveIndex e _); [|done]. do 2 f_equal; lia. }
  destruct (walkDir env patterns dirPath dirPath (readdirSync env dirPath)
              (mkCrawl idx0 0 0 0)) as [st|st] eqn:Hwalk.
  - set (idx1 := set_lastUpdated (Some (isoTime env)) (crawl_index st)).
    assert (Hfirst : indexDirectory env dirPath force idx =
              if saveIndex env idx1
              then Returned idx1 (mkIndexReport (filesIndexed st) (binaryFiles st)
                                    (ignoredFiles st) (endTime env - startTime env))
              else Thrown idx1).
    { unfold indexDirectory. rewrite Hpat. fold idx0. by rewrite Hwalk. }
    assert (Hidx1 : index_of (indexDirectory env dirPath force idx) = idx1).
    { rewrite Hfirst. by destruct (saveIndex env idx1). }
    rewrite Hidx1.
    assert (Hcur : current env (crawl_index (crawl_of (Finished st))) idx1).
    { by apply (current_documents env _ (crawl_index st)); [apply current_refl|]. }
    rewrite (Hsecond env' idx1 (Finished st) Hpat'
               (walkDir_later _ _ _ _ _ _ _ _ _ _) eq_refl Hcur).
    rewrite (Hsecond env idx1 (Finished st) Hpat eq_refl eq_refl Hcur).
    change (isoTime env') with iso.
    replace (set_lastUpdated (Some (isoTime env)) idx1) with idx1 by reflexivity.
    split; [by destruct (saveIndex env' _); right|].
    split; [by destruct (saveIndex env idx1)|].
    intros idx2 report2. destruct (saveIndex env' _); [|done]. intros [= <- <-].
    split; [done|]. split; [done|]. intros report. rewrite Hfirst.
    destruct (saveIndex env idx1); [|done]. by intros [= <-].
  - assert (Hfirst : indexDirectory env dirPath force idx = Thrown (crawl_index st)).
    { unfold indexDirectory. rewrite Hpat. fold idx0. by rewrite Hwalk. }
    rewrite Hfirst. cbn [index_of].
    rewrite (Hsecond env' (crawl_index st) (Aborted st)
               Hpat' (walkDir_later _ _ _ _ _ _ _ _ _ _) eq_refl (current_refl env _)).
    rewrite (Hsecond env (crawl_index st) (Aborted st)
               Hpat eq_refl eq_refl (current_refl env _)).
    split; [by left|]. split; done.
Qed.

(** ** More on the tokenizer *)

Lemma lower_char_idem c : lower_char (lower_char c) = lower_char c.
Proof. destruct c as [[] [] [] [] [] [] [] []]; reflexivity. Qed.

Lemma word_char_lower c : is_word_char c = true → lower_char c = c.
Proof. destruct c as [[] [] [] [] [] [] [] []]; vm_compute; congruence. Qed.

Lemma toLowerCase_idem s : toLowerCase (toLowerCase s) = toLowerCase s.
Proof.
  unfold toLowerCase. induction s as [|c s IH]; simpl; [done|].
  by rewrite lower_char_idem, IH.
Qed.

Lemma toLowerCase_word s : all_chars is_word_char s → toLowerCase s = s.
Proof.
  unfold toLowerCase. induction s as [|c s IH]; simpl; [done|].
  intros [Hc Hs]%all_chars_cons. by rewrite word_char_lower, IH.
Qed.

Lemma toLowerCase_app s t : toLowerCase (s ++ t) = (toLowerCase s ++ toLowerCase t)%string.
Proof.
  unfold toLowerCase. induction s as [|c s IH]; simpl; [done|].
  by rewrite !append_cons, <- IH.
Qed.

Lemma word_runs_from_chars s : ∀ cur r,
  all_chars is_word_char cur → r ∈ word_runs_from cur s →
  r ≠ EmptyString ∧ all_chars is_word_char r.
Proof.
  assert (Hflush : ∀ cur r, all_chars is_word_char cur → r ∈ flush cur →
                            r ≠ EmptyString ∧ all_chars is_word_char r).
  { intros [|d cur] r Hcur Hr; simpl in Hr.
    - by apply elem_of_nil in Hr.
    - apply list_elem_of_singleton in Hr as ->. done. }
  induction s as [|c s IH]; intros cur r Hcur; simpl.
  - intros Hr. by apply (Hflush cur).
  - destruct (is_word_char c) eqn:Hc.
    + apply IH. by apply all_chars_snoc.
    + intros [Hr|Hr]%elem_of_app; [by apply (Hflush cur)|].
      apply (IH EmptyString); [apply all_chars_nil | done].
Qed.

Lemma word_runs_word t :
  t ≠ EmptyString → all_chars is_word_char t → word_runs t = [t].
Proof.
  intros Hne Ht. unfold word_runs. rewrite <- (app_empty_r t) at 1.
  rewrite word_runs_from_run by done. simpl. by destruct t.
Qed.

Lemma word_runs_from_sep s c t : ∀ cur,
  is_word_char c = false →
  word_runs_from cur (s ++ String c t) = (word_runs_from cur s ++ word_runs t)%list.
Proof.
  intros cur Hc. revert cur. induction s as [|d s IH]; intros cur.
  - rewrite append_nil. simpl. by rewrite Hc.
  - rewrite append_cons. simpl. destruct (is_word_char d).
    + apply IH.
    + by rewrite IH, app_assoc.
Qed.

Lemma length_ok_bounds w :
  length_ok w = true ↔ 2 <= String.length w <= 50.
Proof.
  unfold length_ok. rewrite andb_true_iff, !Nat.leb_le. done.
Qed.

Lemma token_wellformed text t :
  t ∈ tokenize text → length_ok t = true ∧ all_chars is_word_char t.
Proof.
  rewrite tokenize_runs. unfold tokenize_spec.
  intros [Hlen Hin]%list_elem_of_filter. split; [done|].
  by apply (word_runs_from_chars (toLowerCase text) EmptyString t (all_chars_nil _)).
Qed.

Lemma tokenize_token t :
  length_ok t = true → all_chars is_word_char t → tokenize t = [t].
Proof.
  intros Hlen Ht. rewrite tokenize_runs. unfold tokenize_spec.
  rewrite toLowerCase_word by done. rewrite word_runs_word; [|by destruct t|done].
  rewrite filter_cons, decide_True by done. done.
Qed.

(** X14.  What a token is: a string of 2 to 50 characters of [[a-z0-9_]],
    which lower-casing leaves as it is and which is its own and only token. *)
Theorem tokens_are_words (text t : string) :
  t ∈ tokenize text →
  2 <= String.length t <= 50
  ∧ all_chars is_word_char t
  ∧ toLowerCase t = t
  ∧ tokenize t = [t].
Proof.
  intros [Hlen Ht]%token_wellformed. split; [by apply length_ok_bounds|].
  split; [done|]. split; [by apply toLowerCase_word | by apply tokenize_token].
Qed.

(** X15.  The tokens of a text do not depend on its case, so neither
    does a search for it; and the tokens of a text with an ASCII character
    in it that is no letter, digit or underscore (its lower case is no word
    character) are the tokens of what is before the character, then the
    tokens of what is after it. *)
Theorem tokenize_case_and_concat (text : string) :
  tokenize (toLowerCase text) = tokenize text
  ∧ (∀ idx extensions limit,
       search idx (toLowerCase text) extensions limit = search idx text extensions limit)
  ∧ ∀ c rest, is_ascii c = true → is_word_char (lower_char c) = false →
      tokenize (text ++ String c rest) = (tokenize text ++ tokenize rest)%list.
Proof.
  assert (Hcase : tokenize (toLowerCase text) = tokenize text).
  { unfold tokenize. by rewrite toLowerCase_idem. }
  split; [done|]. split.
  - intros idx extensions limit. unfold search. by rewrite Hcase.
  - intros c rest _ Hc. rewrite !tokenize_runs. unfold tokenize_spec, word_runs.
    rewrite toLowerCase_app. change (toLowerCase (String c rest))
      with (String (lower_char c) (toLowerCase rest)).
    rewrite word_runs_from_sep by done. by rewrite filter_app.
Qed.

(** ** [extractPreview] *)

Lemma length_append s t :
  String.length (s ++ t) = String.length s + String.length t.
Proof. induction s as [|c s IH]; simpl; [done|]. by rewrite IH. Qed.

Lemma append_assoc (s t u : string) : ((s ++ t) ++ u = s ++ (t ++ u))%string.
Proof. induction s as [|c s IH]; [done|]. by rewrite !append_cons, IH. Qed.

Lemma length_map_chars f s : String.length (map_chars f s) = String.length s.
Proof. induction s as [|c s IH]; simpl; [done|]. by rewrite IH. Qed.

Lemma map_chars_app f s t : map_chars f (s ++ t) = (map_chars f s ++ map_chars f t)%string.
Proof. induction s as [|c s IH]; [done|]. rewrite !append_cons. simpl. by rewrite IH. Qed.

Lemma length_collapse_from b s : String.length (collapse_from b s) <= String.length s.
Proof.
  revert b. induction s as [|c s IH]; intros b; simpl; [done|].
  destruct (is_space c); [destruct b|]; simpl;
    [specialize (IH true) | specialize (IH true) | specialize (IH false)]; lia.
Qed.

Lemma length_trimStart s : String.length (trimStart s) <= String.length s.
Proof. induction s as [|c s IH]; simpl; [done|]. destruct (is_space c); simpl; lia. Qed.

Lemma length_trimEnd s : String.length (trimEnd s) <= String.length s.
Proof.
  induction s as [|c s IH]; simpl; [done|].
  destruct (trimEnd s); [destruct (is_space c)|]; simpl in *; lia.
Qed.

Lemma length_trim s : String.length (trim s) <= String.length s.
Proof.
  unfold trim. pose proof (length_trimEnd (trimStart s)). pose proof (length_trimStart s). lia.
Qed.

Lemma length_js_substring a b s :
  String.length (substring a b s) <= Z.to_nat (b - a).
Proof. apply substring_length. Qed.

(** The loop that looks for the first occurrence. *)
Lemma earlier_found contentLower (tokens : list string) : ∀ best,
  let r := foldl (earlier contentLower) best tokens in
  (r = (-1)%Z ↔ best = (-1)%Z ∧ ∀ t, t ∈ tokens → indexOf contentLower t = (-1)%Z)
  ∧ (r = best ∨ ∃ t, t ∈ tokens ∧ indexOf contentLower t = r).
Proof.
  induction tokens as [|t tokens IH]; intros best; cbv zeta; simpl.
  - split; [|by left]. split; [intros ->; split; [done|] | by intros [? _]].
    intros t Ht. by apply elem_of_nil in Ht.
  - destruct (IH (earlier contentLower best t)) as [Hnone Hsome]. split.
    + rewrite Hnone. unfold earlier.
      destruct (indexOf contentLower t =? -1)%Z eqn:Hi; simpl.
      * apply Z.eqb_eq in Hi. split.
        -- intros [-> Hall]. split; [done|]. intros t' [->|Ht']%elem_of_cons; auto.
        -- intros [-> Hall]. split; [done|]. intros t' Ht'. apply Hall. by right.
      * apply Z.eqb_neq in Hi. destruct ((best =? -1)%Z || _) eqn:Hb.
        -- split; [intros [? _]; done|]. intros [_ Hall]. exfalso. apply Hi, Hall. by left.
        -- apply orb_false_iff in Hb as [Hb _]. apply Z.eqb_neq in Hb.
           split; [intros [? _]; done | intros [? _]; done].
    + destruct Hsome as [->|(t' & Ht' & Hr)].
      * unfold earlier. destruct (negb _ && _); [right; exists t; split; [left | done] | by left].
      * right. exists t'. split; [by right | done].
Qed.

Lemma indexOf_range s t : (-1 <= indexOf s t)%Z.
Proof. unfold indexOf. destruct (String.index 0 t s); lia. Qed.

(** X16.  A preview is at most 126 characters long, whatever the
    content and the tokens. *)
Theorem extractPreview_length (content : string) (queryTokens : list string) :
  String.length (extractPreview content queryTokens) <= 126.
Proof.
  unfold extractPreview. cbv zeta.
  set (best := foldl (earlier (toLowerCase content)) (-1)%Z queryTokens).
  assert (Hdots : String.length "..." = 3) by reflexivity.
  destruct (best =? -1)%Z.
  - pose proof (length_js_substring 0 PREVIEW_LENGTH content) as Hs.
    change (Z.to_nat (PREVIEW_LENGTH - 0)) with 120 in Hs.
    destruct (PREVIEW_LENGTH <? _)%Z; [rewrite length_append|]; lia.
  - set (start := Z.max 0 (best - PREVIEW_LENGTH / 2)).
    set (end_ := Z.min (Z.of_nat (String.length content)) (best + PREVIEW_LENGTH / 2)).
    pose proof (length_js_substring start end_ content) as Hs.
    assert (Z.to_nat (end_ - start) <= 120).
    { unfold start, end_. change (PREVIEW_LENGTH / 2)%Z with 60%Z. lia. }
    etrans; [apply length_trim|]. etrans; [apply length_collapse_from|].
    rewrite length_map_chars.
    destruct (0 <? start)%Z, (end_ <? _)%Z; rewrite ?length_append, ?Hdots; simpl; lia.
Qed.

(** *** White space in a preview around a match *)

Lemma collapsed_collapse_from s : ∀ b, collapsed b (collapse_from b s) = true.
Proof.
  induction s as [|c s IH]; intros b; simpl; [done|].
  destruct (is_space c) eqn:Hc.
  - destruct b; simpl; [apply IH|]. by rewrite IH.
  - simpl. rewrite Hc. apply IH.
Qed.

Lemma collapsed_weaken b s : collapsed true s = true → collapsed b s = true.
Proof.
  destruct s as [|c s]; simpl; [done|]. destruct (is_space c); [|done].
  rewrite andb_false_r. done.
Qed.

Lemma collapsed_trimStart s : ∀ b, collapsed b s = true → collapsed true (trimStart s) = true.
Proof.
  induction s as [|c s IH]; intros b; simpl; [done|].
  destruct (is_space c) eqn:Hc.
  - intros [_ Hs]%andb_true_iff. by apply (IH true).
  - simpl. by rewrite Hc.
Qed.

Lemma collapsed_trimEnd s : ∀ b, collapsed b s = true → collapsed b (trimEnd s) = true.
Proof.
  induction s as [|c s IH]; intros b; simpl; [done|].
  destruct (is_space c) eqn:Hc.
  - intros [Hb Hs]%andb_true_iff. specialize (IH true Hs).
    destruct (trimEnd s) as [|d rest]; simpl; [done|]. rewrite Hc, Hb. exact IH.
  - intros Hs. specialize (IH false Hs).
    destruct (trimEnd s) as [|d rest]; simpl; rewrite Hc; [done | exact IH].
Qed.

Lemma trimEnd_idem s : trimEnd (trimEnd s) = trimEnd s.
Proof.
  induction s as [|c s IH]; simpl; [done|].
  destruct (trimEnd s) as [|d rest] eqn:Hrest.
  - destruct (is_space c) eqn:Hc; simpl; [done|]. by rewrite Hc.
  - change (trimEnd (String c (String d rest)))
      with (match trimEnd (String d rest) with
            | EmptyString => if is_space c then EmptyString else String c EmptyString
            | rest' => String c rest'
            end).
    rewrite IH. done.
Qed.

Lemma trimStart_head s :
  match trimStart s with
  | EmptyString => True
  | String c _ => is_space c = false
  end.
Proof.
  induction s as [|c s IH]; simpl; [done|]. destruct (is_space c) eqn:Hc; [done|]. done.
Qed.

Lemma trimStart_trimEnd u :
  match u with
  | EmptyString => True
  | String c _ => is_space c = false
  end → trimStart (trimEnd u) = trimEnd u.
Proof.
  destruct u as [|c u]; simpl; [done|]. intros Hc.
  destruct (trimEnd u); rewrite ?Hc; simpl; by rewrite Hc.
Qed.

Lemma trim_idem s : trim (trim s) = trim s.
Proof.
  unfold trim. rewrite trimStart_trimEnd by apply trimStart_head. apply trimEnd_idem.
Qed.

Lemma normalised_trim_collapse s : normalised (trim (collapse_from false s)).
Proof.
  split; [|apply trim_idem]. unfold trim.
  apply collapsed_trimEnd, collapsed_weaken, (collapsed_trimStart _ false),
    collapsed_collapse_from.
Qed.

Lemma extractPreview_found content queryTokens :
  (∃ t, t ∈ queryTokens ∧ includes (toLowerCase content) t) →
  ∃ t best, t ∈ queryTokens
    ∧ String.index 0 t (toLowerCase content) = Some best
    ∧ extractPreview content queryTokens =
      let bestIndex := Z.of_nat best in
      let len := Z.of_nat (String.length content) in
      let start := Z.max 0 (bestIndex - PREVIEW_LENGTH / 2) in
      let end_ := Z.min len (bestIndex + PREVIEW_LENGTH / 2) in
      let preview := substring start end_ content in
      let preview := if (0 <? start)%Z then "..." ++ preview else preview in
      let preview := if (end_ <? len)%Z then preview ++ "..." else preview in
      trim (collapse_from false
              (map_chars (λ c, if (c =? "010")%char then " "%char else c) preview)).
Proof.
  intros (t0 & Ht0 & Hinc).
  destruct (earlier_found (toLowerCase content) queryTokens (-1)%Z) as [Hnone Hsome].
  cbv zeta in *.
  set (r := foldl (earlier (toLowerCase content)) (-1)%Z queryTokens) in *.
  assert (Hr : r ≠ (-1)%Z).
  { intros Hr. apply Hnone in Hr as [_ Hall]. by apply Hinc, Hall. }
  destruct Hsome as [?|(t & Ht & Hidx)]; [done|].
  unfold indexOf in Hidx. destruct (String.index 0 t (toLowerCase content)) as [best|] eqn:Hbest;
    [|congruence].
  exists t, best. split; [done|]. split; [done|].
  unfold extractPreview. cbv zeta. fold r. rewrite (proj2 (Z.eqb_neq r (-1)) Hr).
  by rewrite Hidx.
Qed.

(** X17.  When some query token occurs in the lower-cased content,
    the preview has no white space other than single spaces, and none at
    either end. *)
Theorem extractPreview_normalised (content : string) (queryTokens : list string) :
  (∃ t, t ∈ queryTokens ∧ includes (toLowerCase content) t) →
  normalised (extractPreview content queryTokens).
Proof.
  intros Hfound. destruct (extractPreview_found content queryTokens Hfound)
    as (t & best & _ & _ & ->). cbv zeta. apply normalised_trim_collapse.
Qed.

(** *** The match is in the preview *)

Lemma substring_split s : ∀ a k1 k2,
  String.substring a (k1 + k2) s
  = (String.substring a k1 s ++ String.substring (a + k1) k2 s)%string.
Proof.
  induction s as [|c s IH]; intros a k1 k2.
  - destruct a, k1, k2; reflexivity.
  - destruct a as [|a]; simpl.
    + destruct k1 as [|k1]; simpl; [done|]. by rewrite IH.
    + apply IH.
Qed.

Lemma map_chars_substring f s : ∀ a m,
  map_chars f (String.substring a m s) = String.substring a m (map_chars f s).
Proof.
  induction s as [|c s IH]; intros a m.
  - destruct a, m; reflexivity.
  - destruct a as [|a]; simpl; [|apply IH]. destruct m as [|m]; simpl; [done|]. by rewrite IH.
Qed.

Lemma length_substring s : ∀ a m,
  String.length (String.substring a m s) = Nat.min m (String.length s - a).
Proof.
  induction s as [|c s IH]; intros a m.
  - destruct a, m; reflexivity.
  - destruct a as [|a]; simpl; [|apply IH]. destruct m as [|m]; simpl; [done|].
    rewrite IH. f_equal. f_equal. lia.
Qed.

Lemma substring_full_length s a m :
  0 < m → String.length (String.substring a m s) = m → a + m <= String.length s.
Proof. rewrite length_substring. lia. Qed.

Lemma word_char_no_space c : is_word_char (lower_char c) = true → is_space c = false.
Proof. destruct c as [[] [] [] [] [] [] [] []]; vm_compute; congruence. Qed.

Lemma word_no_space W :
  all_chars is_word_char (toLowerCase W) → all_chars (λ c, negb (is_space c)) W.
Proof.
  induction W as [|c W IH]; simpl; [intros _; apply all_chars_nil|].
  intros [Hc HW]%all_chars_cons. apply all_chars_String; [|by apply IH].
  by rewrite (word_char_no_space c Hc).
Qed.

Lemma no_space_unbroken W :
  all_chars (λ c, negb (is_space c)) W →
  map_chars (λ c, if (c =? "010")%char then " "%char else c) W = W.
Proof.
  induction W as [|c W IH]; simpl; [done|].
  intros [Hc HW]%all_chars_cons. rewrite IH by done.
  destruct (Ascii.eqb_spec c "010") as [->|]; [done|]. done.
Qed.

Lemma collapse_from_word W Y : ∀ b,
  all_chars (λ c, negb (is_space c)) W →
  collapse_from b (W ++ Y)
  = (W ++ collapse_from (match W with EmptyString => b | _ => false end) Y)%string.
Proof.
  induction W as [|c W IH]; intros b; [done|].
  intros [Hc HW]%all_chars_cons. apply negb_true_iff in Hc.
  rewrite !append_cons. simpl. rewrite Hc, IH by done. by destruct W.
Qed.

Lemma collapse_from_around X W Y : ∀ b,
  W ≠ EmptyString → all_chars (λ c, negb (is_space c)) W →
  ∃ X', collapse_from b (X ++ W ++ Y) = (X' ++ W ++ collapse_from false Y)%string.
Proof.
  intros b Hne HW. revert b. induction X as [|c X IH]; intros b.
  - exists EmptyString. rewrite !append_nil, collapse_from_word by done. by destruct W.
  - rewrite append_cons. simpl. destruct (is_space c); [destruct b|].
    + apply IH.
    + destruct (IH true) as [X' ->]. by exists (String " " X').
    + destruct (IH false) as [X' ->]. by exists (String c X').
Qed.

Lemma trimStart_around X W Y :
  W ≠ EmptyString → all_chars (λ c, negb (is_space c)) W →
  ∃ X', trimStart (X ++ W ++ Y) = (X' ++ W ++ Y)%string.
Proof.
  intros Hne HW. induction X as [|c X IH].
  - exists EmptyString. rewrite !append_nil. destruct W as [|d W]; [done|].
    apply all_chars_cons in HW as [Hd _]. apply negb_true_iff in Hd.
    rewrite append_cons. simpl. by rewrite Hd.
  - rewrite append_cons. simpl. destruct (is_space c); [apply IH|].
    by exists (String c X).
Qed.

Lemma trimEnd_word W Y :
  W ≠ EmptyString → all_chars (λ c, negb (is_space c)) W →
  trimEnd (W ++ Y) = (W ++ trimEnd Y)%string.
Proof.
  induction W as [|c W IH]; [done|]. intros _ [Hc HW]%all_chars_cons.
  apply negb_true_iff in Hc. rewrite !append_cons.
  change (trimEnd (String c (W ++ Y)))
    with (match trimEnd (W ++ Y) with
          | EmptyString => if is_space c then EmptyString else String c EmptyString
          | rest => String c rest
          end).
  destruct W as [|d W].
  - rewrite !append_nil. rewrite Hc. by destruct (trimEnd Y).
  - rewrite IH by done. by rewrite append_cons.
Qed.

Lemma trimEnd_around X W Y :
  W ≠ EmptyString → all_chars (λ c, negb (is_space c)) W →
  trimEnd (X ++ W ++ Y) = (X ++ W ++ trimEnd Y)%string.
Proof.
  intros Hne HW. induction X as [|c X IH].
  - rewrite !append_nil. by apply trimEnd_word.
  - rewrite !append_cons.
    change (trimEnd (String c (X ++ W ++ Y)))
      with (match trimEnd (X ++ W ++ Y) with
            | EmptyString => if is_space c then EmptyString else String c EmptyString
            | rest => String c rest
            end).
    rewrite IH. destruct X; [|done]. rewrite append_nil. destruct W; [done|].
    by rewrite append_cons.
Qed.

Lemma substring_middle X t Y :
  String.substring (String.length X) (String.length t) (X ++ t ++ Y) = t.
Proof.
  induction X as [|c X IH]; simpl.
  - rewrite append_nil. induction t as [|d t IHt]; simpl.
    + by destruct Y.
    + by rewrite IHt.
  - exact IH.
Qed.

Lemma includes_middle X t Y : t ≠ EmptyString → includes (X ++ t ++ Y) t.
Proof.
  intros Hne. unfold includes, indexOf.
  destruct (String.index 0 t (X ++ t ++ Y)) as [i|] eqn:Hi; [lia|].
  exfalso. apply (index_correct3 0 (String.length X) t (X ++ t ++ Y) Hi Hne); [lia|].
  apply substring_middle.
Qed.

(** X18.  When the content is ASCII, the query tokens are tokens, of
    [[a-z0-9_]] and 2 to 50 characters long, and one of them occurs in the
    lower-cased content, then one that does also occurs in the lower-cased
    preview: the window of the preview holds the match it was cut around.  On
    ASCII a position in the lower-cased content is the same position in the
    content, which is where the window is cut. *)
Theorem extractPreview_shows_match (content : string) (queryTokens : list string) :
  all_chars is_ascii content →
  (∀ t, t ∈ queryTokens → length_ok t = true ∧ all_chars is_word_char t) →
  (∃ t, t ∈ queryTokens ∧ includes (toLowerCase content) t) →
  ∃ t, t ∈ queryTokens
       ∧ includes (toLowerCase content) t
       ∧ includes (toLowerCase (extractPreview content queryTokens)) t.
Proof.
  intros _ Hwords Hfound.
  destruct (extractPreview_found content queryTokens Hfound)
    as (t & best & Ht & Hbest & ->). cbv zeta.
  destruct (Hwords t Ht) as [Hlen%length_ok_bounds Hword].
  exists t. split; [done|]. split.
  { unfold includes, indexOf. rewrite Hbest. lia. }
  set (n := String.length t) in *.
  pose proof (index_correct1 _ _ _ _ Hbest) as Hsub. fold n in Hsub.
  assert (Hfit : best + n <= String.length content).
  { rewrite <- (length_map_chars lower_char content).
    apply substring_full_length; [lia|]. fold (toLowerCase content). by rewrite Hsub. }
  set (W := String.substring best n content).
  assert (HW : toLowerCase W = t).
  { unfold W, toLowerCase. rewrite map_chars_substring. exact Hsub. }
  assert (Hne : W ≠ EmptyString).
  { intros HE. rewrite HE in HW. simpl in HW. unfold n in Hlen.
    rewrite <- HW in Hlen. simpl in Hlen. lia. }
  assert (Hns : all_chars (λ c, negb (is_space c)) W).
  { apply word_no_space. by rewrite HW. }
  set (start := Z.max 0 (Z.of_nat best - PREVIEW_LENGTH / 2)).
  set (end_ := Z.min (Z.of_nat (String.length content))
                 (Z.of_nat best + PREVIEW_LENGTH / 2)).
  assert (Hwin : ∃ A B, substring start end_ content = (A ++ W ++ B)%string).
  { unfold substring. set (a := Z.to_nat start).
    set (k1 := best - a). set (k3 := Z.to_nat end_ - (best + n)).
    assert (Hlen' : Z.to_nat (end_ - start) = k1 + (n + k3)).
    { unfold k1, k3, a, start, end_. change (PREVIEW_LENGTH / 2)%Z with 60%Z. lia. }
    assert (Ha : a + k1 = best).
    { unfold k1, a, start. change (PREVIEW_LENGTH / 2)%Z with 60%Z. lia. }
    rewrite Hlen', !substring_split, Ha. eauto. }
  destruct Hwin as (A & B & ->).
  assert (Hshape : ∃ X Y,
            (if (end_ <? Z.of_nat (String.length content))%Z
             then (if (0 <? start)%Z then "..." ++ (A ++ W ++ B) else A ++ W ++ B) ++ "..."
             else (if (0 <? start)%Z then "..." ++ (A ++ W ++ B) else A ++ W ++ B))%string
            = (X ++ W ++ Y)%string).
  { destruct (end_ <? _)%Z, (0 <? start)%Z.
    - exists ("..." ++ A)%string, (B ++ "...")%string. by rewrite !append_assoc.
    - exists A, (B ++ "...")%string. by rewrite !append_assoc.
    - exists ("..." ++ A)%string, B. by rewrite !append_assoc.
    - by exists A, B. }
  destruct Hshape as (X & Y & ->).
  rewrite !map_chars_app, (no_space_unbroken W Hns).
  destruct (collapse_from_around
              (map_chars (λ c, if (c =? "010")%char then " "%char else c) X) W
              (map_chars (λ c, if (c =? "010")%char then " "%char else c) Y)
              false Hne Hns) as [X1 ->].
  unfold trim. destruct (trimStart_around X1 W (collapse_from false
              (map_chars (λ c, if (c =? "010")%char then " "%char else c) Y)) Hne Hns)
    as [X2 ->].
  rewrite trimEnd_around by done. rewrite !toLowerCase_app, HW.
  apply includes_middle. intros HE. unfold n in Hlen. rewrite HE in Hlen. simpl in Hlen. lia.
Qed.

(** ** The ignore file *)

Lemma ignores_app patterns1 patterns2 r :
  ignores (patterns1 ++ patterns2) r = ignores patterns1 r || ignores patterns2 r.
Proof. unfold ignores. apply existsb_app. Qed.

Lemma split_lines_one_line s : ∀ cur l,
  all_chars (λ c, negb (c =? "010")%char) cur →
  l ∈ split_lines_from cur s → all_chars (λ c, negb (c =? "010")%char) l.
Proof.
  induction s as [|c s IH]; intros cur l Hcur; simpl.
  - by intros ->%list_elem_of_singleton.
  - destruct (c =? "010")%char eqn:Hc.
    + intros [->|Hl]%elem_of_cons; [done|]. apply (IH EmptyString); [apply all_chars_nil | done].
    + apply IH. apply all_chars_snoc; [done|]. by rewrite Hc.
Qed.

(** X19.  The patterns of a run.  What the default patterns ignore is
    ignored, whatever the ignore file holds: the file adds to what is ignored
    and takes nothing away.  A pattern that is not a default is a line of the
    ignore file: it holds no line feed, is not blank and does not begin with
    [#].  Without [.searchignore] and [.gitignore] the patterns are the
    defaults. *)
Theorem ignore_file_only_adds (env : Env) (dirPath : string) (patterns : list string) :
  loadIgnorePatterns env dirPath = Some patterns →
  (∀ r, ignores DEFAULT_PATTERNS r = true → ignores patterns r = true)
  ∧ (∀ p, p ∈ patterns →
       p ∈ DEFAULT_PATTERNS
       ∨ (all_space p = false ∧ startsWith p "#" = false
          ∧ all_chars (λ c, negb (c =? "010")%char) p))
  ∧ (existsSync env (path_join env dirPath ".searchignore") = false →
     existsSync env (path_join env dirPath ".gitignore") = false →
     patterns = DEFAULT_PATTERNS).
Proof.
  unfold loadIgnorePatterns. cbv zeta.
  destruct (if existsSync env (path_join env dirPath ".searchignore") then _ else _)
    as [ignoreContent|] eqn:Hread; [|done].
  cbn [mbind option_bind]. intros Hsome.
  assert (Hp : patterns = (DEFAULT_PATTERNS
                ++ filter (λ l, pattern_line l = true)
                     (split_lines_from EmptyString ignoreContent))%list) by congruence.
  clear Hsome. subst patterns. split; [|split].
  - intros r Hr. by rewrite ignores_app, Hr.
  - intros p [Hp|Hp]%elem_of_app; [by left|]. right.
    apply list_elem_of_filter in Hp as [Hline Hp]. unfold pattern_line in Hline.
    apply andb_true_iff in Hline as [H1%negb_true_iff H2%negb_true_iff].
    split; [done|]. split; [done|].
    by apply (split_lines_one_line ignoreContent EmptyString p (all_chars_nil _)).
  - intros H1 H2. rewrite H1, H2 in Hread. injection Hread as <-. reflexivity.
Qed.

(** ** The scores *)

Lemma score_at_add q v scores p :
  score_at (add_score q v scores) p
  = (score_at scores p + if decide (p = q) then v else 0)%R.
Proof.
  induction scores as [|[p' s] scores IH]; simpl.
  - destruct (decide (q = p)) as [->|Hne].
    + by rewrite decide_True.
    + rewrite decide_False by done. lra.
  - destruct (String.eqb_spec p' q) as [->|Hne]; simpl.
    + destruct (decide (q = p)) as [->|Hne].
      * by rewrite decide_True.
      * rewrite decide_False by done. lra.
    + destruct (decide (p' = p)) as [->|Hne'].
      * rewrite decide_False by done. lra.
      * exact IH.
Qed.

Lemma score_at_elem scores p s :
  NoDup scores.*1 → (p, s) ∈ scores → score_at scores p = s.
Proof.
  induction scores as [|[q s'] scores IH]; simpl.
  - intros _ Hin. by apply elem_of_nil in Hin.
  - intros [Hq Hnd]%NoDup_cons [[= -> ->]|Hin]%elem_of_cons.
    + by rewrite decide_True.
    + rewrite decide_False; [by apply IH|]. intros ->. apply Hq.
      apply list_elem_of_fmap. by exists (p, s).
Qed.

(** The loop over the postings of one token, for a document that passes
    the filter. *)
Lemma score_postings_at idx extensions weight p doc (l : list (string * Z)) :
  documents idx !! p = Some doc →
  (extensions = [] ∨ Doc.extension doc ∈ extensions) →
  NoDup l.*1 →
  ∀ scores scores',
    fold_option (score_posting idx extensions weight) scores l = Some scores' →
    match (list_to_map l : gmap string Z) !! p with
    | Some c =>
        ∃ w, weight = Some w ∧ Doc.wordCount doc ≠ 0%Z
             ∧ score_at scores' p
               = (score_at scores p + IZR c / IZR (Doc.wordCount doc) * w)%R
    | None => score_at scores' p = score_at scores p
    end.
Proof.
  intros Hdoc Hpass. induction l as [|[q c] l IH]; intros Hnd scores scores'.
  - simpl. by intros [= <-].
  - apply NoDup_cons in Hnd as [Hq Hnd]. cbn [fold_option list_to_map foldr].
    destruct (score_posting idx extensions weight scores (q, c)) as [scores1|] eqn:Hstep;
      [|done].
    cbn [mbind option_bind]. intros Hrest. specialize (IH Hnd scores1 scores' Hrest).
    destruct (decide (q = p)) as [->|Hne].
    + rewrite lookup_insert_eq.
      assert (Hnone : (list_to_map l : gmap string Z) !! p = None).
      { by apply not_elem_of_list_to_map_1. }
      rewrite Hnone in IH. rewrite IH.
      unfold score_posting in Hstep. rewrite Hdoc in Hstep.
      rewrite (proj2 (passes_filter extensions (Doc.extension doc)) Hpass) in Hstep.
      destruct weight as [w|]; [|done]. simpl in Hstep. unfold tf in Hstep.
      destruct (decide (Doc.wordCount doc = 0%Z)) as [|Hwc]; [done|].
      simpl in Hstep. injection Hstep as <-. exists w. split; [done|]. split; [done|].
      rewrite score_at_add, decide_True by done. done.
    + rewrite lookup_insert_ne by done.
      assert (Hsame : score_at scores1 p = score_at scores p).
      { unfold score_posting in Hstep. destruct (documents idx !! q) as [dq|];
          [|by injection Hstep as <-].
        destruct (_ && _); [by injection Hstep as <-|].
        destruct weight as [w|]; [|done]. simpl in Hstep.
        destruct (tf c (Doc.wordCount dq)) as [t|]; [|done]. simpl in Hstep.
        injection Hstep as <-. rewrite score_at_add, decide_False by done. lra. }
      by rewrite Hsame in IH.
Qed.

Lemma score_token_at idx extensions p doc token scores scores' :
  documents idx !! p = Some doc →
  (extensions = [] ∨ Doc.extension doc ∈ extensions) →
  score_token idx extensions scores token = Some scores' →
  score_at scores' p = (score_at scores p + contribution idx token p)%R.
Proof.
  intros Hdoc Hpass. unfold score_token, contribution.
  destruct (invertedIndex idx !! token) as [docs|].
  2:{ intros [= <-]. lra. }
  intros Hfold.
  pose proof (score_postings_at idx extensions _ p doc (map_to_list docs) Hdoc Hpass
                (NoDup_fst_map_to_list docs) scores scores' Hfold) as Hat.
  rewrite list_to_map_to_list in Hat. rewrite Hdoc.
  destruct (docs !! p) as [c|].
  - destruct Hat as (w & Hw & Hwc & ->). unfold idf in Hw.
    destruct (docFreq idx !! token) as [[d|]|]; [|done|done].
    destruct (decide _); [|done]. by injection Hw as <-.
  - rewrite Hat. destruct (docFreq idx !! token) as [[d|]|]; lra.
Qed.

Lemma score_tokens_at idx extensions p doc (tokens : list string) :
  documents idx !! p = Some doc →
  (extensions = [] ∨ Doc.extension doc ∈ extensions) →
  ∀ scores scores',
    fold_option (score_token idx extensions) scores tokens = Some scores' →
    score_at scores' p
    = foldl (λ acc token, (acc + contribution idx token p)%R) (score_at scores p) tokens.
Proof.
  intros Hdoc Hpass. induction tokens as [|token tokens IH]; intros scores scores'.
  - simpl. by intros [= <-].
  - cbn [fold_option foldl].
    destruct (score_token idx extensions scores token) as [scores1|] eqn:Hstep; [|done].
    cbn [mbind option_bind]. intros Hrest.
    rewrite (IH scores1 scores' Hrest).
    by rewrite (score_token_at idx extensions p doc token scores scores1 Hdoc Hpass Hstep).
Qed.


(** ** Indexing, then searching *)

Lemma added_document_found
    (idx : Index) (filePath filename content : string) (modified : Z) (extension : string)
    (query : string) (extensions : list string) (limit : Z) :
  postings_sound idx → totalDocs_consistent idx →
  documents idx !! filePath = None →
  (totalDocs idx + 1 <= limit)%Z →
  ∃ results,
    search (addDocument filePath filename content modified extension idx)
      query extensions limit = Some results
    ∧ (filePath ∈ path <$> results ↔
       (extensions = [] ∨ extension ∈ extensions)
       ∧ ∃ t, t ∈ tokenize query ∧ t ∈ tokenize content)
    ∧ ∀ q, q ≠ filePath →
        (q ∈ path <$> results ↔ matches idx extensions (tokenize query) q).
Proof.
  intros Hsound Htotal Hnew Hlimit.
  set (idx' := addDocument filePath filename content modified extension idx).
  assert (Hsound' : postings_sound idx') by (by apply addDocument_sound).
  assert (Htotal' : totalDocs_consistent idx') by (by apply addDocument_total_ok).
  destruct (search_complete idx' query extensions limit Hsound' Htotal')
    as (results & Hres & _ & _ & Hall).
  assert (Hlimit' : (totalDocs idx' <= limit)%Z).
  { unfold idx'. rewrite addDocument_totalDocs. lia. }
  specialize (Hall Hlimit'). exists results. split; [done|]. split.
  - rewrite Hall. unfold matches, idx'. rewrite addDocument_record, lookup_insert_eq. split.
    + intros (doc & t & c & [= <-] & Hpass & Ht & Hc). simpl in Hpass. split; [done|].
      exists t. split; [done|]. rewrite addDocument_posting in Hc.
      destruct (decide (filePath = filePath ∧ t ∈ tokenize content)) as [[_ ?]|Hno]; [done|].
      destruct (proj1 (proj2 Hsound) _ _ _ Hc) as [d Hd]. congruence.
    + intros (Hpass & t & Ht & Htc). eexists _, t, _. split; [reflexivity|].
      split; [exact Hpass|]. split; [done|].
      rewrite addDocument_posting. by rewrite decide_True.
  - intros q Hq. rewrite Hall. unfold matches, idx'.
    rewrite addDocument_record, lookup_insert_ne by done.
    split; intros (doc & t & c & Hdoc & Hpass & Ht & Hc); exists doc, t, c;
      (split; [done|]; split; [done|]; split; [done|]).
    + rewrite addDocument_posting in Hc. by rewrite decide_False in Hc by (by intros [? _]).
    + rewrite addDocument_posting. by rewrite decide_False by (by intros [? _]).
Qed.

(** X21.  Indexing, then searching, for a content and a query that
    hold neither the token [constructor] nor [__proto__].  On an index whose
    postings fit and whose [totalDocs] counts the documents, a document added
    under a new path is returned, with a limit that is large enough, by the
    queries that share a token with its content and whose extension filter it
    passes, and by no others; the other documents are returned as they matched
    before. *)
Theorem indexed_document_is_found
    (idx : Index) (filePath filename content : string) (modified : Z) (extension : string)
    (query : string) (extensions : list string) (limit : Z) :
  own_terms content → own_terms query →
  postings_sound idx → totalDocs_consistent idx →
  documents idx !! filePath = None →
  (totalDocs idx + 1 <= limit)%Z →
  ∃ results,
    search (addDocument filePath filename content modified extension idx)
      query extensions limit = Some results
    ∧ (filePath ∈ path <$> results ↔
       (extensions = [] ∨ extension ∈ extensions)
       ∧ ∃ t, t ∈ tokenize query ∧ t ∈ tokenize content)
    ∧ ∀ q, q ≠ filePath →
        (q ∈ path <$> results ↔ matches idx extensions (tokenize query) q).
Proof. intros _ _. apply added_document_found. Qed.

(** ** The best results *)

Lemma descending_app l1 l2 :
  descending (l1 ++ l2) → ∀ a b, a ∈ l1 → b ∈ l2 → (score b <= score a)%R.
Proof.
  induction l1 as [|x l1 IH]; simpl.
  - intros _ a b Ha. by apply elem_of_nil in Ha.
  - intros [Hall Hdesc] a b [->|Ha]%elem_of_cons Hb.
    + rewrite Forall_forall in Hall. apply Hall. apply elem_of_app. by right.
    + by apply IH.
Qed.

(** X22.  [search] returns the best.  On an index whose postings
    fit and whose [totalDocs] counts the documents, with a limit that is not
    negative, a document that matches and is not among the results is one too
    many for the limit: the list is as long as the limit allows, and every
    result in it scores at least as high as that document would. *)
Theorem search_returns_the_best (idx : Index) (query : string)
    (extensions : list string) (limit : Z) (results : list Result) :
  postings_sound idx → totalDocs_consistent idx → (0 <= limit)%Z →
  search idx query extensions limit = Some results →
  ∀ p, matches idx extensions (tokenize query) p →
    p ∈ path <$> results
    ∨ (Z.of_nat (List.length results) = limit
       ∧ ∀ r, r ∈ results → (tfidf idx (tokenize query) p <= score r)%R).
Proof.
  intros Hsound Htotal Hlimit Hsearch p Hmatch.
  pose proof Hmatch as (doc & token & c & Hdoc & Hpass & Htoken & Hc).
  unfold search in Hsearch.
  destruct (List.length (tokenize query) =? 0)%nat eqn:Hlen.
  { apply Nat.eqb_eq in Hlen. destruct (tokenize query); [|done].
    by apply elem_of_nil in Htoken. }
  destruct (score_tokens_total idx extensions (tokenize query) Hsound Htotal [])
    as (scores & Hfold & _ & _ & Hall).
  { intros q s Hin. by apply elem_of_nil in Hin. }
  rewrite Hfold in Hsearch. cbn [mbind option_bind] in Hsearch.
  destruct (mapM _ _) as [made|] eqn:Hmade; [|done]. cbn [mbind option_bind] in Hsearch.
  injection Hsearch as <-.
  destruct (candidates_sound_final _ _ _ _ Hfold) as [Hnd _].
  destruct (make_results_spec _ _ _ _ Hmade) as [Hpaths Hmade'].
  assert (Hp : p ∈ path <$> sort_by_score made).
  { rewrite (sort_by_score_perm made), Hpaths. by apply (Hall token p c doc). }
  apply list_elem_of_fmap in Hp as (m & -> & Hm).
  destruct (slice_to_take limit (sort_by_score made)) as (n & -> & Hn).
  specialize (Hn Hlimit).
  rewrite <- (take_drop n (sort_by_score made)) in Hm.
  apply elem_of_app in Hm as [Hm|Hm].
  - left. apply list_elem_of_fmap. by exists m.
  - right.
    assert (Hlong : n <= List.length (sort_by_score made)).
    { destruct (decide (n <= List.length (sort_by_score made))) as [|Hshort]; [done|].
      rewrite drop_ge in Hm by lia. by apply elem_of_nil in Hm. }
    split; [rewrite length_take; lia|].
    intros r Hr.
    assert (Hscore : score m = tfidf idx (tokenize query) (path m)).
    { assert (Hin : m ∈ made).
      { rewrite <- (sort_by_score_perm made), <- (take_drop n (sort_by_score made)).
        apply elem_of_app. by right. }
      destruct (Hmade' m Hin) as (_ & _ & _ & _ & Hentry).
      rewrite <- (score_at_elem scores (path m) (score m) Hnd Hentry).
      by rewrite (score_tokens_at idx extensions (path m) doc (tokenize query) Hdoc Hpass
                    [] scores Hfold). }
    rewrite <- Hscore.
    apply (descending_app (take n (sort_by_score made)) (skipn n (sort_by_score made)));
      [|done|done].
    rewrite take_drop. apply sort_by_score_descending.
Qed.

(** ** What [search] never returns *)

(** X23.  What [search] never returns: a document that
    [removeDocument] has just removed, and, after [update], a document whose
    file did not exist when [update] ran. *)
Theorem removed_document_is_not_found (idx : Index) (query : string)
    (extensions : list string) (limit : Z) :
  (∀ p results, search (removeDocument p idx) query extensions limit = Some results →
     p ∉ path <$> results)
  ∧ (∀ env results,
       search (index_of (update env idx)) query extensions limit = Some results →
       ∀ r, r ∈ results → existsSync env (path r) = true).
Proof.
  split.
  - intros p results Hsearch Hin. apply list_elem_of_fmap in Hin as (r & -> & Hr).
    destruct (search_results _ _ _ _ _ Hsearch) as (_ & _ & _ & Hall).
    destruct (Hall r Hr) as (_ & doc & Hdoc & _).
    by rewrite removeDocument_documents, lookup_delete_eq in Hdoc.
  - intros env results Hsearch r Hr.
    destruct (search_results _ _ _ _ _ Hsearch) as (_ & _ & _ & Hall).
    destruct (Hall r Hr) as (_ & doc & Hdoc & _).
    destruct (update_settles env idx (path r) doc Hdoc) as [Hexists _]. exact Hexists.
Qed.

(** ** [getStats] *)

Lemma getStats_fields env idx stats :
  getStats env idx = Some stats →
  docCount stats = Z.of_nat (size (documents idx))
  ∧ stats_lastUpdated stats = lastUpdated_or_never idx.
Proof.
  unfold getStats. cbv zeta. destruct (if existsSync env _ then _ else _) as [n|]; [|done].
  cbn [mbind option_bind]. by intros [= <-].
Qed.

Lemma update_stamp env idx :
  lastUpdated (index_of (update env idx)) = lastUpdated idx.
Proof.
  apply (update_preserves (λ i, lastUpdated i = lastUpdated idx)); [| |done].
  - intros f i <-. apply removeDocument_stamp.
  - intros f fn c m e i <- _. apply addDocument_stamp.
Qed.

(** X24.  What [getStats] reports.  [docCount] is [totalDocs] on an
    index whose [totalDocs] counts the documents; [lastUpdated] is never the
    empty string; [update] leaves the reported [lastUpdated] as it was; and
    after a run of [indexDirectory] that returns, [docCount] is [totalDocs]
    again and [lastUpdated] is the time stamp of that run. *)
Theorem getStats_reports (env : Env) (idx : Index) (stats : StatsReport) :
  getStats env idx = Some stats →
  (totalDocs_consistent idx → docCount stats = totalDocs idx)
  ∧ stats_lastUpdated stats ≠ EmptyString
  ∧ (∀ env0 stats', getStats env (index_of (update env0 idx)) = Some stats' →
       stats_lastUpdated stats' = stats_lastUpdated stats)
  ∧ (∀ env0 dirPath force idx1 report stats',
       indexDirectory env0 dirPath force idx = Returned idx1 report →
       getStats env idx1 = Some stats' →
       (totalDocs_consistent idx → docCount stats' = totalDocs idx1)
       ∧ (isoTime env0 ≠ EmptyString → stats_lastUpdated stats' = isoTime env0)).
Proof.
  intros [Hcount Hstamp]%getStats_fields. split; [|split; [|split]].
  - intros Htotal. by rewrite Hcount, Htotal.
  - rewrite Hstamp. unfold lastUpdated_or_never. destruct (lastUpdated idx) as [s|]; [|done].
    destruct (String.eqb_spec s EmptyString); done.
  - intros env0 stats' [_ Hstamp']%getStats_fields.
    rewrite Hstamp', Hstamp. unfold lastUpdated_or_never. by rewrite update_stamp.
  - intros env0 dirPath force idx1 report stats' Hrun [Hcount' Hstamp']%getStats_fields.
    split.
    + intros Htotal. rewrite Hcount'.
      pose proof (indexDirectory_preserves totalDocs_consistent
                    removeDocument_total_ok
                    (λ f fn c m e i Hi Hnew, addDocument_total_ok f fn c m e i Hnew Hi)
                    (λ v i Hi, Hi) env0 dirPath force idx Htotal) as Hinv.
      rewrite Hrun in Hinv. simpl in Hinv. by rewrite Hinv.
    + intros Hiso. rewrite Hstamp'. unfold indexDirectory in Hrun.
      destruct (loadIgnorePatterns env0 dirPath); [|done].
      destruct (walkDir _ _ _ _ _ _); [|done].
      destruct (saveIndex env0 _); [|done]. injection Hrun as <- _.
      unfold lastUpdated_or_never. simpl.
      destruct (String.eqb_spec (isoTime env0) EmptyString); done.
Qed.

(** ** The properties at concrete inputs *)

Lemma postings_sound_empty : postings_sound createEmptyIndex.
Proof.
  split; [split; [split|]|split].
  - reflexivity.
  - intros T docs H. simpl in H. by apply lookup_empty_Some in H.
  - intros T docs D c H. simpl in H. by apply lookup_empty_Some in H.
  - intros T D c H. unfold posting in H. simpl in H. by rewrite lookup_empty in H.
  - intros T D c doc H. unfold posting in H. simpl in H. by rewrite lookup_empty in H.
Qed.

Lemma no_empty_postings_empty : no_empty_postings createEmptyIndex.
Proof. intros T docs H. simpl in H. by apply lookup_empty_Some in H. Qed.

Lemma scenario_fresh_paths :
  documents createEmptyIndex !! "a.txt" = None
  ∧ documents (addDocument "a.txt" "a.txt" "apple banana apple" 0 "txt" createEmptyIndex)
      !! "b.txt" = None.
Proof. split; [reflexivity|]. by rewrite addDocument_record, lookup_insert_ne. Qed.

Lemma postings_sound_scenario : postings_sound scenario_index.
Proof.
  destruct scenario_fresh_paths as [Ha Hb]. unfold scenario_index.
  apply addDocument_sound; [|exact Hb]. apply addDocument_sound; [|exact Ha].
  apply postings_sound_empty.
Qed.

Lemma totalDocs_consistent_scenario : totalDocs_consistent scenario_index.
Proof.
  destruct scenario_fresh_paths as [Ha Hb]. unfold scenario_index.
  apply addDocument_total_ok; [exact Hb|]. by apply addDocument_total_ok.
Qed.

Lemma own_terms_fruit :
  own_terms "apple banana apple" ∧ own_terms "banana cherry" ∧ own_terms "cherry"
  ∧ own_terms "pear plum" ∧ own_terms "Banana!".
Proof.
  unfold own_terms. repeat split; vm_compute tokenize; repeat constructor; discriminate.
Qed.

Lemma own_contents_sample : own_contents sample_env.
Proof.
  intros p content. unfold sample_env, test_env, readFileSync.
  intros Hread. apply fmap_Some in Hread as ([stats c] & Hlook & ->).
  apply elem_of_list_to_map_2 in Hlook. simpl.
  repeat (apply elem_of_cons in Hlook as [[= -> -> ->] | Hlook];
    [unfold own_terms; vm_compute tokenize; repeat constructor; discriminate|]).
  by apply elem_of_nil in Hlook.
Qed.

Lemma postings_sound_stale : postings_sound stale_index.
Proof. unfold stale_index. apply addDocument_sound; [apply postings_sound_empty | reflexivity]. Qed.

Lemma addDocument_indexes_content_witness :
  own_terms "apple banana apple"
  ∧ (∃ doc, documents (addDocument "a.txt" "a.txt" "apple banana apple" 0 "txt" createEmptyIndex)
              !! "a.txt" = Some doc
            ∧ Doc.content doc = substring 0 10000 "apple banana apple"
            ∧ Doc.uniqueWords doc
              = Z.of_nat (List.length (remove_dups (tokenize "apple banana apple"))))
  ∧ ∀ globals,
      Inherited.addDocument "a.txt" "a.txt" "apple banana apple" 0 "txt"
        (createEmptyIndex, globals)
      = Some (addDocument "a.txt" "a.txt" "apple banana apple" 0 "txt" createEmptyIndex,
              globals).
Proof.
  pose proof (addDocument_indexes_content "a.txt" "a.txt" "apple banana apple" 0%Z "txt"
                createEmptyIndex (proj1 own_terms_fruit)) as H.
  cbv zeta in H. split; [exact (proj1 own_terms_fruit)|].
  destruct H as ((doc & Hdoc & _ & _ & _ & _ & _ & Hu & _ & Hc & _) & _ & _ & _ & Hinh).
  split; [|exact Hinh]. exists doc. split; [exact Hdoc|]. split; [exact Hc | exact Hu].
Defined.

Lemma removeDocument_removes_exactly_witness :
  postings_ok scenario_index
  ∧ documents (removeDocument "a.txt" scenario_index)
    = delete "a.txt" (documents scenario_index)
  ∧ removeDocument "a.txt" (removeDocument "a.txt" scenario_index)
    = removeDocument "a.txt" scenario_index.
Proof.
  pose proof (proj1 postings_sound_scenario) as Hok.
  pose proof (removeDocument_removes_exactly "a.txt" scenario_index Hok) as H.
  cbv zeta in H. split; [exact Hok|].
  split; [exact (proj1 (proj2 H)) | exact (proj2 (proj2 (proj2 (proj2 (proj2 H)))))].
Defined.

Lemma postings_sound_preserved_witness :
  postings_sound createEmptyIndex
  ∧ own_contents sample_env
  ∧ postings_sound (index_of (indexDirectory sample_env "/r" false createEmptyIndex))
  ∧ postings_sound (index_of (update sample_env createEmptyIndex)).
Proof.
  pose proof (postings_sound_preserved createEmptyIndex postings_sound_empty)
    as (_ & _ & Hdir & Hupd).
  split; [exact postings_sound_empty|]. split; [exact own_contents_sample|].
  split; [exact (Hdir sample_env "/r" false own_contents_sample)
         | exact (Hupd sample_env own_contents_sample)].
Defined.

Lemma add_then_remove_restores_witness :
  own_terms "apple banana apple"
  ∧ postings_sound createEmptyIndex
  ∧ no_empty_postings createEmptyIndex
  ∧ documents createEmptyIndex !! "a.txt" = None
  ∧ removeDocument "a.txt"
      (addDocument "a.txt" "a.txt" "apple banana apple" 0 "txt" createEmptyIndex)
    = createEmptyIndex.
Proof.
  split; [exact (proj1 own_terms_fruit)|].
  split; [exact postings_sound_empty|]. split; [exact no_empty_postings_empty|].
  split; [reflexivity|].
  exact (add_then_remove_restores "a.txt" "a.txt" "apple banana apple" 0%Z "txt"
           createEmptyIndex (proj1 own_terms_fruit) postings_sound_empty
           no_empty_postings_empty eq_refl).
Defined.

Lemma operations_commute_witness :
  postings_ok createEmptyIndex
  ∧ no_empty_postings createEmptyIndex
  ∧ "a.txt" ≠ "b.txt"
  ∧ addDocument "a.txt" "a.txt" "apple banana apple" 0 "txt"
      (addDocument "b.txt" "b.txt" "banana cherry" 0 "txt" createEmptyIndex)
    = scenario_index.
Proof.
  assert (Hne : "a.txt" ≠ "b.txt") by discriminate.
  split; [exact (proj1 postings_sound_empty)|]. split; [exact no_empty_postings_empty|].
  split; [exact Hne|].
  exact (proj1 (proj2 (operations_commute "a.txt" "b.txt" createEmptyIndex
                         (proj1 postings_sound_empty) no_empty_postings_empty Hne))
           "a.txt" "apple banana apple" 0%Z "txt" "b.txt" "banana cherry" 0%Z "txt").
Defined.

Lemma reindex_replaces_witness :
  own_terms "cherry"
  ∧ postings_sound scenario_index
  ∧ (∀ T, posting (addDocument "a.txt" "a.txt" "cherry" 1 "txt"
                     (removeDocument "a.txt" scenario_index)) T "a.txt"
          = if decide (T ∈ tokenize "cherry")
            then Some (occurrences T (tokenize "cherry")) else None)
  ∧ postings_sound (addDocument "a.txt" "a.txt" "cherry" 1 "txt"
                      (removeDocument "a.txt" scenario_index)).
Proof.
  pose proof (reindex_replaces "a.txt" "a.txt" "cherry" 1%Z "txt" scenario_index
                (proj1 (proj2 (proj2 own_terms_fruit))) postings_sound_scenario) as H.
  cbv zeta in H. split; [exact (proj1 (proj2 (proj2 own_terms_fruit)))|].
  split; [exact postings_sound_scenario|].
  split; [exact (proj1 H) | exact (proj2 (proj2 (proj2 (proj2 H))))].
Defined.


Lemma search_finds_every_match_witness :
  postings_sound scenario_index
  ∧ totalDocs_consistent scenario_index
  ∧ ∃ results,
      search scenario_index "banana cherry" [] 20 = Some results
      ∧ (∀ r, r ∈ results → (0 < score r)%R)
      ∧ (Z.of_nat (List.length results) <= totalDocs scenario_index)%Z.
Proof.
  split; [exact postings_sound_scenario|]. split; [exact totalDocs_consistent_scenario|].
  destruct (search_finds_every_match scenario_index "banana cherry" [] 20%Z
              postings_sound_scenario totalDocs_consistent_scenario)
    as (results & Hres & Hpos & Hlen & _).
  exists results. split; [exact Hres|]. split; [exact Hpos | exact Hlen].
Defined.

Lemma update_refreshes_witness :
  own_contents sample_env
  ∧ postings_sound scenario_index
  ∧ postings_sound (index_of (update sample_env scenario_index))
  ∧ (∀ q, documents scenario_index !! q = None →
          absent (index_of (update sample_env scenario_index)) q).
Proof.
  pose proof (update_refreshes sample_env scenario_index own_contents_sample
                postings_sound_scenario) as H.
  cbv zeta in H. split; [exact own_contents_sample|]. split; [exact postings_sound_scenario|].
  split; [exact (proj1 H) | exact (proj1 (proj2 (proj2 H)))].
Defined.

Lemma indexDirectory_incremental_witness :
  own_contents sample_env
  ∧ postings_sound createEmptyIndex
  ∧ postings_sound (index_of (indexDirectory sample_env "/r" false createEmptyIndex))
  ∧ dom (documents createEmptyIndex)
    ⊆ dom (documents (index_of (indexDirectory sample_env "/r" false createEmptyIndex))).
Proof.
  pose proof (indexDirectory_incremental sample_env "/r" createEmptyIndex
                own_contents_sample postings_sound_empty) as H.
  cbv zeta in H. split; [exact own_contents_sample|]. split; [exact postings_sound_empty|].
  split; [exact (proj1 H) | exact (proj1 (proj2 (proj2 H)))].
Defined.

Lemma indexDirectory_forced_witness :
  own_contents sample_env
  ∧ postings_sound stale_index
  ∧ loadIgnorePatterns sample_env "/r" = Some DEFAULT_PATTERNS
  ∧ is_Some (documents stale_index !! "/r/old.txt")
  ∧ posting stale_index "pear" "/r/old.txt" = Some 1%Z
  ∧ absent (index_of (indexDirectory sample_env "/r" true stale_index)) "/r/old.txt".
Proof.
  assert (Hpat : loadIgnorePatterns sample_env "/r" = Some DEFAULT_PATTERNS)
    by (vm_compute; reflexivity).
  assert (Hdoc : is_Some (documents stale_index !! "/r/old.txt")).
  { unfold stale_index. rewrite addDocument_record, lookup_insert_eq. eauto. }
  assert (Hpear : posting stale_index "pear" "/r/old.txt" = Some 1%Z)
    by (vm_compute; reflexivity).
  split; [exact own_contents_sample|]. split; [exact postings_sound_stale|].
  split; [exact Hpat|]. split; [exact Hdoc|]. split; [exact Hpear|].
  destruct (indexDirectory_forced sample_env "/r" stale_index DEFAULT_PATTERNS
              own_contents_sample postings_sound_stale Hpat "/r/old.txt") as [Hcrawled|Hgone].
  - destruct Hcrawled as [(stats & content & filename & Hstat & _) _].
    exfalso. vm_compute in Hstat. discriminate.
  - change (startsWith "/r/old.txt" "/r") with true in Hgone. exact Hgone.
Defined.

Lemma tokens_are_words_witness :
  "apple" ∈ tokenize "Apple, banana"
  ∧ 2 <= String.length "apple" <= 50
  ∧ tokenize "apple" = ["apple"].
Proof.
  assert (Hin : "apple" ∈ tokenize "Apple, banana").
  { assert (tokenize "Apple, banana" = ["apple"; "banana"]) as -> by (vm_compute; reflexivity).
    left. }
  pose proof (tokens_are_words "Apple, banana" "apple" Hin) as H.
  split; [exact Hin|]. split; [exact (proj1 H) | exact (proj2 (proj2 (proj2 H)))].
Defined.

Lemma extractPreview_normalised_witness :
  (∃ t, t ∈ ["banana"] ∧ includes (toLowerCase ("Apple" ++ String "010" "  Banana")) t)
  ∧ normalised (extractPreview ("Apple" ++ String "010" "  Banana") ["banana"]).
Proof.
  assert (Hfound : ∃ t, t ∈ ["banana"]
                        ∧ includes (toLowerCase ("Apple" ++ String "010" "  Banana")) t).
  { exists "banana". split; [left|]. unfold includes. vm_compute. discriminate. }
  split; [exact Hfound|].
  exact (extractPreview_normalised ("Apple" ++ String "010" "  Banana") ["banana"] Hfound).
Defined.

Lemma extractPreview_shows_match_witness :
  all_chars is_ascii "Apple BANANA apple"
  ∧ (∀ t, t ∈ tokenize "Banana" → length_ok t = true ∧ all_chars is_word_char t)
  ∧ (∃ t, t ∈ tokenize "Banana" ∧ includes (toLowerCase "Apple BANANA apple") t)
  ∧ ∃ t, t ∈ tokenize "Banana"
         ∧ includes (toLowerCase "Apple BANANA apple") t
         ∧ includes (toLowerCase (extractPreview "Apple BANANA apple" (tokenize "Banana"))) t.
Proof.
  assert (Hwords : ∀ t, t ∈ tokenize "Banana" → length_ok t = true ∧ all_chars is_word_char t).
  { intros t. apply token_wellformed. }
  assert (Hfound : ∃ t, t ∈ tokenize "Banana"
                        ∧ includes (toLowerCase "Apple BANANA apple") t).
  { exists "banana". split.
    - assert (tokenize "Banana" = ["banana"]) as -> by (vm_compute; reflexivity). left.
    - unfold includes. vm_compute. discriminate. }
  assert (Hascii : all_chars is_ascii "Apple BANANA apple").
  { unfold all_chars. simpl. repeat constructor. }
  split; [exact Hascii|]. split; [exact Hwords|]. split; [exact Hfound|].
  exact (extractPreview_shows_match "Apple BANANA apple" (tokenize "Banana")
           Hascii Hwords Hfound).
Defined.

Lemma ignore_file_only_adds_witness :
  loadIgnorePatterns ignoring_env "/r" = Some (DEFAULT_PATTERNS ++ ["out/"; "*.tmp"])%list
  ∧ (∀ r, ignores DEFAULT_PATTERNS r = true →
          ignores (DEFAULT_PATTERNS ++ ["out/"; "*.tmp"]) r = true).
Proof.
  assert (Hpat : loadIgnorePatterns ignoring_env "/r"
                 = Some (DEFAULT_PATTERNS ++ ["out/"; "*.tmp"])%list)
    by (vm_compute; reflexivity).
  split; [exact Hpat|].
  exact (proj1 (ignore_file_only_adds ignoring_env "/r" _ Hpat)).
Defined.


Lemma indexed_document_is_found_witness :
  own_terms "apple banana apple"
  ∧ own_terms "Banana!"
  ∧ postings_sound createEmptyIndex
  ∧ totalDocs_consistent createEmptyIndex
  ∧ documents createEmptyIndex !! "a.txt" = None
  ∧ (totalDocs createEmptyIndex + 1 <= 20)%Z
  ∧ ∃ results,
      search (addDocument "a.txt" "a.txt" "apple banana apple" 0 "txt" createEmptyIndex)
        "Banana!" [] 20 = Some results
      ∧ ("a.txt" ∈ path <$> results ↔
         (([] : list string) = [] ∨ "txt" ∈ ([] : list string))
         ∧ ∃ t, t ∈ tokenize "Banana!" ∧ t ∈ tokenize "apple banana apple").
Proof.
  assert (Hlimit : (totalDocs createEmptyIndex + 1 <= 20)%Z) by (simpl; lia).
  pose proof (proj1 own_terms_fruit) as Hcontent.
  pose proof (proj2 (proj2 (proj2 (proj2 own_terms_fruit)))) as Hquery.
  split; [exact Hcontent|]. split; [exact Hquery|].
  split; [exact postings_sound_empty|]. split; [reflexivity|]. split; [reflexivity|].
  split; [exact Hlimit|].
  destruct (indexed_document_is_found createEmptyIndex "a.txt" "a.txt" "apple banana apple"
              0%Z "txt" "Banana!" [] 20%Z Hcontent Hquery postings_sound_empty eq_refl eq_refl
              Hlimit)
    as (results & Hres & Hfound & _).
  exists results. split; [exact Hres | exact Hfound].
Defined.

Lemma getStats_reports_witness :
  getStats sample_env createEmptyIndex
    = Some (mkStatsReport 0 (IZR 0 / IZR (1024 * 1024))%R "Never")
  ∧ (totalDocs_consistent createEmptyIndex → 0%Z = totalDocs createEmptyIndex)
  ∧ "Never" ≠ EmptyString.
Proof.
  assert (Hstats : getStats sample_env createEmptyIndex
                   = Some (mkStatsReport 0 (IZR 0 / IZR (1024 * 1024))%R "Never"))
    by reflexivity.
  pose proof (getStats_reports sample_env createEmptyIndex _ Hstats) as H.
  split; [exact Hstats|]. split; [exact (proj1 H) | exact (proj1 (proj2 H))].
Defined.

Lemma search_returns_the_best_witness :
  postings_sound scenario_index
  ∧ totalDocs_consistent scenario_index
  ∧ (0 <= 20)%Z
  ∧ search scenario_index "banana" [] 20 =
      Some [mkResult "b.txt" "b.txt" (1 / 2)%R "banana cherry";
            mkResult "a.txt" "a.txt" (1 / 3)%R "apple banana apple"]
  ∧ matches scenario_index [] (tokenize "banana") "a.txt"
  ∧ ("a.txt" ∈ path <$> [mkResult "b.txt" "b.txt" (1 / 2)%R "banana cherry";
                          mkResult "a.txt" "a.txt" (1 / 3)%R "apple banana apple"]
     ∨ (Z.of_nat (List.length [mkResult "b.txt" "b.txt" (1 / 2)%R "banana cherry";
                               mkResult "a.txt" "a.txt" (1 / 3)%R "apple banana apple"])
        = 20%Z
        ∧ ∀ r, r ∈ [mkResult "b.txt" "b.txt" (1 / 2)%R "banana cherry";
                    mkResult "a.txt" "a.txt" (1 / 3)%R "apple banana apple"] →
               (tfidf scenario_index (tokenize "banana") "a.txt" <= score r)%R)).
Proof.
  assert (Hlimit : (0 <= 20)%Z) by lia.
  assert (Hmatch : matches scenario_index [] (tokenize "banana") "a.txt").
  { exists (Doc.make "a.txt" "apple banana apple" 0 18 "txt" 3 2), "banana", 1%Z.
    split; [vm_compute; reflexivity|]. split; [by left|].
    split; [|vm_compute; reflexivity].
    assert (tokenize "banana" = ["banana"]) as -> by (vm_compute; reflexivity). left. }
  split; [exact postings_sound_scenario|]. split; [exact totalDocs_consistent_scenario|].
  split; [exact Hlimit|]. split; [exact scenario_banana|]. split; [exact Hmatch|].
  exact (search_returns_the_best scenario_index "banana" [] 20%Z _
           postings_sound_scenario totalDocs_consistent_scenario Hlimit scenario_banana
           "a.txt" Hmatch).
Defined.

(** ** The extension filter *)

Lemma lower_char_dot c : (lower_char c =? ".")%char = (c =? ".")%char.
Proof. destruct c as [[] [] [] [] [] [] [] []]; reflexivity. Qed.

Lemma toLowerCase_remove_first_dot s :
  toLowerCase (remove_first_dot s) = remove_first_dot (toLowerCase s).
Proof.
  unfold toLowerCase. induction s as [|c s IH]; simpl; [done|].
  rewrite lower_char_dot. destruct (c =? ".")%char; [done|]. simpl. by rewrite IH.
Qed.

Lemma extension_of_lower env p : toLowerCase (extension_of env p) = extension_of env p.
Proof. unfold extension_of. by rewrite toLowerCase_remove_first_dot, toLowerCase_idem. Qed.

Lemma fresh_extension env idx q doc :
  fresh env idx q → documents idx !! q = Some doc →
  toLowerCase (Doc.extension doc) = Doc.extension doc.
Proof.
  intros (stats & content & fn & _ & _ & Hdoc & _) Hq. rewrite Hdoc in Hq.
  injection Hq as <-. apply extension_of_lower.
Qed.

Lemma search_filtered_out idx query extensions limit results :
  extensions ≠ [] →
  (∀ p doc, documents idx !! p = Some doc → Doc.extension doc ∉ extensions) →
  search idx query extensions limit = Some results → results = [].
Proof.
  intros Hne Hout Hsearch. destruct results as [|r results]; [done|]. exfalso.
  destruct (search_results _ _ _ _ _ Hsearch) as (_ & _ & _ & Hall).
  destruct (Hall r (list_elem_of_here _ _)) as ((doc & token & c & Hdoc & Hpass & _) & _).
  destruct Hpass as [?|Hin]; [done|]. by apply (Hout (path r) doc).
Qed.

(** X25.  The extension filter and the case of extensions.  The
    extension that [indexDirectory] and [update] store is in lower case, so an
    index whose stored extensions are in lower case stays so under both, from
    an index whose postings fit; and [search] compares the filter with the
    stored extension as it is, so on such an index a filter of extensions that
    all hold a capital letter returns nothing. *)
Theorem upper_case_filter_finds_nothing (idx : Index) :
  postings_sound idx → extensions_lower idx →
  (∀ env dirPath force,
     extensions_lower (index_of (indexDirectory env dirPath force idx)))
  ∧ (∀ env, extensions_lower (index_of (update env idx)))
  ∧ ∀ query extensions limit results,
      extensions ≠ [] → (∀ e, e ∈ extensions → toLowerCase e ≠ e) →
      search idx query extensions limit = Some results → results = [].
Proof.
  intros Hsound Hlower. split; [|split].
  - intros env dirPath force.
    assert (Hs0 : postings_sound (if force then clear_directory dirPath idx else idx)).
    { destruct force; [|done]. apply (clear_directory_preserves postings_sound); [|done].
      intros. by apply removeDocument_sound. }
    assert (Hl0 : extensions_lower (if force then clear_directory dirPath idx else idx)).
    { destruct force; [|done]. intros p doc. rewrite clear_directory_documents.
      destruct (startsWith p dirPath); [done|]. apply Hlower. }
    destruct (indexDirectory_run env dirPath force idx Hs0)
      as [[_ ->]|(patterns & st & _ & (_ & Hq & _) & <- & _)]; [done|].
    intros p doc Hdoc. destruct (Hq p) as [[Hk _]|[Hf _]].
    + rewrite Hk in Hdoc. by apply (Hl0 p).
    + by apply (fresh_extension env (crawl_index st) p).
  - intros env p doc Hdoc.
    destruct (update_entries_effect env (map_to_list (documents idx)) (mkSweep idx 0 0)
                (NoDup_fst_map_to_list _) Hsound) as (_ & Hk & Hu & _).
    cbn [sweep_index] in Hk, Hu.
    assert (Hidx : index_of (update env idx)
                   = sweep_index (foldl (update_entry env) (mkSweep idx 0 0)
                                    (map_to_list (documents idx)))).
    { unfold update. by destruct (saveIndex env _). }
    rewrite Hidx in Hdoc. destruct (documents idx !! p) as [doc0|] eqn:Hdoc0.
    + specialize (Hu p doc0 (proj2 (elem_of_map_to_list _ _ _) Hdoc0)). unfold updated in Hu.
      destruct (existsSync env p); [destruct (changed_on_disk env p doc0)|].
      * exact (fresh_extension env _ p doc Hu Hdoc).
      * destruct Hu as [Hsame _]. rewrite Hsame, Hdoc0 in Hdoc. injection Hdoc as <-.
        by apply (Hlower p).
      * destruct Hu as [Hnone _]. congruence.
    + destruct (Hk p) as [Hsame _].
      { intros ([q' d] & -> & Hin%elem_of_map_to_list)%list_elem_of_fmap. simpl in Hdoc0.
        congruence. }
      rewrite Hsame, Hdoc0 in Hdoc. done.
  - intros query extensions limit results Hne Hupper.
    apply search_filtered_out; [done|]. intros p doc Hdoc Hin.
    apply (Hupper _ Hin). by apply (Hlower p).
Qed.

Lemma upper_case_filter_finds_nothing_witness :
  postings_sound scenario_index
  ∧ extensions_lower scenario_index
  ∧ extensions_lower (index_of (update sample_env scenario_index))
  ∧ (∀ results, search scenario_index "banana" ["TXT"] 20 = Some results → results = []).
Proof.
  assert (Hlower : extensions_lower scenario_index).
  { intros p doc. unfold scenario_index. rewrite !addDocument_record.
    destruct (decide (p = "b.txt")) as [->|Hb].
    - rewrite lookup_insert_eq. by intros [= <-].
    - rewrite lookup_insert_ne by done. destruct (decide (p = "a.txt")) as [->|Ha].
      + rewrite lookup_insert_eq. by intros [= <-].
      + rewrite lookup_insert_ne by done. done. }
  assert (Hne : ["TXT"] ≠ []) by discriminate.
  assert (Hupper : ∀ e, e ∈ ["TXT"] → toLowerCase e ≠ e).
  { intros e ->%list_elem_of_singleton. discriminate. }
  pose proof (upper_case_filter_finds_nothing scenario_index postings_sound_scenario Hlower)
    as (_ & Hupd & Hsearch).
  split; [exact postings_sound_scenario|]. split; [exact Hlower|].
  split; [exact (Hupd sample_env)|].
  exact (λ results, Hsearch "banana" ["TXT"] 20%Z results Hne Hupper).
Defined.

(** ** The tokenizer, at index time and at query time *)


